(** * The move interpreter of the console chess application

    A shallow embedding of [move_parser.py] (class [MoveParser]) together
    with the part of the python-chess interface it consumes, and the
    properties of the interpreter stated over that embedding.

    Layout: the model comes first ([Py], [Chess], [Interp]), then what the
    statements need ([Invariants], [Positions], [Spec], [Runs], [Texts]),
    then the lemmas and the theorems. *)

From Stdlib Require Import String Ascii.
From Stdlib Require Import NArith ZArith PeanoNat List Bool Lia.
From Stdlib Require Import Permutation Sorted.
Import ListNotations.

(* ===================================================================== *)
(** ** Python strings *)
(* ===================================================================== *)

(** A Python [str] is a sequence of Unicode code points.  Literals of the
    source are written as UTF-8 text and decoded by [utf8]. *)
Module Py.

Definition str := list N.

Fixpoint utf8_go (need : nat) (acc : N) (s : string) : str :=
  match s with
  | EmptyString => []
  | String a s' =>
      let x := N_of_ascii a in
      match need with
      | O => if (x <? 128)%N then x :: utf8_go 0 0%N s'
             else if (x <? 224)%N then utf8_go 1 (x - 192)%N s'
             else if (x <? 240)%N then utf8_go 2 (x - 224)%N s'
             else utf8_go 3 (x - 240)%N s'
      | S O => (acc * 64 + (x - 128))%N :: utf8_go 0 0%N s'
      | S k => utf8_go k (acc * 64 + (x - 128))%N s'
      end
  end.

Definition utf8 (s : string) : str := utf8_go 0 0%N s.

(** [==] on strings and on characters. *)
Fixpoint eqb (s t : str) : bool :=
  match s, t with
  | [], [] => true
  | c :: s', d :: t' => (c =? d)%N && eqb s' t'
  | _, _ => false
  end.

(** [x in xs] for a list of strings. *)
Definition mem (s : str) (l : list str) : bool := existsb (eqb s) l.

Definition between (lo hi c : N) : bool := ((lo <=? c) && (c <=? hi))%N.

(** The characters [str.strip()] removes: Unicode white space. *)
Definition isspace (c : N) : bool :=
  between 9 13 c || between 28 32 c || (c =? 133)%N || (c =? 160)%N
  || (c =? 5760)%N || between 8192 8202 c || (c =? 8232)%N || (c =? 8233)%N
  || (c =? 8239)%N || (c =? 8287)%N || (c =? 12288)%N.

(** Case mapping of one code point.  The tables are those of Unicode for
    Basic Latin and for the Cyrillic blocks U+0400..U+052F, the alphabets
    the program's dictionaries and the board coordinates are written in;
    a code point outside these blocks is mapped to itself. *)
Definition lower_cp (c : N) : N :=
  if between 65 90 c then (c + 32)%N
  else if between 1024 1039 c then (c + 80)%N
  else if between 1040 1071 c then (c + 32)%N
  else if between 1120 1153 c || between 1162 1215 c || between 1232 1327 c
       then (if N.even c then c + 1 else c)%N
  else if (c =? 1216)%N then 1231%N
  else if between 1217 1230 c then (if N.odd c then c + 1 else c)%N
  else c.

Definition upper_cp (c : N) : N :=
  if between 97 122 c then (c - 32)%N
  else if between 1104 1119 c then (c - 80)%N
  else if between 1072 1103 c then (c - 32)%N
  else if between 1120 1153 c || between 1162 1215 c || between 1232 1327 c
       then (if N.odd c then c - 1 else c)%N
  else if (c =? 1231)%N then 1216%N
  else if between 1217 1230 c then (if N.even c then c - 1 else c)%N
  else c.

(** [str.lower()], [str.upper()], [str.capitalize()]. *)
Definition lower (s : str) : str := map lower_cp s.
Definition upper (s : str) : str := map upper_cp s.
Definition capitalize (s : str) : str :=
  match s with
  | [] => []
  | c :: s' => upper_cp c :: lower s'
  end.

(** [str.strip()]. *)
Fixpoint lstrip (s : str) : str :=
  match s with
  | [] => []
  | c :: s' => if isspace c then lstrip s' else s
  end.
Definition rstrip (s : str) : str := rev (lstrip (rev s)).
Definition strip (s : str) : str := rstrip (lstrip s).

(** [s.startswith(p)]. *)
Fixpoint startswith (p s : str) : bool :=
  match p, s with
  | [], _ => true
  | c :: p', d :: s' => (c =? d)%N && startswith p' s'
  | _ :: _, [] => false
  end.

(** The substring test [p in s]. *)
Fixpoint contains (p s : str) : bool :=
  startswith p s ||
  match s with
  | [] => false
  | _ :: s' => contains p s'
  end.

(** [s.replace(old, new)]: the occurrences of [old] are replaced from left
    to right without overlap.  [skip] counts the characters of an occurrence
    still to be dropped.  With an empty [old], [new] is inserted before every
    character and at the end. *)
Fixpoint replace_go (old new : str) (skip : nat) (s : str) : str :=
  match s with
  | [] => []
  | c :: s' =>
      match skip with
      | S k => replace_go old new k s'
      | O => if startswith old s
             then new ++ replace_go old new (length old - 1) s'
             else c :: replace_go old new 0 s'
      end
  end.

Fixpoint intersperse (new s : str) : str :=
  match s with
  | [] => new
  | c :: s' => new ++ c :: intersperse new s'
  end.

Definition replace (old new s : str) : str :=
  match old with
  | [] => intersperse new s
  | _ :: _ => replace_go old new 0 s
  end.

(** [s.split(sep)] for a one-character separator. *)
Fixpoint split (sep : N) (s : str) : list str :=
  match s with
  | [] => [[]]
  | c :: s' =>
      if (c =? sep)%N then [] :: split sep s'
      else match split sep s' with
           | [] => [[c]]
           | p :: ps => (c :: p) :: ps
           end
  end.

(** The character classes of the pattern [[a-h][1-8]]. *)
Definition is_file (c : N) : bool := between 97 104 c.
Definition is_rank (c : N) : bool := between 49 56 c.

(** [re.findall(r'[a-h][1-8]', s)]: the matches from left to right, the
    search resuming after each match. *)
Fixpoint findall_squares (s : str) : list str :=
  match s with
  | [] => []
  | c1 :: s' =>
      match s' with
      | [] => []
      | c2 :: s'' =>
          if is_file c1 && is_rank c2 then [c1; c2] :: findall_squares s''
          else findall_squares s'
      end
  end.

End Py.

(* ===================================================================== *)
(** ** The rules collaborator: the python-chess interface *)
(* ===================================================================== *)

(** The interpreter consumes python-chess through [chess.Move.from_uci],
    [chess.parse_square], [chess.square_name], [Board.parse_san],
    [Board.san], [Board.piece_at], [Board.turn], the iteration of
    [Board.legal_moves] and the test [move in Board.legal_moves].  A position
    is the record of the answers these queries get; the rules that produce
    the legal moves stay inside the collaborator.  A board is a mutable
    object: [Board.push] and [Board.pop] change its stack of moves and,
    with it, the position it is in; [Board.san] uses both.  Boards are
    standard chess ([chess960] is false), as [chess.Board()] builds them. *)
Module Chess.

Import Py.

(** Exceptions of Python and of python-chess. *)
Inductive Error :=
  | InvalidMoveError | IllegalMoveError | AmbiguousMoveError
  | ValueError | IndexError | AssertionError.

Inductive Exc (A : Type) :=
  | Ok (a : A)
  | Raise (e : Error).
Arguments Ok {A} a.
Arguments Raise {A} e.

Inductive Color := White | Black.
Inductive PieceType := Pawn | Knight | Bishop | Rook | Queen | King.

Definition color_eqb (c d : Color) : bool :=
  match c, d with
  | White, White | Black, Black => true
  | _, _ => false
  end.

Definition piece_type_eqb (p q : PieceType) : bool :=
  match p, q with
  | Pawn, Pawn | Knight, Knight | Bishop, Bishop
  | Rook, Rook | Queen, Queen | King, King => true
  | _, _ => false
  end.

Record Piece := { piece_type : PieceType; color : Color }.

(** Squares are the integers 0 (a1) to 63 (h8). *)
Definition Square := nat.

Definition square_file (sq : Square) : nat := sq mod 8.
Definition square_rank (sq : Square) : nat := sq / 8.
Definition square (file rank : nat) : Square := rank * 8 + file.

Definition E1 : Square := 4.
Definition A1 : Square := 0.
Definition C1 : Square := 2.
Definition G1 : Square := 6.
Definition H1 : Square := 7.
Definition E8 : Square := 60.
Definition A8 : Square := 56.
Definition C8 : Square := 58.
Definition G8 : Square := 62.
Definition H8 : Square := 63.

(** [SQUARE_NAMES = [f + r for r in RANK_NAMES for f in FILE_NAMES]]. *)
Definition name_of (sq : nat) : str :=
  [(97 + N.of_nat (sq mod 8))%N; (49 + N.of_nat (sq / 8))%N].
Definition SQUARE_NAMES : list str := Eval cbv in map name_of (seq 0 64).

(** [chess.square_name(sq)] is [SQUARE_NAMES[sq]]. *)
Definition square_name (sq : Square) : Exc str :=
  match nth_error SQUARE_NAMES sq with
  | Some name => Ok name
  | None => Raise IndexError
  end.

(** [list.index], which raises [ValueError] when the item is absent. *)
Fixpoint index {A : Type} (eq : A -> A -> bool) (x : A) (l : list A) : Exc nat :=
  match l with
  | [] => Raise ValueError
  | y :: l' => if eq x y then Ok 0
               else match index eq x l' with
                    | Ok i => Ok (S i)
                    | Raise e => Raise e
                    end
  end.

(** [chess.parse_square(name)] is [SQUARE_NAMES.index(name)]. *)
Definition parse_square (name : str) : Exc Square := index Py.eqb name SQUARE_NAMES.

(** [PIECE_SYMBOLS = [None, "p", "n", "b", "r", "q", "k"]]; the index of a
    one-character string in it. *)
Definition piece_symbol_index (c : str) : Exc PieceType :=
  match c with
  | [112%N] => Ok Pawn
  | [110%N] => Ok Knight
  | [98%N] => Ok Bishop
  | [114%N] => Ok Rook
  | [113%N] => Ok Queen
  | [107%N] => Ok King
  | _ => Raise ValueError
  end.

Definition piece_symbol (p : PieceType) : str :=
  match p with
  | Pawn => [112%N] | Knight => [110%N] | Bishop => [98%N]
  | Rook => [114%N] | Queen => [113%N] | King => [107%N]
  end.

(** [chess.Move]. *)
Record Move := {
  from_square : Square;
  to_square : Square;
  promotion : option PieceType;
  drop : option PieceType
}.

Definition mk_move (f t : Square) : Move :=
  {| from_square := f; to_square := t; promotion := None; drop := None |}.
Definition mk_promotion (f t : Square) (p : PieceType) : Move :=
  {| from_square := f; to_square := t; promotion := Some p; drop := None |}.

(** [Move.null()]. *)
Definition null : Move := mk_move 0 0.

Definition opt_piece_type_eqb (p q : option PieceType) : bool :=
  match p, q with
  | None, None => true
  | Some a, Some b => piece_type_eqb a b
  | _, _ => false
  end.

(** [Move.__eq__]. *)
Definition move_eqb (m n : Move) : bool :=
  (from_square m =? from_square n) && (to_square m =? to_square n)
  && opt_piece_type_eqb (promotion m) (promotion n)
  && opt_piece_type_eqb (drop m) (drop n).

Definition is_some {A : Type} (o : option A) : bool :=
  match o with Some _ => true | None => false end.

(** [Move.__bool__]:
    [bool(self.from_square or self.to_square or self.promotion or self.drop)]. *)
Definition move_bool (m : Move) : bool :=
  negb (from_square m =? 0) || negb (to_square m =? 0)
  || is_some (promotion m) || is_some (drop m).

Definition slice (i j : nat) (s : str) : str := firstn (j - i) (skipn i s).

(** [Move.from_uci(uci)]. *)
Definition from_uci (uci : str) : Exc Move :=
  if Py.eqb uci (utf8 "0000") then Ok null
  else if (length uci =? 4) && Py.eqb (slice 1 2 uci) (utf8 "@") then
    match piece_symbol_index (lower (slice 0 1 uci)), index Py.eqb (skipn 2 uci) SQUARE_NAMES with
    | Ok d, Ok sq =>
        Ok {| from_square := sq; to_square := sq; promotion := None; drop := Some d |}
    | _, _ => Raise InvalidMoveError
    end
  else if (4 <=? length uci) && (length uci <=? 5) then
    match index Py.eqb (slice 0 2 uci) SQUARE_NAMES,
          index Py.eqb (slice 2 4 uci) SQUARE_NAMES,
          (if length uci =? 5
           then match piece_symbol_index (slice 4 5 uci) with
                | Ok p => Ok (Some p)
                | Raise e => Raise e
                end
           else Ok None) with
    | Ok f, Ok t, Ok p =>
        if f =? t then Raise InvalidMoveError
        else Ok {| from_square := f; to_square := t; promotion := p; drop := None |}
    | _, _, _ => Raise InvalidMoveError
    end
  else Raise InvalidMoveError.

(** [Move.uci()]. *)
Definition uci (m : Move) : Exc str :=
  match drop m with
  | Some d =>
      match square_name (to_square m) with
      | Ok t => Ok (upper (piece_symbol d) ++ utf8 "@" ++ t)
      | Raise e => Raise e
      end
  | None =>
      match promotion m with
      | Some p =>
          match square_name (from_square m), square_name (to_square m) with
          | Ok f, Ok t => Ok (f ++ t ++ piece_symbol p)
          | Raise e, _ | _, Raise e => Raise e
          end
      | None =>
          if move_bool m then
            match square_name (from_square m), square_name (to_square m) with
            | Ok f, Ok t => Ok (f ++ t)
            | Raise e, _ | _, Raise e => Raise e
            end
          else Ok (utf8 "0000")
      end
  end.

(** A position, as the answers it gives to the interpreter. *)
Record Position := {
  to_move : Color;
  occupant : Square -> option Piece;
  generated : list Move;
  accepted : Move -> bool;
  notation : Move -> Exc str
}.

(** A [chess.Board] is a mutable object: it holds the moves pushed so far,
    [move_stack], and is in the position they lead to from the position
    it was set up with.  [positions] gives the position after each line of
    moves; the positions the board has passed through, which python-chess
    keeps on [_stack] for [pop] to restore, are those after the shorter
    lines. *)
Record Board := {
  positions : list Move -> Position;
  move_stack : list Move
}.

Definition current (b : Board) : Position := positions b (move_stack b).

(** [Board.turn] *)
Definition turn (b : Board) : Color := to_move (current b).
(** [Board.piece_at(square)] *)
Definition piece_at (b : Board) : Square -> option Piece := occupant (current b).
(** the moves [Board.legal_moves] yields, in its order *)
Definition legal_moves (b : Board) : list Move := generated (current b).
(** [move in Board.legal_moves], that is [Board.is_legal(move)] *)
Definition is_legal (b : Board) : Move -> bool := accepted (current b).
(** the text [Board.san(move)] returns *)
Definition san (b : Board) : Move -> Exc str := notation (current b).

(** [Board.push(move)]: the move goes onto [move_stack], and the board is
    in the position after it. *)
Definition push (b : Board) (move : Move) : Board :=
  {| positions := positions b; move_stack := move_stack b ++ [move] |}.

(** [Board.pop()]: the last move is taken off [move_stack] and returned,
    and the position before it is restored; [IndexError] when no move was
    pushed. *)
Definition pop (b : Board) : Exc (Move * Board) :=
  match rev (move_stack b) with
  | [] => Raise IndexError
  | move :: earlier =>
      Ok (move, {| positions := positions b; move_stack := rev earlier |})
  end.

(** Bitboard tests, read through [piece_at]. *)
Definition has_piece (b : Board) (test : Piece -> bool) (sq : Square) : bool :=
  match piece_at b sq with
  | Some p => test p
  | None => false
  end.

(** [self.occupied_co[self.turn] & BB_SQUARES[sq]] *)
Definition occupied_own (b : Board) : Square -> bool :=
  has_piece b (fun p => color_eqb (color p) (turn b)).
(** [self.pieces_mask(piece_type, self.turn) & BB_SQUARES[sq]] *)
Definition pieces_own (b : Board) (pt : PieceType) : Square -> bool :=
  has_piece b (fun p => piece_type_eqb (piece_type p) pt && color_eqb (color p) (turn b)).
(** [self.pawns], [self.kings]: the pieces of the type, of both colours *)
Definition pieces_any (b : Board) (pt : PieceType) : Square -> bool :=
  has_piece b (fun p => piece_type_eqb (piece_type p) pt).

(** [Board.is_castling], [is_kingside_castling], [is_queenside_castling]. *)
Definition is_castling (b : Board) (m : Move) : bool :=
  if pieces_any b King (from_square m) then
    (1 <? square_file (from_square m) - square_file (to_square m))
    || (1 <? square_file (to_square m) - square_file (from_square m))
    || pieces_own b Rook (to_square m)
  else false.
Definition is_kingside_castling (b : Board) (m : Move) : bool :=
  is_castling b m && (square_file (from_square m) <? square_file (to_square m)).
Definition is_queenside_castling (b : Board) (m : Move) : bool :=
  is_castling b m && (square_file (to_square m) <? square_file (from_square m)).

(** [Board.generate_castling_moves()]: the castling moves among the legal
    moves, in their order. *)
Definition generate_castling_moves (b : Board) : list Move :=
  filter (is_castling b) (legal_moves b).

(** [Board._from_chess960] on a standard board: a king move from e1 or e8
    onto the corner is read as the castling move. *)
Definition from_chess960 (b : Board) (f t : Square) (p : option PieceType) : Move :=
  let plain := {| from_square := f; to_square := t; promotion := p; drop := None |} in
  match p with
  | Some _ => plain
  | None =>
      if (f =? E1) && pieces_any b King E1 then
        if t =? H1 then mk_move E1 G1
        else if t =? A1 then mk_move E1 C1
        else plain
      else if (f =? E8) && pieces_any b King E8 then
        if t =? H8 then mk_move E8 G8
        else if t =? A8 then mk_move E8 C8
        else plain
      else plain
  end.

Definition on_backrank (sq : Square) : bool :=
  (square_rank sq =? 0) || (square_rank sq =? 7).

(** [Board.find_move(from_square, to_square, promotion)]. *)
Definition find_move (b : Board) (f t : Square) (p : option PieceType) : Exc Move :=
  let p' := match p with
            | None => if pieces_any b Pawn f && on_backrank t then Some Queen else None
            | Some _ => p
            end in
  let move := from_chess960 b f t p' in
  if is_legal b move then Ok move else Raise IllegalMoveError.

(** The groups of [SAN_REGEX =
    ^([NBKRQ])?([a-h])?([1-8])?[\-x]?([a-h][1-8])(=?[nbrqkNBRQK])?[\+#]?\Z]. *)
Record SanGroups := {
  g_piece : option N;
  g_file : option N;
  g_rank : option N;
  g_target : str;
  g_promo : option N   (* the last character of group 5 *)
}.

Definition is_piece_letter (c : N) : bool := existsb (N.eqb c) (utf8 "NBKRQ").
Definition is_separator (c : N) : bool := existsb (N.eqb c) (utf8 "-x").
Definition is_promo_letter (c : N) : bool := existsb (N.eqb c) (utf8 "nbrqkNBRQK").
Definition is_check_mark (c : N) : bool := existsb (N.eqb c) (utf8 "+#").

(** An optional one-character item of the pattern: the matcher first tries
    to consume the character and falls back to skipping the item when the
    rest of the pattern then fails. *)
Definition optional {A : Type} (p : N -> bool) (s : str)
    (k : option N -> str -> option A) : option A :=
  match s with
  | c :: s' =>
      if p c then match k (Some c) s' with
                  | Some r => Some r
                  | None => k None s
                  end
      else k None s
  | [] => k None s
  end.

(** Group 5, [(=?[nbrqkNBRQK])?]: the letter, then the group with its
    optional [=]. *)
Definition promo_letter {A : Type} (k : option N -> str -> option A) (s1 : str)
    : option A :=
  match s1 with
  | c :: s2 => if is_promo_letter c then k (Some c) s2 else None
  | [] => None
  end.

Definition promo_group {A : Type} (s : str) (k : option N -> str -> option A) : option A :=
  let taken :=
    match s with
    | c :: s1 => if (c =? 61)%N
                 then match promo_letter k s1 with
                      | Some r => Some r
                      | None => promo_letter k s
                      end
                 else promo_letter k s
    | [] => None
    end in
  match taken with
  | Some r => Some r
  | None => k None s
  end.

(** [SAN_REGEX.match(san)]. *)
Definition san_regex (san : str) : option SanGroups :=
  optional is_piece_letter san (fun pc s1 =>
  optional is_file s1 (fun fl s2 =>
  optional is_rank s2 (fun rk s3 =>
  optional is_separator s3 (fun _ s4 =>
  match s4 with
  | tf :: tr :: s5 =>
      if is_file tf && is_rank tr then
        promo_group s5 (fun pr s6 =>
        optional is_check_mark s6 (fun _ s7 =>
        match s7 with
        | [] => Some {| g_piece := pc; g_file := fl; g_rank := rk;
                        g_target := [tf; tr]; g_promo := pr |}
        | _ :: _ => None
        end))
      else None
  | _ => None
  end)))).

Definition kingside_names : list str :=
  map utf8 ["O-O"; "O-O+"; "O-O#"; "0-0"; "0-0+"; "0-0#"]%string.
Definition queenside_names : list str :=
  map utf8 ["O-O-O"; "O-O-O+"; "O-O-O#"; "0-0-0"; "0-0-0+"; "0-0-0#"]%string.
Definition null_names : list str :=
  map utf8 ["--"; "Z0"; "0000"; "@@@@"]%string.

(** The loop of [parse_san] over [generate_legal_moves(from_mask, to_mask)]:
    the one move with the requested promotion, [AmbiguousMoveError] for two,
    [IllegalMoveError] for none. *)
Fixpoint match_legal (promo : option PieceType) (moves : list Move)
    (matched : option Move) : Exc Move :=
  match moves with
  | [] => match matched with
          | Some m => Ok m
          | None => Raise IllegalMoveError
          end
  | m :: rest =>
      if opt_piece_type_eqb (promotion m) promo then
        match matched with
        | Some _ => Raise AmbiguousMoveError
        | None => match_legal promo rest (Some m)
        end
      else match_legal promo rest matched
  end.

(** [generate_legal_moves(from_mask, to_mask)] as [parse_san] calls it: the
    destination mask is one square, own pieces masked out, so that castling
    moves, which the generator selects by the rook's square, are left out. *)
Definition generate_legal_moves (b : Board) (from_mask : Square -> bool)
    (to : Square) : list Move :=
  filter (fun m => from_mask (from_square m) && (to_square m =? to)
                   && negb (occupied_own b to) && negb (is_castling b m))
         (legal_moves b).

(** [PIECE_SYMBOLS.index(p[-1].lower()) if p else None] for group 5. *)
Definition san_promotion (g : SanGroups) : Exc (option PieceType) :=
  match g_promo g with
  | Some c => match piece_symbol_index (lower [c]) with
              | Ok p => Ok (Some p)
              | Raise e => Raise e
              end
  | None => Ok None
  end.

(** [Board.parse_san(san)]. *)
Definition parse_san (b : Board) (san : str) : Exc Move :=
  if mem san kingside_names then
    match find (is_kingside_castling b) (generate_castling_moves b) with
    | Some m => Ok m
    | None => Raise IllegalMoveError
    end
  else if mem san queenside_names then
    match find (is_queenside_castling b) (generate_castling_moves b) with
    | Some m => Ok m
    | None => Raise IllegalMoveError
    end
  else
    match san_regex san with
    | None => if mem san null_names then Ok null else Raise InvalidMoveError
    | Some g =>
        match index Py.eqb (g_target g) SQUARE_NAMES, san_promotion g with
        | Raise e, _ | _, Raise e => Raise e
        | Ok to, Ok promo =>
            let file_ok (sq : Square) :=
              match g_file g with
              | Some c => square_file sq =? N.to_nat (c - 97)
              | None => true
              end in
            let rank_ok (sq : Square) :=
              match g_rank g with
              | Some c => square_rank sq =? N.to_nat (c - 49)
              | None => true
              end in
            match g_piece g, g_file g, g_rank g with
            | Some pc, _, _ =>
                match piece_symbol_index (lower [pc]) with
                | Raise e => Raise e
                | Ok pt =>
                    match_legal promo
                      (generate_legal_moves b
                         (fun sq => file_ok sq && rank_ok sq && pieces_own b pt sq) to)
                      None
                end
            | None, Some fl, Some rk =>
                match find_move b (square (N.to_nat (fl - 97)) (N.to_nat (rk - 49))) to promo with
                | Raise e => Raise e
                | Ok move =>
                    if opt_piece_type_eqb (promotion move) promo then Ok move
                    else Raise IllegalMoveError
                end
            | None, fl, _ =>
                match_legal promo
                  (generate_legal_moves b
                     (fun sq => file_ok sq && rank_ok sq && pieces_any b Pawn sq
                                && (is_some fl || (square_file sq =? square_file to))) to)
                  None
            end
        end
    end.

End Chess.

(* ===================================================================== *)
(** ** The interpreter: class [MoveParser] *)
(* ===================================================================== *)

Module Interp.

Import Py.
Import Chess.

(** What [_find_move_by_piece_and_target] prints when the move is ambiguous:
    the warning, one line per candidate with its SAN text and the name of
    its origin square, and the hint built from the first candidate. *)
Inductive Line :=
  | Warning
  | Candidate (san_text from_name : str)
  | Hint (san_text from_name to_name : str).

(** A method runs on the board it was handed and ends with a value or a
    raised exception, the board as the method leaves it, and the lines it
    printed. *)
Record Run (A : Type) := {
  result : Exc A;
  board_after : Board;
  printed : list Line
}.
Arguments result {A} r.
Arguments board_after {A} r.
Arguments printed {A} r.

Definition M (A : Type) : Type := Board -> Run A.

Definition ret {A : Type} (a : A) : M A :=
  fun b => {| result := Ok a; board_after := b; printed := [] |}.

Definition bind {A B : Type} (c : M A) (k : A -> M B) : M B :=
  fun b =>
    let r := c b in
    match result r with
    | Ok a =>
        let r' := k a (board_after r) in
        {| result := result r'; board_after := board_after r';
           printed := printed r ++ printed r' |}
    | Raise e =>
        {| result := Raise e; board_after := board_after r; printed := printed r |}
    end.

Notation "x <- c ;; k" := (bind c (fun x => k))
  (at level 61, c at next level, right associativity).

(** [try: body except: handler], with a bare [except]. *)
Definition try_except {A : Type} (body handler : M A) : M A :=
  fun b =>
    let r := body b in
    match result r with
    | Ok a => r
    | Raise _ =>
        let r' := handler (board_after r) in
        {| result := result r'; board_after := board_after r';
           printed := printed r ++ printed r' |}
    end.

(** A call into the collaborator that only reads the board. *)
Definition query {A : Type} (f : Board -> Exc A) : M A :=
  fun b => {| result := f b; board_after := b; printed := [] |}.

(** [board.push(move)] and [board.pop()], which change it. *)
Definition push (move : Move) : M unit :=
  fun b => {| result := Ok tt; board_after := Chess.push b move; printed := [] |}.

Definition pop : M Move :=
  fun b => match Chess.pop b with
           | Ok (move, b') => {| result := Ok move; board_after := b'; printed := [] |}
           | Raise e => {| result := Raise e; board_after := b; printed := [] |}
           end.

(** [board.san(move)], which is [Board._algebraic(move)]: python-chess
    forms the text, pushes the move to see whether it gives check or mate,
    and pops it again before it returns.  The text is an answer of the
    position the board is in; the push and the pop are carried out.  An
    illegal move is refused before it is pushed. *)
Definition _algebraic (move : Move) : M str :=
  san <- query (fun b => san b move) ;;
  _ <- push move ;;
  _ <- pop ;;
  ret san.

(** A library function that does not take the board. *)
Definition lift {A : Type} (x : Exc A) : M A := query (fun _ => x).

Definition print (l : Line) : M unit :=
  fun b => {| result := Ok tt; board_after := b; printed := [l] |}.

(** Truth value of an [Optional[chess.Move]]. *)
Definition truthy (o : option Move) : bool :=
  match o with
  | Some m => move_bool m
  | None => false
  end.

(** [self.cyrillic_to_latin], in the order of the dictionary. *)
Definition cyrillic_to_latin : list (str * str) :=
  map (fun kv => (utf8 (fst kv), utf8 (snd kv)))
    [("а", "a"); ("А", "A");
     ("б", "b"); ("Б", "B");
     ("с", "c"); ("С", "C");
     ("д", "d"); ("Д", "D");
     ("е", "e"); ("Е", "E");
     ("ф", "f"); ("Ф", "F");
     ("г", "g"); ("Г", "G");
     ("х", "h"); ("Х", "H")]%string.

(** [_convert_cyrillic_to_latin]. *)
Definition _convert_cyrillic_to_latin (text : str) : str :=
  fold_left (fun result kv => replace (fst kv) (snd kv) result) cyrillic_to_latin text.

(** The dictionary [castling_names] of [_try_castling_ukrainian]. *)
Definition castling_names : list (str * str) :=
  map (fun kv => (utf8 (fst kv), utf8 (snd kv)))
    [("коротка рокіровка", "O-O");
     ("рокіровка коротка", "O-O");
     ("мала рокіровка", "O-O");
     ("рокіровка", "O-O");
     ("довга рокіровка", "O-O-O");
     ("рокіровка довга", "O-O-O");
     ("велика рокіровка", "O-O-O")]%string.

(** The loop of [_try_castling_ukrainian]. *)
Fixpoint castling_loop (names : list (str * str)) (move_text_lower : str)
    : M (option Move) :=
  match names with
  | [] => ret None
  | (uk_name, san_notation) :: rest =>
      if contains uk_name move_text_lower then
        r <- try_except
               (move <- query (fun b => parse_san b san_notation) ;; ret (Some move))
               (ret None) ;;
        match r with
        | Some move => ret (Some move)
        | None => castling_loop rest move_text_lower
        end
      else castling_loop rest move_text_lower
  end.

Definition _try_castling_ukrainian (move_text : str) : M (option Move) :=
  let move_text_lower := lower move_text in
  castling_loop castling_names move_text_lower.

(** The loop of [_try_standard_notation]. *)
Fixpoint standard_loop (variants : list str) : M (option Move) :=
  match variants with
  | [] => ret None
  | variant :: rest =>
      r <- try_except
             (move <- query (fun b => parse_san b variant) ;;
              if move_bool move then ret (Some move) else ret None)
             (ret None) ;;
      match r with
      | Some move => ret (Some move)
      | None => standard_loop rest
      end
  end.

Definition _try_standard_notation (move_text : str) : M (option Move) :=
  standard_loop [move_text; capitalize move_text; upper move_text].

(** [move = chess.Move.from_uci(text); if move in board.legal_moves: return move]
    inside [try], with [except: pass]. *)
Definition legal_from_uci (text : str) : M (option Move) :=
  try_except
    (move <- lift (from_uci text) ;;
     legal <- query (fun b => Ok (is_legal b move)) ;;
     if legal then ret (Some move) else ret None)
    (ret None).

Definition _try_uci_notation (move_text : str) : M (option Move) :=
  legal_from_uci move_text.

Definition _try_dash_notation (move_text : str) : M (option Move) :=
  if contains (utf8 "-") move_text then
    match split 45 move_text with
    | [part0; part1] =>
        let from_square := strip part0 in
        let to_square := strip part1 in
        legal_from_uci (from_square ++ to_square)
    | _ => ret None
    end
  else ret None.

(** [piece_map.get(piece_symbol.upper())]. *)
Definition piece_map_get (symbol : str) : option PieceType :=
  if Py.eqb symbol (utf8 "P") then Some Pawn
  else if Py.eqb symbol (utf8 "N") then Some Knight
  else if Py.eqb symbol (utf8 "B") then Some Bishop
  else if Py.eqb symbol (utf8 "R") then Some Rook
  else if Py.eqb symbol (utf8 "Q") then Some Queen
  else if Py.eqb symbol (utf8 "K") then Some King
  else None.

(** The loop that collects [possible_moves]. *)
Fixpoint collect_moves (piece_type : PieceType) (to_square : Square)
    (moves : list Move) : M (list Move) :=
  match moves with
  | [] => ret []
  | move :: rest =>
      keep <-
        (if Chess.to_square move =? to_square then
           piece <- query (fun b => Ok (piece_at b (from_square move))) ;;
           turn <- query (fun b => Ok (turn b)) ;;
           ret match piece with
               | Some p => piece_type_eqb (Chess.piece_type p) piece_type
                           && color_eqb (color p) turn
               | None => false
               end
         else ret false) ;;
      others <- collect_moves piece_type to_square rest ;;
      ret (if keep then move :: others else others)
  end.

(** The loop that prints the candidates. *)
Fixpoint print_candidates (moves : list Move) : M unit :=
  match moves with
  | [] => ret tt
  | move :: rest =>
      san <- _algebraic move ;;
      from_sq <- lift (square_name (from_square move)) ;;
      _ <- print (Candidate san from_sq) ;;
      print_candidates rest
  end.

Definition _find_move_by_piece_and_target (piece_symbol to_square_name : str)
    : M (option Move) :=
  match piece_map_get (upper piece_symbol) with
  | None => ret None
  | Some piece_type =>
      r <- try_except
             (sq <- lift (parse_square to_square_name) ;; ret (Some sq))
             (ret None) ;;
      match r with
      | None => ret None
      | Some to_square =>
          moves <- query (fun b => Ok (legal_moves b)) ;;
          possible_moves <- collect_moves piece_type to_square moves ;;
          match possible_moves with
          | [move] => ret (Some move)
          | first :: _ :: _ =>
              _ <- print Warning ;;
              _ <- print_candidates possible_moves ;;
              san <- _algebraic first ;;
              from_sq <- lift (square_name (from_square first)) ;;
              _ <- print (Hint san from_sq to_square_name) ;;
              ret None
          | [] => ret None
          end
      end
  end.

(** [move_text.replace('на', ' ').replace('з', ' ').replace('в', ' ').strip()] *)
Definition remove_fillers (move_text : str) : str :=
  strip (replace (utf8 "в") (utf8 " ")
          (replace (utf8 "з") (utf8 " ")
            (replace (utf8 "на") (utf8 " ") move_text))).

Section WithConfig.

(** [config.PIECE_NAMES_UK]: the items of the dictionary of piece names, in
    its order; [config.py] is not part of the sources. *)
Variable piece_names : list (str * str).

(** The loop of [_try_human_language] that looks for a piece name: the
    symbol of the first name found in the text, and the text without it. *)
Fixpoint find_piece_name (names : list (str * str)) (move_text : str)
    : option str * str :=
  match names with
  | [] => (None, move_text)
  | (name, symbol) :: rest =>
      if contains name move_text
      then (Some symbol, strip (replace name [] move_text))
      else find_piece_name rest move_text
  end.

Definition _try_human_language (move_text : str) : M (option Move) :=
  let (found, move_text) := find_piece_name piece_names move_text in
  let piece_type := match found with
                    | Some symbol => symbol
                    | None => utf8 "P"
                    end in
  let move_text := remove_fillers move_text in
  let squares := findall_squares move_text in
  match squares with
  | [to_square] => _find_move_by_piece_and_target piece_type to_square
  | [from_square; to_square] => legal_from_uci (from_square ++ to_square)
  | _ => ret None
  end.

Definition parse_move (move_text : str) : M (option Move) :=
  let move_text := strip move_text in
  let move_text := _convert_cyrillic_to_latin move_text in
  move <- _try_castling_ukrainian move_text ;;
  if truthy move then ret move else
  move <- _try_standard_notation move_text ;;
  if truthy move then ret move else
  let move_text := lower move_text in
  move <- _try_uci_notation move_text ;;
  if truthy move then ret move else
  move <- _try_human_language move_text ;;
  if truthy move then ret move else
  move <- _try_dash_notation move_text ;;
  if truthy move then ret move else
  ret None.

End WithConfig.

(** The three outcomes of a resolution, as the caller observes them: the
    returned move; [None] after the ambiguity report, with the candidates
    it listed; [None] with nothing printed. *)
Inductive Outcome :=
  | Resolved (m : Move)
  | Ambiguous (candidates : list (str * str))
  | Unrecognized.

Definition candidates_of (lines : list Line) : list (str * str) :=
  flat_map (fun l => match l with
                     | Candidate s f => [(s, f)]
                     | _ => []
                     end) lines.

Definition outcome (r : Run (option Move)) : option Outcome :=
  match result r with
  | Raise _ => None
  | Ok (Some m) => Some (Resolved m)
  | Ok None => match printed r with
               | [] => Some Unrecognized
               | lines => Some (Ambiguous (candidates_of lines))
               end
  end.

End Interp.

(* ===================================================================== *)
(** ** Invariants of the collaborator's boards *)
(* ===================================================================== *)

Module Invariants.

Import Py.
Import Chess.

(** Facts python-chess maintains for every position, stated on the
    answers of the position the board is in.  Each is a test over the legal
    moves. *)

(** every move the board yields passes [move in board.legal_moves] *)
Definition legal_sound (b : Board) : Prop :=
  forallb (is_legal b) (legal_moves b) = true.

(** a legal move leaves its square and is not a drop *)
Definition legal_proper (b : Board) : Prop :=
  forallb (fun m => negb (from_square m =? to_square m) && negb (is_some (drop m)))
          (legal_moves b) = true.

(** a legal move starts on a square of the board and ends on one *)
Definition legal_on_board (b : Board) : Prop :=
  forallb (fun m => (from_square m <? 64) && (to_square m <? 64)) (legal_moves b) = true.

(** a legal move moves a piece of the side to move *)
Definition legal_own (b : Board) : Prop :=
  forallb (fun m => occupied_own b (from_square m)) (legal_moves b) = true.

(** castling is yielded as the king's move to its destination, never as
    the king's move onto the rook *)
Definition legal_standard (b : Board) : Prop :=
  forallb (fun m => move_eqb (from_chess960 b (from_square m) (to_square m) (promotion m)) m)
          (legal_moves b) = true.

(** [board.san] formats every legal move *)
Definition san_defined (b : Board) : Prop :=
  forallb (fun m => match san b m with Ok _ => true | Raise _ => false end)
          (legal_moves b) = true.

(** [board.parse_san(board.san(m))] is [m] for every legal move [m] *)
Definition san_faithful (b : Board) : Prop :=
  forallb (fun m => match san b m with
                    | Ok text => match parse_san b text with
                                 | Ok n => move_eqb n m
                                 | Raise _ => false
                                 end
                    | Raise _ => false
                    end)
          (legal_moves b) = true.

(** a pawn that moves onto the first or the last rank promotes *)
Definition legal_promoting (b : Board) : Prop :=
  forallb (fun m => negb (pieces_any b Pawn (from_square m) && on_backrank (to_square m))
                    || is_some (promotion m))
          (legal_moves b) = true.

End Invariants.

(* ===================================================================== *)
(** ** Positions used in the examples *)
(* ===================================================================== *)

Module Positions.

Import Py.
Import Chess.
Import Interp.

Definition piece (c : Color) (t : PieceType) : Piece := {| piece_type := t; color := c |}.

Fixpoint lookup (pieces : list (Square * Piece)) (sq : Square) : option Piece :=
  match pieces with
  | [] => None
  | (s, p) :: rest => if s =? sq then Some p else lookup rest sq
  end.

Fixpoint san_lookup (table : list (Move * string)) (m : Move) : Exc str :=
  match table with
  | [] => Raise AssertionError
  | (n, text) :: rest => if move_eqb n m then Ok (utf8 text) else san_lookup rest m
  end.

(** The positions after a move are not tabulated: an example board
    answers for the position it is set up with, and as an empty board
    after any move. *)
Definition untabulated : Position :=
  {| to_move := White; occupant := fun _ => None; generated := [];
     accepted := fun _ => false; notation := fun _ => Raise AssertionError |}.

(** [chess.Board(fen)]: a board set up with a position, no move pushed. *)
Definition set_up (p : Position) : Board :=
  {| positions := fun line => match line with
                              | [] => p
                              | _ :: _ => untabulated
                              end;
     move_stack := [] |}.

(** A position from its side to move, its pieces, and its legal moves in
    the order python-chess generates them, each with its SAN text.
    [is_legal] accepts the listed moves and, as python-chess does, the
    king-onto-rook spelling of a listed castling move. *)
Definition position (side : Color) (pieces : list (Square * Piece))
    (moves : list (Move * string)) : Board :=
  let listed := map fst moves in
  let observed := set_up {| to_move := side; occupant := lookup pieces; generated := listed;
                            accepted := fun _ => false; notation := san_lookup moves |} in
  set_up
    {| to_move := side;
       occupant := lookup pieces;
       generated := listed;
       accepted := fun m =>
         existsb (move_eqb m) listed
         || (negb (is_some (promotion m)) && negb (is_some (drop m))
             && pieces_own observed King (from_square m)
             && existsb (move_eqb (from_chess960 observed (from_square m) (to_square m) None))
                        (generate_castling_moves observed));
       notation := san_lookup moves |}.

(** Squares by name, for the tables below. *)
Definition sq (name : string) : Square :=
  match parse_square (utf8 name) with
  | Ok s => s
  | Raise _ => 64
  end.
Definition mv (f t : string) : Move := mk_move (sq f) (sq t).
Definition promo (f t : string) (p : PieceType) : Move := mk_promotion (sq f) (sq t) p.

(** A table of piece names for the examples.
    Modelled from the spec: [config.PIECE_NAMES_UK] is missing from the
    sources; the spec lists the phrases as pawn, knight, bishop, rook, queen
    and king in the user's language, and [main.py] and [demo.py] use these
    words in their examples of input. *)
Definition example_piece_names : list (str * str) :=
  map (fun kv => (utf8 (fst kv), utf8 (snd kv)))
    [("пішак", "P"); ("кінь", "N"); ("слон", "B");
     ("тура", "R"); ("ферзь", "Q"); ("король", "K")]%string.

(** [4k3/8/8/8/8/8/8/4K2R w K - 0 1]: White may castle short. *)
Definition castle_ready : Board := Eval cbv in
  position White
    [(sq "e1", piece White King); (sq "h1", piece White Rook); (sq "e8", piece Black King)]
    [(mv "h1" "h8", "Rh8+"); (mv "h1" "h7", "Rh7"); (mv "h1" "h6", "Rh6");
     (mv "h1" "h5", "Rh5"); (mv "h1" "h4", "Rh4"); (mv "h1" "h3", "Rh3");
     (mv "h1" "h2", "Rh2"); (mv "h1" "g1", "Rg1"); (mv "h1" "f1", "Rf1");
     (mv "e1" "f2", "Kf2"); (mv "e1" "e2", "Ke2"); (mv "e1" "d2", "Kd2");
     (mv "e1" "f1", "Kf1"); (mv "e1" "d1", "Kd1"); (mv "e1" "g1", "O-O")]%string.

(** [k7/8/8/8/8/8/8/1N3N1K w - - 0 1]: both knights reach d2. *)
Definition two_knights : Board := Eval cbv in
  position White
    [(sq "h1", piece White King); (sq "f1", piece White Knight);
     (sq "b1", piece White Knight); (sq "a8", piece Black King)]
    [(mv "h1" "h2", "Kh2"); (mv "h1" "g2", "Kg2"); (mv "h1" "g1", "Kg1");
     (mv "f1" "g3", "Ng3"); (mv "f1" "e3", "Ne3"); (mv "f1" "h2", "Nh2");
     (mv "f1" "d2", "Nfd2"); (mv "b1" "c3", "Nc3"); (mv "b1" "a3", "Na3");
     (mv "b1" "d2", "Nbd2")]%string.

(** [k7/8/8/8/8/2n5/1P1B4/7K w - - 0 1]: the bishop on d2 and the pawn on b2
    both capture on c3. *)
Definition bishop_or_pawn : Board := Eval cbv in
  position White
    [(sq "h1", piece White King); (sq "d2", piece White Bishop);
     (sq "b2", piece White Pawn); (sq "c3", piece Black Knight);
     (sq "a8", piece Black King)]
    [(mv "h1" "h2", "Kh2"); (mv "h1" "g2", "Kg2"); (mv "h1" "g1", "Kg1");
     (mv "d2" "h6", "Bh6"); (mv "d2" "g5", "Bg5"); (mv "d2" "f4", "Bf4");
     (mv "d2" "e3", "Be3"); (mv "d2" "c3", "Bxc3"); (mv "d2" "e1", "Be1");
     (mv "d2" "c1", "Bc1"); (mv "b2" "c3", "bxc3"); (mv "b2" "b3", "b3");
     (mv "b2" "b4", "b4")]%string.

(** [7k/4P3/8/8/8/8/8/K7 w - - 0 1]: the pawn on e7 promotes on e8. *)
Definition promotion_ready : Board := Eval cbv in
  position White
    [(sq "a1", piece White King); (sq "e7", piece White Pawn); (sq "h8", piece Black King)]
    [(mv "a1" "b2", "Kb2"); (mv "a1" "a2", "Ka2"); (mv "a1" "b1", "Kb1");
     (promo "e7" "e8" Queen, "e8=Q+"); (promo "e7" "e8" Rook, "e8=R+");
     (promo "e7" "e8" Bishop, "e8=B"); (promo "e7" "e8" Knight, "e8=N")]%string.

End Positions.

(* ===================================================================== *)
(** ** The transliteration as the specification words it *)
(* ===================================================================== *)

Module Spec.

Import Py.

(** The alternate-script letters that resemble the eight file letters, each
    with its file letter, lower case to lower case and upper case to upper
    case. *)
Definition translit_table : list (N * N) :=
  [(1072, 97); (1040, 65);      (* а a *)
   (1073, 98); (1041, 66);      (* б b *)
   (1089, 99); (1057, 67);      (* с c *)
   (1076, 100); (1044, 68);     (* д d *)
   (1077, 101); (1045, 69);     (* е e *)
   (1092, 102); (1060, 70);     (* ф f *)
   (1075, 103); (1043, 71);     (* г g *)
   (1093, 104); (1061, 72)]%N.  (* х h *)

Fixpoint assoc (table : list (N * N)) (c : N) : N :=
  match table with
  | [] => c
  | (k, v) :: rest => if (c =? k)%N then v else assoc rest c
  end.

Definition translit_cp (c : N) : N := assoc translit_table c.

(** Every occurrence replaced, everything else kept. *)
Definition transliterate (token : str) : str := map translit_cp token.

(** The digits [1] to [8] in a text: each board-square substring holds one. *)
Definition rank_digits (s : str) : nat := length (filter is_rank s).

(** A move qualifies for a piece type and a target square when it ends on
    the target and the piece on its origin square has the piece type and
    the colour of the side to move. *)
Definition qualifies (b : Chess.Board) (pt : Chess.PieceType) (target : Chess.Square)
    (m : Chess.Move) : bool :=
  (Chess.to_square m =? target)
  && match Chess.piece_at b (Chess.from_square m) with
     | Some p => Chess.piece_type_eqb (Chess.piece_type p) pt
                 && Chess.color_eqb (Chess.color p) (Chess.turn b)
     | None => false
     end.

(** The text the strategies receive from [parse_move]: the token stripped
    and transliterated. *)
Definition prepared (token : str) : str :=
  Interp._convert_cyrillic_to_latin (strip token).

(** The algebraic parser does not come between a variant [w] and the move
    [M]: it refuses [w], or reads it as a move that is not truthy, or as
    [M] itself. *)
Definition unread (b : Chess.Board) (M : Chess.Move) (w : str) : bool :=
  match Chess.parse_san b w with
  | Chess.Ok m => negb (Chess.move_bool m) || Chess.move_eqb m M
  | Chess.Raise _ => true
  end.

(** The text starts with one of the letters. *)
Definition starts_with (letters : str) (v : str) : bool :=
  match v with
  | c :: _ => existsb (N.eqb c) letters
  | [] => false
  end.

End Spec.

(* ===================================================================== *)
(** ** Properties of runs *)
(* ===================================================================== *)

Module Runs.

Import Py.
Import Chess.
Import Interp.

(** The frame property: the board a computation leaves is the board it
    was given. *)
Definition keeps_board {A : Type} (c : M A) : Prop :=
  forall b, board_after (c b) = b.

(** [sat b c Q]: run on [b], the computation leaves [b] and, when it
    returns, its value satisfies [Q].  [total b c Q]: moreover it returns. *)
Definition sat {A : Type} (b : Board) (c : M A) (Q : A -> Prop) : Prop :=
  board_after (c b) = b /\ forall a, result (c b) = Ok a -> Q a.

Definition total {A : Type} (b : Board) (c : M A) (Q : A -> Prop) : Prop :=
  board_after (c b) = b /\ exists a, result (c b) = Ok a /\ Q a.

(** A run that returns [a], leaves the board and has printed [out]. *)
Definition emits {A : Type} (a : A) (b : Board) (out : list Line) : Run A :=
  {| result := Ok a; board_after := b; printed := out |}.

(** What a strategy hands to the driver: nothing, or a move that is legal
    as soon as it is truthy. *)
Definition legal_if_truthy (b : Board) (r : option Move) : Prop :=
  forall m, r = Some m -> move_bool m = true -> is_legal b m = true.

End Runs.

(* ===================================================================== *)
(** ** Texts of moves and of squares *)
(* ===================================================================== *)

Module Texts.

Import Py.
Import Chess.
Import Interp.

(** An optional one-character item of [SAN_REGEX], and its group 5. *)
Definition item (p : N -> bool) (a : str) : Prop :=
  a = [] \/ exists c, a = [c] /\ p c = true.

Definition promo_item (e : str) : Prop :=
  e = [] \/ exists c, (e = [c] \/ e = [61%N; c]) /\ is_promo_letter c = true.

(** Printable ASCII other than the space. *)
Definition plain (c : N) : bool := between 33 126 c.

(** The long-algebraic text of a move from [f] to [t] with promotion [p]. *)
Definition coord (f t : Square) (p : option PieceType) : str :=
  nth f SQUARE_NAMES [] ++ nth t SQUARE_NAMES []
  ++ match p with Some q => piece_symbol q | None => [] end.

Definition is_pawn_promotion (p : option PieceType) : bool :=
  match p with Some Pawn => true | _ => false end.

(** What the string functions and the pattern of the algebraic parser make
    of a long-algebraic text; checked below for the 64 x 64 x 7 texts. *)
Definition raises_on_syntax (v : str) : bool :=
  negb (mem v kingside_names) && negb (mem v queenside_names)
  && negb (mem v null_names)
  && match san_regex v with Some _ => false | None => true end.

Definition reads_as_coordinates (f t : Square) (p : option PieceType) (v : str) : bool :=
  negb (mem v kingside_names) && negb (mem v queenside_names)
  && match san_regex v with
     | None => false
     | Some g =>
         match g_piece g with None => true | Some _ => false end
         && match g_file g, g_rank g with
            | Some fl, Some rk => square (N.to_nat (fl - 97)) (N.to_nat (rk - 49)) =? f
            | _, _ => false
            end
         && match index Py.eqb (g_target g) SQUARE_NAMES with
            | Ok i => i =? t
            | Raise _ => false
            end
         && match san_promotion g with
            | Ok q => opt_piece_type_eqb q p
            | Raise _ => false
            end
     end.

Definition coord_check (f t : Square) (p : option PieceType) : bool :=
  let c := coord f t p in
  forallb plain c && Py.eqb (lower c) c
  && (if is_pawn_promotion p
      then raises_on_syntax c && raises_on_syntax (capitalize c)
           && raises_on_syntax (upper c)
      else reads_as_coordinates f t p c)
  && ((f =? t)
      || match from_uci c with
         | Ok m => move_eqb m {| from_square := f; to_square := t;
                                 promotion := p; drop := None |}
         | Raise _ => false
         end).

Definition promotions : list (option PieceType) :=
  [None; Some Pawn; Some Knight; Some Bishop; Some Rook; Some Queen; Some King].

(** What the strategies make of the name of a square; checked below for
    the 64 names. *)
Definition reads_as_target (target : Square) (v : str) : bool :=
  negb (mem v kingside_names) && negb (mem v queenside_names)
  && match san_regex v with
     | None => false
     | Some g =>
         match g_piece g, g_file g, g_rank g with
         | None, None, None => true
         | _, _, _ => false
         end
         && match index Py.eqb (g_target g) SQUARE_NAMES with
            | Ok i => i =? target
            | Raise _ => false
            end
         && match san_promotion g with
            | Ok None => true
            | _ => false
            end
     end.

Definition square_check (target : Square) (name : str) : bool :=
  forallb plain name && Py.eqb (lower name) name
  && reads_as_target target name
  && raises_on_syntax (capitalize name) && raises_on_syntax (upper name)
  && match from_uci name with Ok _ => false | Raise _ => true end
  && Py.eqb (remove_fillers name) name
  && match findall_squares name with
     | [found] => Py.eqb found name
     | _ => false
     end.

End Texts.

(* ===================================================================== *)
(** ** More of Python: comparison of strings, [sorted], [str(int)] *)
(* ===================================================================== *)

Module PyMore.

Import Py.

(** [s <= t] on strings: the order of the code points, a prefix first. *)
Fixpoint str_leb (s t : str) : bool :=
  match s, t with
  | [], _ => true
  | _ :: _, [] => false
  | c :: s', d :: t' => if (c <? d)%N then true
                        else if (d <? c)%N then false
                        else str_leb s' t'
  end.

(** [sorted(l)] for a list of strings: the order is total, so that the
    result is the one ascending arrangement, here built by insertion. *)
Fixpoint insert (x : str) (l : list str) : list str :=
  match l with
  | [] => [x]
  | y :: l' => if str_leb x y then x :: l else y :: insert x l'
  end.

Fixpoint sorted (l : list str) : list str :=
  match l with
  | [] => []
  | x :: l' => insert x (sorted l')
  end.

(** The decimal digits of a number, and [str(n)] for an [int]. *)
Fixpoint digits (d : Decimal.uint) : str :=
  match d with
  | Decimal.Nil => []
  | Decimal.D0 d' => 48%N :: digits d'
  | Decimal.D1 d' => 49%N :: digits d'
  | Decimal.D2 d' => 50%N :: digits d'
  | Decimal.D3 d' => 51%N :: digits d'
  | Decimal.D4 d' => 52%N :: digits d'
  | Decimal.D5 d' => 53%N :: digits d'
  | Decimal.D6 d' => 54%N :: digits d'
  | Decimal.D7 d' => 55%N :: digits d'
  | Decimal.D8 d' => 56%N :: digits d'
  | Decimal.D9 d' => 57%N :: digits d'
  end.

Definition str_of_int (z : Z) : str :=
  if (z <? 0)%Z then 45%N :: digits (N.to_uint (Z.abs_N z))
  else digits (N.to_uint (Z.abs_N z)).

(** [c in s] for a one-character [c], as a count: [s.count(c)]. *)
Definition count (c : N) (s : str) : nat :=
  length (filter (N.eqb c) s).

End PyMore.

(* ===================================================================== *)
(** ** The rest of [MoveParser] and its caller in [main.py] *)
(* ===================================================================== *)

Module Caller.

Import Py.
Import PyMore.
Import Chess.
Import Interp.

(** The loop of [get_move_suggestions]: one entry [f"{san} ({uci})"] for
    each legal move. *)
Fixpoint suggestion_entries (moves : list Move) : M (list str) :=
  match moves with
  | [] => ret []
  | move :: rest =>
      san <- _algebraic move ;;
      uci <- lift (uci move) ;;
      entries <- suggestion_entries rest ;;
      ret ((san ++ utf8 " (" ++ uci ++ utf8 ")") :: entries)
  end.

(** [MoveParser.get_move_suggestions]; the text typed so far is not used. *)
Definition get_move_suggestions (partial_text : str) : M (list str) :=
  moves <- query (fun b => Ok (legal_moves b)) ;;
  legal_moves <- suggestion_entries moves ;;
  ret (sorted legal_moves).

(** [MoveParser.validate_and_format_move]. *)
Definition validate_and_format_move (move : Move) : M str :=
  _algebraic move.

(** What one round of the loop of [ChessBot.get_player_move] does with the
    line it read: a command is carried out and the loop goes on, [resign]
    returns [None], [quit] leaves the program, any other line goes to the
    parser, and its move is returned when it is truthy and in
    [board.legal_moves]; otherwise the error is printed and the loop goes
    on. *)
Inductive Round :=
  | ShowHelp | ShowLegalMoves | ToggleHints | ShowFen | ShowAnalysis
  | SaveBoard | SaveGame
  | Resign
  | Quit
  | Return (move : Move)
  | InvalidMove.

Definition commands : list (list string * Round) :=
  [(["help"; "довідка"; "допомога"], ShowHelp);
   (["moves"; "ходи"], ShowLegalMoves);
   (["hints"; "підказки"; "підказка"], ToggleHints);
   (["fen"], ShowFen);
   (["analyze"; "аналіз"; "аналізувати"], ShowAnalysis);
   (["save"; "зберегти"; "зберегти позицію"], SaveBoard);
   (["savegame"; "партія"; "зберегти партію"; "зберегти гру"], SaveGame);
   (["resign"; "здатися"; "здаюсь"], Resign);
   (["quit"; "exit"; "вийти"; "вихід"], Quit)]%string.

(** The chain of [if move_text.lower() in [...]] tests. *)
Fixpoint command_of (table : list (list string * Round)) (lowered : str)
    : option Round :=
  match table with
  | [] => None
  | (words, round) :: rest =>
      if mem lowered (map utf8 words) then Some round
      else command_of rest lowered
  end.

Section WithConfig.

Variable piece_names : list (str * str).

Definition get_player_move_round (line : str) : M Round :=
  let move_text := strip line in
  match command_of commands (lower move_text) with
  | Some round => ret round
  | None =>
      move <- parse_move piece_names move_text ;;
      match move with
      | Some m =>
          if move_bool m then
            legal <- query (fun b => Ok (is_legal b m)) ;;
            if legal then ret (Return m) else ret InvalidMove
          else ret InvalidMove
      | None => ret InvalidMove
      end
  end.

End WithConfig.

End Caller.

(* ===================================================================== *)
(** ** The end of the game: [check_game_over] and the headers of [save_game] *)
(* ===================================================================== *)

Module Game.

Import Py.
Import Chess.

(** What the two methods ask of [self.board]. *)
Record Status := {
  is_checkmate : bool;
  is_stalemate : bool;
  is_insufficient_material : bool;
  can_claim_fifty_moves : bool;
  can_claim_threefold_repetition : bool;
  side_to_move : Color        (* [board.turn] *)
}.

(** What [check_game_over] prints before it returns [True]. *)
Inductive Announcement :=
  | Mate (winner : str)
  | Stalemate
  | InsufficientMaterial
  | FiftyMoves
  | ThreefoldRepetition.

(** [ChessBot.check_game_over]: the value returned and the announcement. *)
Definition check_game_over (player_color : Color) (board : Status)
    : bool * option Announcement :=
  if is_checkmate board then
    let winner := if negb (color_eqb (side_to_move board) player_color)
                  then utf8 "Ви" else utf8 "Бот" in
    (true, Some (Mate winner))
  else if is_stalemate board then (true, Some Stalemate)
  else if is_insufficient_material board then (true, Some InsufficientMaterial)
  else if can_claim_fifty_moves board then (true, Some FiftyMoves)
  else if can_claim_threefold_repetition board then (true, Some ThreefoldRepetition)
  else (false, None).

(** The headers [save_game] sets from the player's colour, the name of the
    level and the board (lines 226 to 243); the date, the moves and the
    file are left out. *)
Record Headers := {
  White : str;
  Black : str;
  BlackElo : str;
  WhiteElo : str;
  Result : str
}.

Definition save_game_headers (player_color : Color) (difficulty_name : str)
    (board : Status) : Headers :=
  let bot := utf8 "Bot (" ++ difficulty_name ++ utf8 ")" in
  let result :=
    if is_checkmate board then
      (if color_eqb (side_to_move board) Chess.Black then utf8 "1-0" else utf8 "0-1")
    else if is_stalemate board || is_insufficient_material board
            || can_claim_fifty_moves board || can_claim_threefold_repetition board
    then utf8 "1/2-1/2"
    else utf8 "*" in
  {| White := if color_eqb player_color Chess.White then utf8 "Гравець" else utf8 "Chess Bot";
     Black := if color_eqb player_color Chess.White then utf8 "Chess Bot" else utf8 "Гравець";
     BlackElo := if color_eqb player_color Chess.White then bot else utf8 "?";
     WhiteElo := if color_eqb player_color Chess.White then utf8 "?" else bot;
     Result := result |}.

End Game.

(* ===================================================================== *)
(** ** [board_visualizer.py]: the table of the board and the descriptions *)
(* ===================================================================== *)

Module Visualizer.

Import Py.
Import PyMore.
Import Chess.

(** [str.split()]: the words between runs of white space. *)
Fixpoint words_go (word : str) (s : str) : list str :=
  match s with
  | [] => match word with [] => [] | _ :: _ => [rev word] end
  | c :: s' =>
      if isspace c
      then match word with
           | [] => words_go [] s'
           | _ :: _ => rev word :: words_go [] s'
           end
      else words_go (c :: word) s'
  end.

Definition words (s : str) : list str := words_go [] s.

(** A cell handed to [table.add_row]: a string of markup, or a
    [Text(text, style=style)]. *)
Inductive Renderable :=
  | Markup (s : str)
  | Text (text style : str).

(** [Piece.symbol()]: the letter of the piece, upper case for White. *)
Definition symbol (p : Piece) : str :=
  match color p with
  | White => upper (piece_symbol (piece_type p))
  | Black => piece_symbol (piece_type p)
  end.

(** [d.get(key, default)] on the items of a dictionary. *)
Fixpoint dict_get (d : list (str * str)) (key default : str) : str :=
  match d with
  | [] => default
  | (k, v) :: rest => if Py.eqb k key then v else dict_get rest key default
  end.

Section Display.

(** [config.PIECE_SYMBOLS]; [config.py] is not part of the sources. *)
Variable PIECE_SYMBOLS : list (str * str).

Variable board : Board.
Variable last_move : option Move.

(** The body of the inner loop of [display]: the cell of a square. *)
Definition cell (rank file : nat) : Renderable :=
  let square := Chess.square file rank in
  let piece := piece_at board square in
  let is_highlighted :=
    match last_move with
    | Some m => move_bool m
                && ((square =? from_square m) || (square =? to_square m))
    | None => false
    end in
  let is_light := (rank + file) mod 2 =? 1 in
  let '(bg_color, piece_color) :=
    if is_highlighted then (utf8 "on green", utf8 "black")
    else if is_light then (utf8 "on white", utf8 "black")
    else (utf8 "on #8B7355", utf8 "white") in
  match piece with
  | Some p =>
      let piece_symbol := dict_get PIECE_SYMBOLS (symbol p) (symbol p) in
      match color p with
      | White => Text (utf8 " " ++ piece_symbol ++ utf8 " ")
                      (utf8 "bold " ++ piece_color ++ utf8 " " ++ bg_color)
      | Black => Text (utf8 " " ++ piece_symbol ++ utf8 " ")
                      (piece_color ++ utf8 " " ++ bg_color)
      end
  | None => Text (utf8 "   ") bg_color
  end.

(** The rows [display] adds to its table, from the top. *)
Definition display (player_color : Color) : list (list Renderable) :=
  let '(ranks, files, file_labels) :=
    match player_color with
    | White => ([7; 6; 5; 4; 3; 2; 1; 0], seq 0 8, utf8 "a b c d e f g h")
    | Black => (seq 0 8, [7; 6; 5; 4; 3; 2; 1; 0], utf8 "h g f e d c b a")
    end in
  let labels := Markup [] :: map Markup (words file_labels) ++ [Markup []] in
  let row (rank : nat) :=
    let number := Markup (utf8 "[bold cyan]" ++ str_of_int (Z.of_nat (rank + 1))
                          ++ utf8 "[/bold cyan]") in
    number :: map (cell rank) files ++ [number] in
  labels :: map row ranks ++ [labels].

End Display.

(** [_get_piece_type_name(piece_type, case)]. *)
Definition _get_piece_type_name (piece_type : PieceType) (case : str) : str :=
  if Py.eqb case (utf8 "genitive") then
    match piece_type with
    | Pawn => utf8 "Пішака" | Knight => utf8 "Коня" | Bishop => utf8 "Слона"
    | Rook => utf8 "Туру" | Queen => utf8 "Ферзя" | King => utf8 "Короля"
    end
  else
    match piece_type with
    | Pawn => utf8 "Пішак" | Knight => utf8 "Кінь" | Bishop => utf8 "Слон"
    | Rook => utf8 "Тура" | Queen => utf8 "Ферзь" | King => utf8 "Король"
    end.

Section Score.

(** The evaluation is a [float]; its comparisons with the thresholds of
    [_explain_score], given in tenths of a pawn, and its format
    [f"{score:+.1f}"] are taken as they are. *)
Variable Float : Type.
Variable ge_tenths : Float -> Z -> bool.
Variable format_signed : Float -> str.

(** [_explain_score(score, mate)]: the number, the explanation, the colour. *)
Definition _explain_score (score : option Float) (mate : option Z) : str * str * str :=
  match mate with
  | Some mate =>
      if (0 <? mate)%Z then
        (utf8 "М" ++ str_of_int mate,
         utf8 "мат через " ++ str_of_int mate ++ utf8 " ход"
           ++ (if (1 <? mate)%Z then utf8 "ів" else []),
         utf8 "red bold")
      else
        (utf8 "М" ++ str_of_int (Z.abs mate),
         utf8 "мат через " ++ str_of_int (Z.abs mate) ++ utf8 " ход"
           ++ (if (1 <? Z.abs mate)%Z then utf8 "ів" else []),
         utf8 "red bold")
  | None =>
      match score with
      | None => (utf8 "?", utf8 "невідомо", utf8 "dim")
      | Some score =>
          let score_str := format_signed score in
          if ge_tenths score 30 then (score_str, utf8 "велика перевага", utf8 "green bold")
          else if ge_tenths score 10 then (score_str, utf8 "перевага", utf8 "green")
          else if ge_tenths score 3 then (score_str, utf8 "невелика перевага", utf8 "cyan")
          else if ge_tenths score (-3) then (score_str, utf8 "рівна позиція", utf8 "white")
          else if ge_tenths score (-10)
               then (score_str, utf8 "невелике відставання", utf8 "yellow")
          else if ge_tenths score (-30) then (score_str, utf8 "відставання", utf8 "red")
          else (score_str, utf8 "велике відставання", utf8 "red bold")
      end
  end.

End Score.

(** What a call ends with: a value, or an exception that leaves the
    method. *)
Inductive PyError :=
  | Library (e : Error)
  | UnboundLocalError.

Inductive Ended (A : Type) :=
  | Returned (a : A)
  | Raised (e : PyError).
Arguments Returned {A} a.
Arguments Raised {A} e.

Section Descriptions.

(** [Board.is_capture(move)], one more query of the collaborator. *)
Variable is_capture : Board -> Move -> bool.

(** The body of the [try] of [_format_move_with_description]. *)
Definition format_move_body (b : Board) (move_san : str) : Exc str :=
  match parse_san b move_san with
  | Raise e => Raise e
  | Ok move =>
      match square_name (from_square move) with
      | Raise e => Raise e
      | Ok from_square =>
          match square_name (to_square move) with
          | Raise e => Raise e
          | Ok to_square =>
              match piece_at b (Chess.from_square move) with
              | None => Ok move_san
              | Some piece =>
                  let piece_name := lower (_get_piece_type_name (piece_type piece) (utf8 "nominative")) in
                  if Py.eqb move_san (utf8 "O-O")
                  then Ok (move_san ++ utf8 " (коротка рокіровка)")
                  else if Py.eqb move_san (utf8 "O-O-O")
                  then Ok (move_san ++ utf8 " (довга рокіровка)")
                  else if is_capture b move then
                    match piece_at b (Chess.to_square move) with
                    | Some captured_piece =>
                        let captured_name :=
                          lower (_get_piece_type_name (piece_type captured_piece)
                                                      (utf8 "genitive")) in
                        Ok (move_san ++ utf8 " (" ++ piece_name ++ utf8 " б'є "
                            ++ captured_name ++ utf8 " на " ++ to_square ++ utf8 ")")
                    | None =>
                        Ok (move_san ++ utf8 " (" ++ piece_name ++ utf8 " б'є на "
                            ++ to_square ++ utf8 ")")
                    end
                  else Ok (move_san ++ utf8 " (" ++ piece_name ++ utf8 " на "
                           ++ to_square ++ utf8 ")")
              end
          end
      end
  end.

(** [_format_move_with_description]: [except Exception: return move_san]. *)
Definition _format_move_with_description (b : Board) (move_san : str) : str :=
  match format_move_body b move_san with
  | Ok text => text
  | Raise _ => move_san
  end.

(** The body of the [try] of [get_move_ukrainian_description], after
    [move_san] is bound. *)
Definition description_body (b : Board) (move : Move) (move_san : str) : Exc str :=
  match piece_at b (from_square move) with
  | None => Ok move_san
  | Some piece =>
      match square_name (to_square move) with
      | Raise e => Raise e
      | Ok to_square =>
          let piece_name := _get_piece_type_name (piece_type piece) (utf8 "nominative") in
          if Py.eqb move_san (utf8 "O-O") then Ok (utf8 "Коротка рокіровка")
          else if Py.eqb move_san (utf8 "O-O-O") then Ok (utf8 "Довга рокіровка")
          else
            let description :=
              if is_capture b move then
                match piece_at b (Chess.to_square move) with
                | Some captured_piece =>
                    piece_name ++ utf8 " б'є "
                    ++ _get_piece_type_name (piece_type captured_piece) (utf8 "genitive")
                    ++ utf8 " на " ++ to_square
                | None => piece_name ++ utf8 " б'є на " ++ to_square
                end
              else piece_name ++ utf8 " на " ++ to_square in
            if contains (utf8 "#") move_san then Ok (description ++ utf8 ", мат!")
            else if contains (utf8 "+") move_san then Ok (description ++ utf8 ", шах!")
            else Ok description
      end
  end.

(** [get_move_ukrainian_description]: [move_san = board.san(move)] is the
    first statement of the [try], and the handler is [return move_san]:
    when [board.san] raises, the handler reads a name that is not bound. *)
Definition get_move_ukrainian_description (b : Board) (move : Move) : Ended str :=
  match san b move with
  | Raise _ => Raised UnboundLocalError
  | Ok move_san =>
      match description_body b move move_san with
      | Ok text => Returned text
      | Raise _ => Returned move_san
      end
  end.

End Descriptions.

End Visualizer.

(* ===================================================================== *)
(** ** Further example data *)
(* ===================================================================== *)

Module MorePositions.

Import Py.
Import Chess.

(** The queries of a board on which Black, to move, is mated. *)
Definition black_is_mated : Game.Status :=
  {| Game.is_checkmate := true;
     Game.is_stalemate := false;
     Game.is_insufficient_material := false;
     Game.can_claim_fifty_moves := false;
     Game.can_claim_threefold_repetition := false;
     Game.side_to_move := Black |}.

(** [Board.is_capture] for the example positions, where no capture is en
    passant: the move touches a piece of the side not to move. *)
Definition touches_opponent (b : Board) (m : Move) : bool :=
  has_piece b (fun p => negb (color_eqb (color p) (turn b))) (from_square m)
  || has_piece b (fun p => negb (color_eqb (color p) (turn b))) (to_square m).

End MorePositions.

(* ===================================================================== *)
(** ** Words for the further properties *)
(* ===================================================================== *)

Module MoreSpec.

Import Py.
Import Chess.
Import Spec.

(** A name that holds one of the sixteen letters the transliteration
    replaces. *)
Definition has_translit_letter (name : str) : bool :=
  existsb (fun c => existsb (N.eqb c) (map fst translit_table)) name.

(** The entries of a table of piece names without such a letter. *)
Definition usable_names (names : list (str * str)) : list (str * str) :=
  filter (fun kv => negb (has_translit_letter (fst kv))) names.

(** A long-algebraic text with a hyphen after the origin square. *)
Definition dashed (u : str) : str := firstn 2 u ++ 45%N :: skipn 2 u.

(** What the parsers make of the dashed text of a move; checked below for
    the 64 x 64 x 7 texts. *)
Definition dash_check (f t : Square) (p : option PieceType) : bool :=
  let u := Texts.coord f t p in
  negb (existsb (N.eqb 45) u)
  && forallb Texts.plain (dashed u)
  && (Texts.is_pawn_promotion p || Texts.reads_as_coordinates f t p (dashed u)).

(** The texts that name the origin and the destination of a move in
    words: [e2 e4], [e2 на e4], [з e2 на e4]. *)
Definition origin_words : list str := [[]; utf8 "з "].
Definition target_words : list str := [utf8 " "; utf8 " на "].

Definition in_words (pre : str) (f : Square) (sep : str) (t : Square) : str :=
  pre ++ nth f SQUARE_NAMES [] ++ sep ++ nth t SQUARE_NAMES [].

(** What the strategies make of such a text; checked below for the
    64 x 64 pairs of squares and the four wordings. *)
Definition in_words_check (f t : Square) (pre sep : str) : bool :=
  let text := Interp._convert_cyrillic_to_latin (strip (in_words pre f sep t)) in
  Texts.raises_on_syntax text && Texts.raises_on_syntax (capitalize text)
  && Texts.raises_on_syntax (upper text)
  && match from_uci (lower text) with Ok _ => false | Raise _ => true end
  && match findall_squares (Interp.remove_fillers (lower text)) with
     | [a; b] => Py.eqb (a ++ b) (Texts.coord f t None)
     | _ => false
     end.

(** The words [get_move_ukrainian_description] puts after the description
    of a move whose SAN text has a mate or a check sign. *)
Definition check_mark (move_san : str) : str :=
  if contains (utf8 "#") move_san then utf8 ", мат!"
  else if contains (utf8 "+") move_san then utf8 ", шах!"
  else [].

End MoreSpec.

(* ===================================================================== *)
(** * Facts about the string functions *)
(* ===================================================================== *)

Import Py.
Import Chess.
Import Interp.
Import Invariants.
Import Spec.
Import Runs.
Import Texts.
Import PyMore.
Import Caller.
Import MoreSpec.

Lemma eqb_eq (s t : str) : Py.eqb s t = true <-> s = t.
Proof.
  revert t; induction s as [|c s IH]; intros [|d t]; simpl; split;
    try congruence; try reflexivity.
  - intros H. apply andb_true_iff in H as [Hc Hs].
    apply N.eqb_eq in Hc. apply IH in Hs. now subst.
  - intros H. injection H as -> ->.
    apply andb_true_iff; split; [apply N.eqb_refl | now apply IH].
Qed.

Lemma eqb_refl (s : str) : Py.eqb s s = true.
Proof. now apply eqb_eq. Qed.

Lemma mem_In (s : str) (l : list str) : mem s l = true <-> In s l.
Proof.
  unfold mem. rewrite existsb_exists. split.
  - intros (x & Hx & He). apply eqb_eq in He. now subst.
  - intros H. exists s. split; [assumption | apply eqb_refl].
Qed.

(** Replacing one character by one character is a map. *)
Lemma replace_char (a b : N) (s : str) :
  replace [a] [b] s = map (fun c => if (c =? a)%N then b else c) s.
Proof.
  unfold replace. induction s as [|c s IH]; simpl; [reflexivity|].
  rewrite (N.eqb_sym a c). destruct (c =? a)%N; simpl; now rewrite IH.
Qed.

(** Substitutions applied one after the other, as the loop of
    [_convert_cyrillic_to_latin] does, against one look-up in the table. *)
Lemma fold_replace_chars (table : list (N * N)) (s : str) :
  fold_left (fun result kv => replace (fst kv) (snd kv) result)
            (map (fun kv : N * N => ([fst kv], [snd kv])) table) s
  = map (fun c => fold_left (fun x kv => if (x =? fst kv)%N then snd kv else x) table c) s.
Proof.
  revert s; induction table as [|[k v] table IH]; intros s; cbn [fold_left map fst snd].
  - now rewrite map_id.
  - rewrite IH, replace_char, map_map. reflexivity.
Qed.

Lemma fold_subst_fixed (table : list (N * N)) (c : N) :
  existsb (N.eqb c) (map fst table) = false ->
  fold_left (fun x kv => if (x =? fst kv)%N then snd kv else x) table c = c.
Proof.
  induction table as [|[k v] table IH]; simpl; [reflexivity|].
  intros H. apply orb_false_iff in H as [Hk Hrest]. rewrite Hk. now apply IH.
Qed.

Lemma fold_subst_assoc (table : list (N * N)) (c : N) :
  forallb (fun kv => negb (existsb (N.eqb (snd kv)) (map fst table))) table = true ->
  fold_left (fun x kv => if (x =? fst kv)%N then snd kv else x) table c = assoc table c.
Proof.
  induction table as [|[k v] table IH]; simpl; [reflexivity|].
  intros H. apply andb_true_iff in H as [Hv Hrest].
  apply negb_true_iff, orb_false_iff in Hv as [_ Hv].
  destruct (c =? k)%N.
  - now apply fold_subst_fixed.
  - apply IH. rewrite forallb_forall in *. intros kv Hin.
    specialize (Hrest kv Hin). apply negb_true_iff, orb_false_iff in Hrest as [_ Hrest].
    now apply negb_true_iff.
Qed.

Lemma convert_is_transliterate (text : str) :
  _convert_cyrillic_to_latin text = transliterate text.
Proof.
  unfold _convert_cyrillic_to_latin, transliterate.
  change cyrillic_to_latin with
    (map (fun kv : N * N => ([fst kv], [snd kv])) translit_table).
  rewrite fold_replace_chars. apply map_ext. intros c.
  now apply fold_subst_assoc.
Qed.

(** A look-up leaves the character or yields an entry of the table. *)
Lemma assoc_cases (table : list (N * N)) (c : N) :
  (assoc table c = c /\ existsb (N.eqb c) (map fst table) = false)
  \/ In (c, assoc table c) table.
Proof.
  induction table as [|[k v] table IH]; simpl; [now left|].
  destruct (N.eqb_spec c k) as [->|Hne].
  - right. now left.
  - destruct IH as [[H1 H2]|H]; [left; now split | right; now right].
Qed.

Lemma translit_cases (c : N) (P : N -> N -> Prop) :
  (existsb (N.eqb c) (map fst translit_table) = false -> P c c) ->
  Forall (fun kv => P (fst kv) (snd kv)) translit_table ->
  P c (translit_cp c).
Proof.
  intros Hsame Htable. unfold translit_cp.
  destruct (assoc_cases translit_table c) as [[-> Hk]|Hin]; [now apply Hsame|].
  rewrite Forall_forall in Htable. exact (Htable _ Hin).
Qed.

Lemma translit_idempotent (c : N) : translit_cp (translit_cp c) = translit_cp c.
Proof.
  apply (translit_cases c (fun _ v => translit_cp v = v)).
  - intros H. unfold translit_cp.
    destruct (assoc_cases translit_table c) as [[E _]|Hin]; [exact E|].
    exfalso. apply (in_map fst) in Hin. simpl in Hin.
    assert (existsb (N.eqb c) (map fst translit_table) = true)
      by (apply existsb_exists; exists c; split; [exact Hin | apply N.eqb_refl]).
    congruence.
  - repeat constructor.
Qed.

Lemma translit_isspace (c : N) : isspace (translit_cp c) = isspace c.
Proof.
  apply (translit_cases c (fun k v => isspace v = isspace k)).
  - reflexivity.
  - repeat constructor.
Qed.

(** [strip] commutes with a substitution that keeps white space white
    space and everything else something else. *)
Lemma lstrip_map (f : N -> N) (s : str) :
  (forall c, isspace (f c) = isspace c) ->
  lstrip (map f s) = map f (lstrip s).
Proof.
  intros Hf. induction s as [|c s IH]; simpl; [reflexivity|].
  rewrite Hf. destruct (isspace c); [exact IH | reflexivity].
Qed.

Lemma strip_map (f : N -> N) (s : str) :
  (forall c, isspace (f c) = isspace c) ->
  strip (map f s) = map f (strip s).
Proof.
  intros Hf. unfold strip, rstrip.
  rewrite (lstrip_map f s Hf), <- map_rev, (lstrip_map f _ Hf), map_rev.
  reflexivity.
Qed.

(* ===================================================================== *)
(** * Reasoning about runs *)
(* ===================================================================== *)

(** A computation that ends with [a], the board untouched, nothing printed,
    can be replaced by its value. *)
Lemma bind_ret_run {A B : Type} (c : M A) (k : A -> M B) (b : Board) (a : A) :
  c b = ret a b -> bind c k b = k a b.
Proof.
  intros H. unfold bind. rewrite H. simpl. destruct (k a b); reflexivity.
Qed.

Lemma try_ret_run {A : Type} (body handler : M A) (b : Board) (a : A) :
  body b = ret a b -> try_except body handler b = ret a b.
Proof. intros H. unfold try_except. rewrite H. reflexivity. Qed.

Lemma keeps_ret {A : Type} (a : A) : keeps_board (ret a).
Proof. intros b. reflexivity. Qed.

Lemma keeps_query {A : Type} (f : Board -> Exc A) : keeps_board (query f).
Proof. intros b. reflexivity. Qed.

Lemma keeps_lift {A : Type} (x : Exc A) : keeps_board (lift x).
Proof. intros b. reflexivity. Qed.

Lemma keeps_print (l : Line) : keeps_board (print l).
Proof. intros b. reflexivity. Qed.

Lemma keeps_bind {A B : Type} (c : M A) (k : A -> M B) :
  keeps_board c -> (forall a, keeps_board (k a)) -> keeps_board (bind c k).
Proof.
  intros Hc Hk b. unfold bind. specialize (Hc b).
  destruct (result (c b)); simpl; [|exact Hc].
  rewrite Hc. apply Hk.
Qed.

Lemma keeps_try {A : Type} (body handler : M A) :
  keeps_board body -> keeps_board handler -> keeps_board (try_except body handler).
Proof.
  intros Hb Hh b. unfold try_except. specialize (Hb b).
  destruct (result (body b)); simpl; [exact Hb|].
  rewrite Hb. apply Hh.
Qed.

Lemma keeps_if {A : Type} (t : bool) (c d : M A) :
  keeps_board c -> keeps_board d -> keeps_board (if t then c else d).
Proof. now destruct t. Qed.

(** [pop] undoes [push]: the move pushed last comes back, and the board
    is the one before the push. *)
Lemma pop_push (b : Board) (move : Move) :
  Chess.pop (Chess.push b move) = Ok (move, b).
Proof.
  unfold Chess.pop, Chess.push. cbn [move_stack positions].
  rewrite rev_app_distr. cbn [rev app]. rewrite rev_involutive. now destruct b.
Qed.

(** A push alone changes the board: the frame property is not one every
    computation has. *)
Lemma push_changes_board (move : Move) (b : Board) :
  board_after (push move b) <> b.
Proof.
  unfold push. cbn [board_after]. intros H.
  apply (f_equal (fun x => length (move_stack x))) in H.
  unfold Chess.push in H. cbn [move_stack] in H. rewrite length_app in H.
  simpl in H. lia.
Qed.

(** [board.san(move)] returns the text and leaves the board as it was:
    the move it pushes, it pops. *)
Lemma algebraic_run (move : Move) (b : Board) :
  _algebraic move b = query (fun b => san b move) b.
Proof.
  unfold _algebraic, bind, query, push, pop. cbn [result board_after printed].
  destruct (san b move) as [text|e]; [|reflexivity].
  cbn [result board_after printed]. rewrite pop_push. reflexivity.
Qed.

Lemma algebraic_ret (move : Move) (b : Board) (text : str) :
  san b move = Ok text -> _algebraic move b = ret text b.
Proof. intros E. rewrite algebraic_run. unfold query. now rewrite E. Qed.

Lemma bind_algebraic {B : Type} (move : Move) (k : str -> M B) (b : Board) :
  bind (_algebraic move) k b = bind (query (fun b => san b move)) k b.
Proof. unfold bind. now rewrite algebraic_run. Qed.

Lemma keeps_algebraic (move : Move) : keeps_board (_algebraic move).
Proof. intros b. now rewrite algebraic_run. Qed.

Create HintDb frame.
#[export] Hint Resolve keeps_ret keeps_query keeps_lift keeps_print
  keeps_bind keeps_try keeps_if keeps_algebraic : frame.

Ltac frame := repeat (intros; lazymatch goal with
  | |- keeps_board (ret _) => apply keeps_ret
  | |- keeps_board (query _) => apply keeps_query
  | |- keeps_board (_algebraic _) => apply keeps_algebraic
  | |- keeps_board (lift _) => apply keeps_lift
  | |- keeps_board (print _) => apply keeps_print
  | |- keeps_board (bind _ _) => apply keeps_bind
  | |- keeps_board (try_except _ _) => apply keeps_try
  | |- keeps_board (match ?x with _ => _ end) => first [apply keeps_if | destruct x]
  | |- keeps_board _ => solve [auto with frame]
  end).

Lemma keeps_castling_loop (names : list (str * str)) (text : str) :
  keeps_board (castling_loop names text).
Proof. induction names as [|[uk san] names IH]; simpl; frame. Qed.

Lemma keeps_standard_loop (variants : list str) :
  keeps_board (standard_loop variants).
Proof. induction variants as [|v variants IH]; simpl; frame. Qed.

Lemma keeps_legal_from_uci (text : str) : keeps_board (legal_from_uci text).
Proof. unfold legal_from_uci; frame. Qed.

Lemma keeps_castling (text : str) : keeps_board (_try_castling_ukrainian text).
Proof. apply keeps_castling_loop. Qed.

Lemma keeps_standard (text : str) : keeps_board (_try_standard_notation text).
Proof. apply keeps_standard_loop. Qed.

Lemma keeps_uci (text : str) : keeps_board (_try_uci_notation text).
Proof. apply keeps_legal_from_uci. Qed.

Lemma keeps_collect_moves (pt : PieceType) (to : Square) (moves : list Move) :
  keeps_board (collect_moves pt to moves).
Proof. induction moves as [|m moves IH]; simpl; frame. Qed.

Lemma keeps_print_candidates (moves : list Move) :
  keeps_board (print_candidates moves).
Proof. induction moves as [|m moves IH]; simpl; frame. Qed.

#[export] Hint Resolve keeps_castling_loop keeps_standard_loop keeps_legal_from_uci
  keeps_castling keeps_standard keeps_uci
  keeps_collect_moves keeps_print_candidates : frame.

Lemma keeps_find_move (symbol name : str) :
  keeps_board (_find_move_by_piece_and_target symbol name).
Proof. unfold _find_move_by_piece_and_target; frame. Qed.

Lemma keeps_dash (text : str) : keeps_board (_try_dash_notation text).
Proof. unfold _try_dash_notation; frame. Qed.

#[export] Hint Resolve keeps_find_move keeps_dash : frame.

Lemma keeps_human (names : list (str * str)) (text : str) :
  keeps_board (_try_human_language names text).
Proof.
  unfold _try_human_language. destruct (find_piece_name names text). frame.
Qed.

#[export] Hint Resolve keeps_human : frame.

(* ===================================================================== *)
(** * C9: resolution does not change the position *)
(* ===================================================================== *)

(** C9.  Whatever the token and whatever the outcome, the board a
    resolution leaves is the board it was given, in the same position and
    with the same moves on its stack.  The interpreter calls one method that
    moves the board, [board.san], in the ambiguity report; that method pops
    the move it has pushed ([pop_push]).  A push that is not popped changes
    the board ([push_changes_board]); applying the returned move is left to
    the caller. *)
Theorem parse_move_keeps_board (names : list (str * str)) (token : str) (b : Board) :
  board_after (parse_move names token b) = b.
Proof.
  revert b. change (keeps_board (parse_move names token)).
  unfold parse_move. frame.
Qed.

(* ===================================================================== *)
(** * C5: transliteration *)
(* ===================================================================== *)

Lemma convert_strip_transliterate (token : str) :
  _convert_cyrillic_to_latin (strip (transliterate token))
  = _convert_cyrillic_to_latin (strip token).
Proof.
  rewrite !convert_is_transliterate. unfold transliterate.
  rewrite (strip_map translit_cp token translit_isspace), map_map.
  apply map_ext. intros c. apply translit_idempotent.
Qed.

(** The sentence of the specification: the token written with the Cyrillic
    letter that resembles [e] resolves as [e4] does. *)
Example cyrillic_e4 (names : list (str * str)) (b : Board) :
  parse_move names (utf8 "е4") b = parse_move names (utf8 "e4") b.
Proof. unfold parse_move. now rewrite <- convert_strip_transliterate. Qed.

(** C5.  Resolving a token and resolving the token in which every one of
    the sixteen alternate-script letters is replaced by its file letter
    (lower case by lower case, upper case by upper case) are the same run;
    the replacement the interpreter performs before its first strategy is
    that substitution. *)
Theorem parse_move_transliterated (names : list (str * str)) (token : str) (b : Board) :
  parse_move names (transliterate token) b = parse_move names token b
  /\ _convert_cyrillic_to_latin token = transliterate token.
Proof.
  split; [|apply convert_is_transliterate].
  unfold parse_move. rewrite convert_strip_transliterate. reflexivity.
Qed.

(* ===================================================================== *)
(** * A small program logic for runs *)
(* ===================================================================== *)

Section Logic.

Context {A B : Type}.
Variable b : Board.

Lemma sat_ret (a : A) (Q : A -> Prop) : Q a -> sat b (ret a) Q.
Proof. intros H. split; [reflexivity|]. simpl. intros a' E. now injection E as <-. Qed.

Lemma sat_query (f : Board -> Exc A) (Q : A -> Prop) :
  (forall a, f b = Ok a -> Q a) -> sat b (query f) Q.
Proof. intros H. split; [reflexivity | exact H]. Qed.

Lemma sat_bind (c : M A) (k : A -> M B) (P : A -> Prop) (Q : B -> Prop) :
  sat b c P -> (forall a, P a -> sat b (k a) Q) -> sat b (bind c k) Q.
Proof.
  intros [Hb Hc] Hk. unfold sat, bind.
  destruct (result (c b)) as [a|e]; simpl.
  - rewrite Hb. exact (Hk a (Hc a eq_refl)).
  - split; [exact Hb | discriminate].
Qed.

Lemma sat_try (body handler : M A) (Q : A -> Prop) :
  sat b body Q -> sat b handler Q -> sat b (try_except body handler) Q.
Proof.
  intros [Hb Hc] Hh. unfold sat, try_except.
  destruct (result (body b)) as [a|e] eqn:E; simpl.
  - split; [exact Hb|]. rewrite E. intros a' Ea. apply Hc. exact Ea.
  - rewrite Hb. exact Hh.
Qed.

Lemma sat_weaken (c : M A) (P Q : A -> Prop) :
  sat b c P -> (forall a, P a -> Q a) -> sat b c Q.
Proof. intros [Hb Hc] H. split; [exact Hb | intros a E; apply H, Hc, E]. Qed.

Lemma sat_keeps (c : M A) : keeps_board c -> sat b c (fun _ => True).
Proof. intros H. split; [apply H | trivial]. Qed.

Lemma total_ret (a : A) (Q : A -> Prop) : Q a -> total b (ret a) Q.
Proof. intros H. split; [reflexivity|]. exists a. now split. Qed.

Lemma total_query (f : Board -> Exc A) (Q : A -> Prop) (a : A) :
  f b = Ok a -> Q a -> total b (query f) Q.
Proof. intros E H. split; [reflexivity|]. exists a. now split. Qed.

Lemma total_bind (c : M A) (k : A -> M B) (P : A -> Prop) (Q : B -> Prop) :
  total b c P -> (forall a, P a -> total b (k a) Q) -> total b (bind c k) Q.
Proof.
  intros [Hb (a & Ea & Pa)] Hk. unfold total, bind. rewrite Ea; simpl.
  rewrite Hb. exact (Hk a Pa).
Qed.

(** A bare [except] turns any body that keeps the board into a total
    computation. *)
Lemma total_try (body handler : M A) (Q : A -> Prop) :
  sat b body Q -> total b handler Q -> total b (try_except body handler) Q.
Proof.
  intros [Hb Hc] Hh. unfold total, try_except.
  destruct (result (body b)) as [a|e] eqn:E; simpl.
  - split; [exact Hb|]. exists a. rewrite E. split; [reflexivity | now apply Hc].
  - rewrite Hb. exact Hh.
Qed.

Lemma total_weaken (c : M A) (P Q : A -> Prop) :
  total b c P -> (forall a, P a -> Q a) -> total b c Q.
Proof. intros [Hb (a & E & Pa)] H. split; [exact Hb|]. exists a. split; auto. Qed.

Lemma total_sat (c : M A) (Q : A -> Prop) : total b c Q -> sat b c Q.
Proof.
  intros [Hb (a & E & Qa)]. split; [exact Hb|].
  intros a' E'. rewrite E in E'. now injection E' as <-.
Qed.

End Logic.

Lemma total_read {A : Type} (b : Board) (f : Board -> Exc A) (a : A) :
  f b = Ok a -> total b (query f) (fun x => x = a).
Proof. intros E. now apply total_query with (a := a). Qed.

Lemma total_san (b : Board) (move : Move) (text : str) :
  san b move = Ok text -> total b (_algebraic move) (fun x => x = text).
Proof.
  intros E. unfold total. rewrite algebraic_run.
  exact (total_read b (fun b => san b move) text E).
Qed.

Lemma sat_print (b : Board) (l : Line) (Q : unit -> Prop) : Q tt -> sat b (print l) Q.
Proof. intros H. split; [reflexivity|]. now intros []. Qed.

Lemma total_print (b : Board) (l : Line) (Q : unit -> Prop) : Q tt -> total b (print l) Q.
Proof. intros H. split; [reflexivity|]. exists tt. now split. Qed.

(* ===================================================================== *)
(** * What the algebraic parser returns *)
(* ===================================================================== *)

Lemma legal_sound_In (b : Board) (m : Move) :
  legal_sound b -> In m (legal_moves b) -> is_legal b m = true.
Proof. intros H Hin. unfold legal_sound in H. rewrite forallb_forall in H. now apply H. Qed.

Lemma match_legal_In (promo : option PieceType) (moves : list Move)
    (matched : option Move) (m : Move) :
  match_legal promo moves matched = Ok m -> In m moves \/ matched = Some m.
Proof.
  revert matched; induction moves as [|n moves IH]; intros matched; simpl.
  - destruct matched; intros E; [injection E as ->; now right | discriminate].
  - destruct (opt_piece_type_eqb (promotion n) promo).
    + destruct matched; [discriminate|]. intros E.
      destruct (IH _ E) as [H|H]; [left; now right | injection H as ->; left; now left].
    + intros E. destruct (IH _ E) as [H|H]; [left; now right | now right].
Qed.

Lemma generate_legal_moves_In (b : Board) (mask : Square -> bool) (to : Square) (m : Move) :
  In m (generate_legal_moves b mask to) ->
  In m (legal_moves b) /\ mask (from_square m) = true /\ to_square m = to.
Proof.
  unfold generate_legal_moves. rewrite filter_In. intros [Hin H].
  repeat (apply andb_true_iff in H as [H ?]).
  repeat split; try assumption. now apply Nat.eqb_eq.
Qed.

Lemma castling_find_In (b : Board) (test : Move -> bool) (m : Move) :
  find test (generate_castling_moves b) = Some m -> In m (legal_moves b).
Proof.
  intros H. apply find_some in H as [H _].
  unfold generate_castling_moves in H. now apply filter_In in H.
Qed.

Ltac break_match :=
  match goal with
  | H : context [match ?x with _ => _ end] |- _ =>
      let E := fresh "E" in destruct x eqn:E; try discriminate
  end.

(** The parser answers with the null move or with a move that passes the
    legality test of the board. *)
Lemma parse_san_legal (b : Board) (s : str) (m : Move) :
  legal_sound b -> parse_san b s = Ok m -> m = null \/ is_legal b m = true.
Proof.
  intros Hs H. unfold parse_san in H.
  assert (Hin : forall n, In n (legal_moves b) -> n = null \/ is_legal b n = true)
    by (intros n Hn; right; now apply legal_sound_In).
  assert (Hml : forall p mask to n, match_legal p (generate_legal_moves b mask to) None = Ok n ->
                                    n = null \/ is_legal b n = true).
  { intros p mask to n E. apply match_legal_In in E as [E|E]; [|discriminate].
    apply generate_legal_moves_In in E as [E _]. now apply Hin. }
  repeat break_match;
    try (injection H as <-);
    try (now left);
    try (apply Hin; eapply castling_find_In; eassumption);
    try (eapply Hml; eassumption).
  all: unfold find_move in *; repeat break_match;
    match goal with H : Ok _ = Ok _ |- _ => injection H as <- end; now right.
Qed.

(* ===================================================================== *)
(** * C10: a returned move is legal *)
(* ===================================================================== *)

Lemma legal_if_truthy_None (b : Board) : legal_if_truthy b None.
Proof. intros m E. discriminate. Qed.

Lemma legal_if_truthy_parsed (b : Board) (s : str) (m : Move) :
  legal_sound b -> parse_san b s = Ok m -> legal_if_truthy b (Some m).
Proof.
  intros Hs E n En Hn. injection En as <-.
  destruct (parse_san_legal b s m Hs E) as [->|H]; [discriminate | exact H].
Qed.

Section Legality.

Variable b : Board.
Hypothesis sound : legal_sound b.

Lemma sat_castling_loop (names : list (str * str)) (text : str) :
  sat b (castling_loop names text) (legal_if_truthy b).
Proof.
  induction names as [|[uk san] names IH]; simpl.
  - apply sat_ret, legal_if_truthy_None.
  - destruct (contains uk text); [|exact IH].
    eapply sat_bind with (P := fun r => match r with
                                       | Some _ => legal_if_truthy b r
                                       | None => True
                                       end).
    + apply sat_try; [|now apply sat_ret].
      eapply sat_bind; [apply sat_query; intros a E; exact E|].
      intros a E. apply sat_ret. simpl. exact (legal_if_truthy_parsed b _ a sound E).
    + intros [m|] H; [now apply sat_ret | exact IH].
Qed.

Lemma sat_standard_loop (variants : list str) :
  sat b (standard_loop variants) (legal_if_truthy b).
Proof.
  induction variants as [|v variants IH]; simpl.
  - apply sat_ret, legal_if_truthy_None.
  - eapply sat_bind with (P := fun r => match r with
                                       | Some _ => legal_if_truthy b r
                                       | None => True
                                       end).
    + apply sat_try; [|now apply sat_ret].
      eapply sat_bind; [apply sat_query; intros a E; exact E|].
      intros a E. destruct (move_bool a); apply sat_ret; [|exact I].
      simpl. exact (legal_if_truthy_parsed b _ a sound E).
    + intros [m|] H; [now apply sat_ret | exact IH].
Qed.

Lemma sat_legal_from_uci (text : str) :
  sat b (legal_from_uci text) (legal_if_truthy b).
Proof.
  unfold legal_from_uci. apply sat_try; [|apply sat_ret, legal_if_truthy_None].
  eapply sat_bind; [apply sat_keeps, keeps_lift|]. intros move _.
  eapply sat_bind; [apply sat_query; intros a E; exact E|].
  intros legal E. simpl in E. injection E as E.
  destruct legal; apply sat_ret; [|apply legal_if_truthy_None].
  intros m Em _. now injection Em as <-.
Qed.

Lemma sat_collect_moves (pt : PieceType) (to : Square) (moves : list Move) :
  sat b (collect_moves pt to moves) (fun found => incl found moves).
Proof.
  induction moves as [|m moves IH]; simpl.
  - apply sat_ret. apply incl_refl.
  - eapply sat_bind with (P := fun _ => True).
    + apply sat_keeps. frame.
    + intros keep _. eapply sat_bind; [exact IH|].
      intros others Hincl. apply sat_ret.
      destruct keep; [now apply incl_cons_cons_compat || (intros x [<-|Hx]; [now left | right; now apply Hincl]) | now apply incl_tl].
Qed.

Lemma sat_find_move (symbol name : str) :
  sat b (_find_move_by_piece_and_target symbol name) (legal_if_truthy b).
Proof.
  unfold _find_move_by_piece_and_target.
  destruct (piece_map_get (upper symbol)) as [pt|]; [|apply sat_ret, legal_if_truthy_None].
  eapply sat_bind; [apply sat_keeps; frame|]. intros [to|] _;
    [|apply sat_ret, legal_if_truthy_None].
  eapply sat_bind with (P := fun ms => ms = legal_moves b).
  { apply sat_query. intros a E. now injection E as <-. }
  intros moves ->.
  eapply sat_bind; [apply sat_collect_moves|]. intros found Hincl.
  destruct found as [|m [|m' rest]].
  - apply sat_ret, legal_if_truthy_None.
  - apply sat_ret. intros n E _. injection E as <-.
    apply legal_sound_In; [exact sound | apply Hincl; now left].
  - eapply sat_weaken with (P := fun r => r = None).
    + repeat (eapply sat_bind; [apply sat_keeps; frame | intros ? _]).
      now apply sat_ret.
    + intros r ->. apply legal_if_truthy_None.
Qed.

Lemma sat_dash (text : str) :
  sat b (_try_dash_notation text) (legal_if_truthy b).
Proof.
  unfold _try_dash_notation.
  destruct (contains (utf8 "-") text); [|apply sat_ret, legal_if_truthy_None].
  destruct (split 45 text) as [|p0 [|p1 [|p2 rest]]];
    try apply sat_ret, legal_if_truthy_None.
  apply sat_legal_from_uci.
Qed.

Lemma sat_human (names : list (str * str)) (text : str) :
  sat b (_try_human_language names text) (legal_if_truthy b).
Proof.
  unfold _try_human_language. destruct (find_piece_name names text) as [found rest].
  destruct (findall_squares (remove_fillers rest)) as [|s0 [|s1 [|s2 more]]];
    try apply sat_ret, legal_if_truthy_None.
  - apply sat_find_move.
  - apply sat_legal_from_uci.
Qed.

(** The driver: a strategy's truthy answer is returned, anything else
    leads to the next strategy. *)
Lemma sat_driver (c rest : M (option Move)) :
  sat b c (legal_if_truthy b) ->
  sat b rest (fun r => forall m, r = Some m -> is_legal b m = true) ->
  sat b (move <- c ;; if truthy move then ret move else rest)
      (fun r => forall m, r = Some m -> is_legal b m = true).
Proof.
  intros Hc Hrest. eapply sat_bind; [exact Hc|].
  intros [m|] H; simpl; [|exact Hrest].
  destruct (move_bool m) eqn:E; [|exact Hrest].
  apply sat_ret. intros n En. injection En as <-. now apply H.
Qed.

Lemma sat_parse_move (names : list (str * str)) (token : str) :
  sat b (parse_move names token) (fun r => forall m, r = Some m -> is_legal b m = true).
Proof.
  unfold parse_move.
  apply sat_driver; [apply sat_castling_loop |].
  apply sat_driver; [apply sat_standard_loop |].
  apply sat_driver; [apply sat_legal_from_uci |].
  apply sat_driver; [apply sat_human |].
  apply sat_driver; [apply sat_dash |].
  apply sat_ret. discriminate.
Qed.

End Legality.

(** C10.  On a board whose legal moves pass its own legality test, a move
    returned by a resolution passes that test: it is a member of
    [board.legal_moves], as [move in board.legal_moves] decides it. *)
Theorem parse_move_returns_legal (names : list (str * str)) (token : str)
    (b : Board) (m : Move) :
  legal_sound b ->
  outcome (parse_move names token b) = Some (Resolved m) ->
  is_legal b m = true.
Proof.
  intros Hs H. destruct (sat_parse_move b Hs names token) as [_ Hr].
  unfold outcome in H.
  destruct (result (parse_move names token b)) as [[n|]|e] eqn:E; try discriminate.
  - injection H as <-. now apply (Hr (Some n)).
  - destruct (printed (parse_move names token b)); discriminate.
Qed.

(* ===================================================================== *)
(** * C6: a resolution returns *)
(* ===================================================================== *)

Lemma square_name_defined (sq : Square) :
  sq < 64 -> exists name, square_name sq = Ok name.
Proof.
  intros H. unfold square_name.
  destruct (nth_error SQUARE_NAMES sq) as [name|] eqn:E; [now exists name|].
  apply nth_error_None in E. simpl in E. lia.
Qed.

Section Totality.

Variable b : Board.
Hypothesis sans : san_defined b.
Hypothesis on_board : legal_on_board b.

Lemma san_of_legal (m : Move) :
  In m (legal_moves b) -> exists text, san b m = Ok text.
Proof.
  intros Hin. unfold san_defined in sans. rewrite forallb_forall in sans.
  specialize (sans m Hin). destruct (san b m) as [text|]; [now exists text | discriminate].
Qed.

Lemma origin_name_of_legal (m : Move) :
  In m (legal_moves b) -> exists name, square_name (from_square m) = Ok name.
Proof.
  intros Hin. unfold legal_on_board in on_board. rewrite forallb_forall in on_board.
  specialize (on_board m Hin). apply andb_true_iff in on_board as [H _].
  apply Nat.ltb_lt in H. now apply square_name_defined.
Qed.

(** [try: ... except: pass] around a body that keeps the board. *)
Lemma total_guarded {A : Type} (body : M A) (a : A) :
  keeps_board body -> total b (try_except body (ret a)) (fun _ => True).
Proof.
  intros H. apply total_try; [now apply sat_keeps | now apply total_ret].
Qed.

Lemma total_castling_loop (names : list (str * str)) (text : str) :
  total b (castling_loop names text) (fun _ => True).
Proof.
  induction names as [|[uk san] names IH]; simpl; [now apply total_ret|].
  destruct (contains uk text); [|exact IH].
  eapply total_bind; [apply total_guarded; frame|].
  intros [m|] _; [now apply total_ret | exact IH].
Qed.

Lemma total_standard_loop (variants : list str) :
  total b (standard_loop variants) (fun _ => True).
Proof.
  induction variants as [|v variants IH]; simpl; [now apply total_ret|].
  eapply total_bind; [apply total_guarded; frame|].
  intros [m|] _; [now apply total_ret | exact IH].
Qed.

Lemma total_legal_from_uci (text : str) :
  total b (legal_from_uci text) (fun _ => True).
Proof. unfold legal_from_uci. apply total_guarded. frame. Qed.

Lemma total_collect_moves (pt : PieceType) (to : Square) (moves : list Move) :
  total b (collect_moves pt to moves) (fun found => incl found moves).
Proof.
  induction moves as [|m moves IH]; simpl.
  - apply total_ret, incl_refl.
  - eapply total_bind with (P := fun _ => True).
    + destruct (Chess.to_square m =? to); [|now apply total_ret].
      eapply total_bind; [now apply total_read|]. intros piece _.
      eapply total_bind; [now apply total_read|]. intros side _.
      now apply total_ret.
    + intros keep _. eapply total_bind; [exact IH|].
      intros others Hincl. apply total_ret.
      destruct keep; [|now apply incl_tl].
      intros x [<-|Hx]; [now left | right; now apply Hincl].
Qed.

Lemma total_print_candidates (moves : list Move) :
  incl moves (legal_moves b) -> total b (print_candidates moves) (fun _ => True).
Proof.
  induction moves as [|m moves IH]; intros Hincl; simpl; [now apply total_ret|].
  destruct (san_of_legal m) as [text Et]; [apply Hincl; now left|].
  destruct (origin_name_of_legal m) as [name En]; [apply Hincl; now left|].
  eapply total_bind; [apply total_san, Et|]. intros t _.
  eapply total_bind; [apply total_read, En|]. intros n _.
  eapply total_bind with (P := fun _ => True); [now apply total_print|]. intros _ _.
  apply IH. intros x Hx. apply Hincl. now right.
Qed.

Lemma total_find_move (symbol name : str) :
  total b (_find_move_by_piece_and_target symbol name) (fun _ => True).
Proof.
  unfold _find_move_by_piece_and_target.
  destruct (piece_map_get (upper symbol)) as [pt|]; [|now apply total_ret].
  eapply total_bind; [apply total_guarded; frame|]. intros [to|] _;
    [|now apply total_ret].
  eapply total_bind; [now apply total_read|].
  intros moves ->.
  eapply total_bind; [apply total_collect_moves|]. intros found Hincl.
  destruct found as [|m [|m' rest]]; try now apply total_ret.
  destruct (san_of_legal m) as [text Et]; [apply Hincl; now left|].
  destruct (origin_name_of_legal m) as [origin En]; [apply Hincl; now left|].
  eapply total_bind with (P := fun _ => True); [now apply total_print|]. intros _ _.
  eapply total_bind; [now apply total_print_candidates|]. intros _ _.
  eapply total_bind; [apply total_san, Et|]. intros t _.
  eapply total_bind; [apply total_read, En|]. intros n _.
  eapply total_bind with (P := fun _ => True); [now apply total_print|]. intros _ _.
  now apply total_ret.
Qed.

Lemma total_dash (text : str) :
  total b (_try_dash_notation text) (fun _ => True).
Proof.
  unfold _try_dash_notation.
  destruct (contains (utf8 "-") text); [|now apply total_ret].
  destruct (split 45 text) as [|p0 [|p1 [|p2 rest]]]; try now apply total_ret.
  apply total_legal_from_uci.
Qed.

Lemma total_human (names : list (str * str)) (text : str) :
  total b (_try_human_language names text) (fun _ => True).
Proof.
  unfold _try_human_language. destruct (find_piece_name names text) as [found rest].
  destruct (findall_squares (remove_fillers rest)) as [|s0 [|s1 [|s2 more]]];
    try now apply total_ret.
  - apply total_find_move.
  - apply total_legal_from_uci.
Qed.

Lemma total_driver (c rest : M (option Move)) :
  total b c (fun _ => True) -> total b rest (fun _ => True) ->
  total b (move <- c ;; if truthy move then ret move else rest) (fun _ => True).
Proof.
  intros Hc Hrest. eapply total_bind; [exact Hc|].
  intros move _. destruct (truthy move); [now apply total_ret | exact Hrest].
Qed.

Lemma total_parse_move (names : list (str * str)) (token : str) :
  total b (parse_move names token) (fun _ => True).
Proof.
  unfold parse_move.
  apply total_driver; [apply total_castling_loop |].
  apply total_driver; [apply total_standard_loop |].
  apply total_driver; [apply total_legal_from_uci |].
  apply total_driver; [apply total_human |].
  apply total_driver; [apply total_dash |].
  now apply total_ret.
Qed.

End Totality.

(** C6.  On a board that formats its legal moves and keeps them on the 64
    squares, a resolution of any text returns one of the three outcomes and
    raises nothing: every failure of [parse_san], [from_uci] and
    [parse_square] is caught by the strategy that called it. *)
Theorem parse_move_never_raises (names : list (str * str)) (token : str) (b : Board) :
  san_defined b -> legal_on_board b ->
  exists o, outcome (parse_move names token b) = Some o.
Proof.
  intros Hs Hb. destruct (total_parse_move b Hs Hb names token) as [_ (r & E & _)].
  unfold outcome. rewrite E. destruct r as [m|]; [now eexists|].
  destruct (printed (parse_move names token b)); now eexists.
Qed.

(* ===================================================================== *)
(** * C2: disambiguation by piece type and destination *)
(* ===================================================================== *)

Lemma piece_type_eqb_eq (p q : PieceType) : piece_type_eqb p q = true <-> p = q.
Proof. destruct p, q; simpl; split; congruence. Qed.

Lemma color_eqb_eq (c d : Color) : color_eqb c d = true <-> c = d.
Proof. destruct c, d; simpl; split; congruence. Qed.

Lemma qualifies_iff (b : Board) (pt : PieceType) (target : Square) (m : Move) :
  qualifies b pt target m = true <->
  to_square m = target /\
  exists p, piece_at b (from_square m) = Some p /\ piece_type p = pt /\ color p = turn b.
Proof.
  unfold qualifies. rewrite andb_true_iff, Nat.eqb_eq.
  destruct (piece_at b (from_square m)) as [p|].
  - rewrite andb_true_iff, piece_type_eqb_eq, color_eqb_eq. split.
    + intros (Ht & Hp & Hc). split; [exact Ht|]. now exists p.
    + intros (Ht & q & E & Hp & Hc). injection E as <-. now repeat split.
  - split; [intros [_ H]; discriminate | intros (_ & q & E & _); discriminate].
Qed.

Lemma bind_emits {A B : Type} (c : M A) (k : A -> M B) (b : Board) (a : A)
    (out : list Line) :
  c b = emits a b out ->
  bind c k b = {| result := result (k a b); board_after := board_after (k a b);
                  printed := out ++ printed (k a b) |}.
Proof. intros H. unfold bind. rewrite H. reflexivity. Qed.

Lemma collect_moves_run (b : Board) (pt : PieceType) (target : Square) (moves : list Move) :
  collect_moves pt target moves b = ret (filter (qualifies b pt target) moves) b.
Proof.
  induction moves as [|m moves IH]; simpl; [reflexivity|].
  rewrite (bind_ret_run _ _ b (qualifies b pt target m)).
  - rewrite (bind_ret_run _ _ b _ IH). reflexivity.
  - unfold qualifies. destruct (to_square m =? target); reflexivity.
Qed.

Lemma print_candidates_run (b : Board) (moves : list Move) (cands : list (str * str)) :
  Forall2 (fun m c => san b m = Ok (fst c) /\ square_name (from_square m) = Ok (snd c))
          moves cands ->
  print_candidates moves b = emits tt b (map (fun c => Candidate (fst c) (snd c)) cands).
Proof.
  induction 1 as [|m c moves cands [Hs Hn] _ IH]; simpl; [reflexivity|].
  rewrite (bind_ret_run _ _ b (fst c)) by (now apply algebraic_ret).
  rewrite (bind_ret_run _ _ b (snd c)) by (unfold lift, query; now rewrite Hn).
  rewrite (bind_emits _ _ b tt [Candidate (fst c) (snd c)]) by reflexivity.
  rewrite IH. reflexivity.
Qed.

Lemma candidates_of_report (cands : list (str * str)) (h : Line) :
  (forall s f, h <> Candidate s f) ->
  candidates_of (map (fun c => Candidate (fst c) (snd c)) cands ++ [h]) = cands.
Proof.
  intros Hh. unfold candidates_of. rewrite flat_map_app. simpl.
  assert (E : match h with Candidate s f => [(s, f)] | _ => [] end = [])
    by (destruct h; try reflexivity; now destruct (Hh san_text from_name)).
  rewrite E, !app_nil_r. clear.
  induction cands as [|[s f] cands IH]; simpl; [reflexivity | now rewrite IH].
Qed.

(** The candidates of a list of legal moves: SAN text and origin name. *)
Lemma candidates_exist (b : Board) (moves : list Move) :
  san_defined b -> legal_on_board b -> incl moves (legal_moves b) ->
  exists cands,
    Forall2 (fun m c => san b m = Ok (fst c) /\ square_name (from_square m) = Ok (snd c))
            moves cands.
Proof.
  intros Hs Hb. induction moves as [|m moves IH]; intros Hincl.
  - exists []. constructor.
  - destruct IH as [cands IH]; [intros x Hx; apply Hincl; now right|].
    destruct (san_of_legal b Hs m) as [text Et]; [apply Hincl; now left|].
    destruct (origin_name_of_legal b Hb m) as [name En]; [apply Hincl; now left|].
    exists ((text, name) :: cands). constructor; [now split | exact IH].
Qed.

(** C2.  For a requested piece type and a target square, the moves that
    qualify are the legal moves that end on the target and start from a
    piece of that type and of the side to move; none gives Unrecognized,
    one gives that move, several give Ambiguous with every qualifying move,
    as its SAN text and the name of its origin square, in the order of the
    legal moves. *)
Theorem find_move_by_piece_and_target_spec (b : Board) (symbol name : str)
    (pt : PieceType) (target : Square) :
  san_defined b -> legal_on_board b ->
  piece_map_get (upper symbol) = Some pt ->
  parse_square name = Ok target ->
  let qualifying := filter (qualifies b pt target) (legal_moves b) in
  (forall m, In m qualifying <->
             In m (legal_moves b) /\ to_square m = target /\
             exists p, piece_at b (from_square m) = Some p /\
                       piece_type p = pt /\ color p = turn b)
  /\ exists cands,
       Forall2 (fun m c => san b m = Ok (fst c) /\ square_name (from_square m) = Ok (snd c))
               qualifying cands
       /\ outcome (_find_move_by_piece_and_target symbol name b)
          = Some match qualifying with
                 | [] => Unrecognized
                 | [m] => Resolved m
                 | _ :: _ :: _ => Ambiguous cands
                 end.
Proof.
  intros Hs Hb Hsym Hname qualifying. split.
  - intros m. unfold qualifying. rewrite filter_In, qualifies_iff. tauto.
  - destruct (candidates_exist b qualifying Hs Hb) as [cands Hc].
    { intros m Hm. unfold qualifying in Hm. now apply filter_In in Hm. }
    exists cands. split; [exact Hc|].
    unfold _find_move_by_piece_and_target. rewrite Hsym.
    rewrite (bind_ret_run _ _ b (Some target))
      by (apply try_ret_run; unfold lift, query; rewrite (bind_ret_run _ _ b target);
          [reflexivity | unfold ret; now rewrite Hname]).
    rewrite (bind_ret_run _ _ b (legal_moves b)) by reflexivity.
    rewrite (bind_ret_run _ _ b qualifying) by apply collect_moves_run.
    destruct Hc as [|m c ms cs [Hs1 Hn1] Hrest]; [reflexivity|].
    destruct Hrest as [|m' c' ms' cs' Hc' Hrest']; [reflexivity|].
    assert (Hall : Forall2 (fun m c => san b m = Ok (fst c)
                                       /\ square_name (from_square m) = Ok (snd c))
                           (m :: m' :: ms') (c :: c' :: cs'))
      by (repeat constructor; tauto || assumption).
    rewrite (bind_emits _ _ b tt [Warning]) by reflexivity.
    rewrite (bind_emits _ _ b tt _ (print_candidates_run b _ _ Hall)).
    rewrite (bind_ret_run _ _ b (fst c)) by (now apply algebraic_ret).
    rewrite (bind_ret_run _ _ b (snd c)) by (unfold lift, query; now rewrite Hn1).
    rewrite (bind_emits _ _ b tt [Hint (fst c) (snd c) name]) by reflexivity.
    unfold outcome; cbn [result printed ret app].
    do 2 f_equal.
    change (candidates_of
              (map (fun c => Candidate (fst c) (snd c)) (c :: c' :: cs')
               ++ [Hint (fst c) (snd c) name]) = c :: c' :: cs').
    apply candidates_of_report. discriminate.
Qed.

(* ===================================================================== *)
(** * C1: the castling phrases *)
(* ===================================================================== *)

Lemma between_true (lo hi c : N) : between lo hi c = true -> (lo <= c <= hi)%N.
Proof.
  unfold between. intros H. apply andb_true_iff in H as [H1 H2].
  apply N.leb_le in H1, H2. lia.
Qed.

Lemma between_false (lo hi c : N) : between lo hi c = false -> (c < lo \/ hi < c)%N.
Proof.
  unfold between. intros H. apply andb_false_iff in H as [H|H];
    apply N.leb_gt in H; lia.
Qed.

Ltac between_cases :=
  repeat match goal with
         | |- context [between ?lo ?hi ?c] =>
             let E := fresh "E" in
             destruct (between lo hi c) eqn:E;
             [apply between_true in E | apply between_false in E]; simpl
         | |- context [N.eqb ?x ?k] =>
             destruct (N.eqb_spec x k); simpl
         | |- context [N.even ?c] => destruct (N.even c); simpl
         | |- context [N.odd ?c] => destruct (N.odd c); simpl
         end.

(** Only the two letters [а] and [А] have the lower case [а]. *)
Lemma lower_cp_a (c : N) : lower_cp c = 1072%N -> c = 1072%N \/ c = 1040%N.
Proof. unfold lower_cp. between_cases; lia. Qed.

Lemma not_key (c k : N) :
  existsb (N.eqb c) (map fst translit_table) = false ->
  In k (map fst translit_table) -> c <> k.
Proof.
  intros H Hk ->.
  assert (existsb (N.eqb k) (map fst translit_table) = true)
    by (apply existsb_exists; exists k; split; [exact Hk | apply N.eqb_refl]).
  congruence.
Qed.

Lemma lower_translit_not_a (c : N) : lower_cp (translit_cp c) <> 1072%N.
Proof.
  apply (translit_cases c (fun _ v => lower_cp v <> 1072%N)).
  - intros Hk H. apply lower_cp_a in H as [->| ->]; discriminate.
  - repeat constructor; discriminate.
Qed.

Lemma startswith_incl (p s : str) (c : N) :
  startswith p s = true -> In c p -> In c s.
Proof.
  revert s; induction p as [|d p IH]; intros [|e s]; simpl; try easy.
  intros H [<-|Hin]; apply andb_true_iff in H as [He Hs].
  - apply N.eqb_eq in He. now left.
  - right. now apply IH.
Qed.

Lemma contains_incl (p s : str) (c : N) :
  contains p s = true -> In c p -> In c s.
Proof.
  induction s as [|e s IH]; simpl; intros H Hin.
  - rewrite orb_false_r in H. exact (startswith_incl p [] c H Hin).
  - apply orb_true_iff in H as [H|H].
    + exact (startswith_incl p (e :: s) c H Hin).
    + right. now apply IH.
Qed.

Lemma castling_loop_dead (names : list (str * str)) (text : str) (b : Board) :
  forallb (fun kv => negb (contains (fst kv) text)) names = true ->
  castling_loop names text b = ret None b.
Proof.
  induction names as [|[uk san] names IH]; simpl; [reflexivity|].
  intros H. apply andb_true_iff in H as [H1 H2].
  apply negb_true_iff in H1. rewrite H1. now apply IH.
Qed.

(** Every castling phrase holds the letter [а], and a transliterated text
    holds none, in either case: the first strategy matches nothing. *)
Lemma castling_never_matches (token : str) (b : Board) :
  _try_castling_ukrainian (_convert_cyrillic_to_latin token) b = ret None b.
Proof.
  unfold _try_castling_ukrainian. apply castling_loop_dead.
  apply forallb_forall. intros kv Hkv. apply negb_true_iff.
  destruct (contains (fst kv) _) eqn:E; [exfalso | reflexivity].
  assert (Ha : In 1072%N (fst kv)).
  { assert (Hall : forallb (fun kv => existsb (N.eqb 1072) (fst kv)) castling_names = true)
      by reflexivity.
    rewrite forallb_forall in Hall. specialize (Hall kv Hkv).
    apply existsb_exists in Hall as (x & Hx & Ex). apply N.eqb_eq in Ex. now subst. }
  apply (contains_incl _ _ _ E) in Ha.
  rewrite convert_is_transliterate in Ha. unfold lower, transliterate in Ha.
  rewrite map_map in Ha. apply in_map_iff in Ha as (c & Hc & _).
  exact (lower_translit_not_a c Hc).
Qed.

(** C1, at the failing input.  In the position
    [4k3/8/8/8/8/8/8/4K2R w K - 0 1] White may castle short: the parser
    accepts [O-O] and answers with the legal move e1g1.  The token
    [коротка рокіровка], a short-castle phrase of the dictionary, resolves to
    Unrecognized there. *)
Theorem castling_phrase_unrecognized :
  parse_san Positions.castle_ready (utf8 "O-O") = Ok (Positions.mv "e1" "g1")
  /\ In (Positions.mv "e1" "g1") (legal_moves Positions.castle_ready)
  /\ In (utf8 "коротка рокіровка", utf8 "O-O") castling_names
  /\ outcome (parse_move Positions.example_piece_names (utf8 "коротка рокіровка")
                         Positions.castle_ready)
     = Some Unrecognized.
Proof.
  repeat split; try reflexivity.
  - vm_compute. tauto.
  - vm_compute. tauto.
Qed.

(* ===================================================================== *)
(** * Counting rank digits *)
(* ===================================================================== *)

(** Every board-square substring holds one of the digits [1] to [8]; the
    string functions of the interpreter create none. *)

Lemma rank_digits_app (s t : str) :
  rank_digits (s ++ t) = rank_digits s + rank_digits t.
Proof. unfold rank_digits. now rewrite filter_app, length_app. Qed.

Lemma rank_digits_cons (c : N) (s : str) :
  rank_digits (c :: s) = (if is_rank c then 1 else 0) + rank_digits s.
Proof. unfold rank_digits. simpl. now destruct (is_rank c). Qed.

Lemma rank_digits_rev (s : str) : rank_digits (rev s) = rank_digits s.
Proof. unfold rank_digits. now rewrite filter_rev, length_rev. Qed.

Lemma findall_squares_digits (s : str) :
  length (findall_squares s) <= rank_digits s.
Proof.
  assert (H : forall n s, length s <= n -> length (findall_squares s) <= rank_digits s).
  { clear s. induction n as [|n IH]; intros [|c1 [|c2 s]] Hlen; simpl in *;
      try lia; try (rewrite rank_digits_cons; lia).
    rewrite !rank_digits_cons.
    destruct (is_file c1 && is_rank c2) eqn:E.
    - apply andb_true_iff in E as [_ ->]. simpl.
      specialize (IH s). lia.
    - specialize (IH (c2 :: s)). rewrite rank_digits_cons in IH. simpl in IH. lia. }
  now apply (H (length s)).
Qed.

Lemma is_rank_iff (c : N) : is_rank c = true <-> (49 <= c <= 56)%N.
Proof.
  unfold is_rank. split; [apply between_true|].
  intros H. unfold between. apply andb_true_iff. split; apply N.leb_le; lia.
Qed.

Lemma is_file_iff (c : N) : is_file c = true <-> (97 <= c <= 104)%N.
Proof.
  unfold is_file. split; [apply between_true|].
  intros H. unfold between. apply andb_true_iff. split; apply N.leb_le; lia.
Qed.

Lemma space_not_rank (c : N) : isspace c = true -> is_rank c = false.
Proof.
  intros H. destruct (is_rank c) eqn:E; [|reflexivity].
  apply is_rank_iff in E. revert H. unfold isspace. between_cases; (discriminate || lia).
Qed.

Lemma rank_digits_lstrip (s : str) : rank_digits (lstrip s) = rank_digits s.
Proof.
  induction s as [|c s IH]; simpl; [reflexivity|].
  destruct (isspace c) eqn:E; [|reflexivity].
  rewrite rank_digits_cons, (space_not_rank c E). exact IH.
Qed.

Lemma rank_digits_strip (s : str) : rank_digits (strip s) = rank_digits s.
Proof.
  unfold strip, rstrip.
  now rewrite rank_digits_rev, rank_digits_lstrip, rank_digits_rev, rank_digits_lstrip.
Qed.

Lemma is_rank_lower (c : N) : is_rank (lower_cp c) = is_rank c.
Proof.
  apply eq_true_iff_eq. rewrite !is_rank_iff. unfold lower_cp. between_cases; lia.
Qed.

Lemma is_rank_upper (c : N) : is_rank (upper_cp c) = is_rank c.
Proof.
  apply eq_true_iff_eq. rewrite !is_rank_iff. unfold upper_cp. between_cases; lia.
Qed.

Lemma rank_digits_map (f : N -> N) (s : str) :
  (forall c, is_rank (f c) = is_rank c) -> rank_digits (map f s) = rank_digits s.
Proof.
  intros Hf. induction s as [|c s IH]; [reflexivity|].
  simpl map. now rewrite !rank_digits_cons, Hf, IH.
Qed.

Lemma rank_digits_lower (s : str) : rank_digits (lower s) = rank_digits s.
Proof. apply rank_digits_map, is_rank_lower. Qed.

Lemma rank_digits_upper (s : str) : rank_digits (upper s) = rank_digits s.
Proof. apply rank_digits_map, is_rank_upper. Qed.

Lemma rank_digits_capitalize (s : str) : rank_digits (capitalize s) = rank_digits s.
Proof.
  destruct s as [|c s]; [reflexivity|]. unfold capitalize.
  now rewrite !rank_digits_cons, is_rank_upper, rank_digits_lower.
Qed.

Lemma rank_digits_replace_go (old new : str) (skip : nat) (s : str) :
  rank_digits new = 0 -> rank_digits (replace_go old new skip s) <= rank_digits s.
Proof.
  intros Hn. revert skip; induction s as [|c s IH]; intros skip; simpl; [lia|].
  rewrite rank_digits_cons. destruct skip as [|k].
  - destruct (startswith old (c :: s)).
    + rewrite rank_digits_app, Hn. specialize (IH (length old - 1)). lia.
    + rewrite rank_digits_cons. specialize (IH 0). lia.
  - specialize (IH k). lia.
Qed.

Lemma rank_digits_intersperse (new s : str) :
  rank_digits new = 0 -> rank_digits (intersperse new s) = rank_digits s.
Proof.
  intros Hn. induction s as [|c s IH]; simpl; [exact Hn|].
  now rewrite rank_digits_app, !rank_digits_cons, Hn, IH.
Qed.

Lemma rank_digits_replace (old new s : str) :
  rank_digits new = 0 -> rank_digits (replace old new s) <= rank_digits s.
Proof.
  intros Hn. destruct old as [|c old]; simpl.
  - now rewrite rank_digits_intersperse.
  - now apply rank_digits_replace_go.
Qed.

Lemma rank_digits_remove_fillers (s : str) :
  rank_digits (remove_fillers s) <= rank_digits s.
Proof.
  unfold remove_fillers. rewrite rank_digits_strip.
  repeat (etransitivity; [apply rank_digits_replace; reflexivity|]).
  reflexivity.
Qed.

Lemma rank_digits_find_piece_name (names : list (str * str)) (s : str) :
  rank_digits (snd (find_piece_name names s)) <= rank_digits s.
Proof.
  induction names as [|[name symbol] names IH]; simpl; [lia|].
  destruct (contains name s); [|exact IH]. simpl.
  rewrite rank_digits_strip. now apply rank_digits_replace.
Qed.

Lemma rank_digits_split (sep : N) (s : str) :
  is_rank sep = false -> rank_digits (concat (split sep s)) = rank_digits s.
Proof.
  intros Hsep. induction s as [|c s IH]; [reflexivity|]. simpl split.
  destruct (N.eqb_spec c sep) as [->|Hne].
  - simpl concat. now rewrite rank_digits_cons, Hsep, IH.
  - destruct (split sep s) as [|p ps]; simpl concat in *.
    + rewrite !rank_digits_cons. f_equal. exact IH.
    + change ((c :: p) ++ concat ps) with (c :: (p ++ concat ps)).
      rewrite !rank_digits_cons. f_equal. exact IH.
Qed.

(* ===================================================================== *)
(** * The texts the algebraic parser accepts *)
(* ===================================================================== *)

Lemma optional_inv {A : Type} (p : N -> bool) (s : str)
    (k : option N -> str -> option A) (r : A) :
  optional p s k = Some r ->
  exists a s', s = a ++ s' /\ item p a /\ exists o, k o s' = Some r.
Proof.
  unfold optional. intros H.
  assert (Hskip : k None s = Some r ->
                  exists a s', s = a ++ s' /\ item p a /\ exists o, k o s' = Some r)
    by (intros E; exists [], s; repeat split; [now left | now exists None]).
  destruct s as [|c s']; [now apply Hskip|].
  destruct (p c) eqn:Ep; [|now apply Hskip].
  destruct (k (Some c) s') as [r'|] eqn:Ek; [|now apply Hskip].
  injection H as <-. exists [c], s'. repeat split.
  - right. now exists c.
  - now exists (Some c).
Qed.

Lemma promo_letter_inv {A : Type} (k : option N -> str -> option A) (pre s1 : str) (r : A) :
  pre = [] \/ pre = [61%N] -> promo_letter k s1 = Some r ->
  exists e s', pre ++ s1 = e ++ s' /\ promo_item e /\ exists o, k o s' = Some r.
Proof.
  intros Hpre E. destruct s1 as [|c s2]; [discriminate|]. simpl in E.
  destruct (is_promo_letter c) eqn:Ec; [|discriminate].
  exists (pre ++ [c]), s2. repeat split.
  - now rewrite <- app_assoc.
  - right. exists c. split; [|exact Ec]. destruct Hpre as [-> | ->]; [now left | now right].
  - now exists (Some c).
Qed.

Lemma promo_group_inv {A : Type} (s : str) (k : option N -> str -> option A) (r : A) :
  promo_group s k = Some r ->
  exists e s', s = e ++ s' /\ promo_item e /\ exists o, k o s' = Some r.
Proof.
  unfold promo_group. intros H.
  assert (Hskip : k None s = Some r ->
                  exists e s', s = e ++ s' /\ promo_item e /\ exists o, k o s' = Some r)
    by (intros E; exists [], s; repeat split; [now left | now exists None]).
  destruct s as [|c s1]; [now apply Hskip|].
  destruct (N.eqb_spec c 61) as [->|Hne].
  - destruct (promo_letter k s1) as [r1|] eqn:E1.
    + injection H as <-. apply (promo_letter_inv k [61%N] s1); [now right | exact E1].
    + destruct (promo_letter k (61%N :: s1)) as [r2|] eqn:E2.
      * injection H as <-. apply (promo_letter_inv k [] (61%N :: s1)); [now left | exact E2].
      * now apply Hskip.
  - destruct (promo_letter k (c :: s1)) as [r2|] eqn:E2.
    + injection H as <-. apply (promo_letter_inv k [] (c :: s1)); [now left | exact E2].
    + now apply Hskip.
Qed.

(** The shape of a text matched by [SAN_REGEX]. *)
Lemma san_regex_shape (s : str) (g : SanGroups) :
  san_regex s = Some g ->
  exists a f r x tf tr e k,
    s = a ++ f ++ r ++ x ++ [tf; tr] ++ e ++ k
    /\ item is_piece_letter a /\ item is_file f /\ item is_rank r
    /\ item is_separator x /\ is_file tf = true /\ is_rank tr = true
    /\ promo_item e /\ item is_check_mark k.
Proof.
  unfold san_regex. intros H.
  apply optional_inv in H as (a & s1 & -> & Ha & pc & H).
  apply optional_inv in H as (f & s2 & -> & Hf & fl & H).
  apply optional_inv in H as (r & s3 & -> & Hr & rk & H).
  apply optional_inv in H as (x & s4 & -> & Hx & sp & H).
  destruct s4 as [|tf [|tr s5]]; try discriminate.
  destruct (is_file tf && is_rank tr) eqn:Et; [|discriminate].
  apply andb_true_iff in Et as [Htf Htr].
  apply promo_group_inv in H as (e & s6 & -> & He & pr & H).
  apply optional_inv in H as (k & s7 & -> & Hk & ck & H).
  destruct s7; [|discriminate].
  exists a, f, r, x, tf, tr, e, k. rewrite app_nil_r. now repeat split.
Qed.

Lemma class_forall (P : N -> bool) (l : str) (c : N) :
  forallb P l = true -> existsb (N.eqb c) l = true -> P c = true.
Proof.
  intros Hall Hex. apply existsb_exists in Hex as (x & Hx & E).
  apply N.eqb_eq in E. subst. rewrite forallb_forall in Hall. now apply Hall.
Qed.

Lemma item_digits (p : N -> bool) (a : str) :
  (forall c, p c = true -> is_rank c = false) -> item p a -> rank_digits a = 0.
Proof.
  intros Hp [->|(c & -> & Hc)]; [reflexivity|].
  rewrite rank_digits_cons, (Hp c Hc). reflexivity.
Qed.

Lemma item_plain (p : N -> bool) (a : str) :
  (forall c, p c = true -> plain c = true) -> item p a -> forallb plain a = true.
Proof.
  intros Hp [->|(c & -> & Hc)]; [reflexivity|]. simpl. now rewrite (Hp c Hc).
Qed.

Lemma file_not_rank (c : N) : is_file c = true -> is_rank c = false.
Proof.
  intros H. apply is_file_iff in H. destruct (is_rank c) eqn:E; [|reflexivity].
  apply is_rank_iff in E. lia.
Qed.

Lemma file_plain (c : N) : is_file c = true -> plain c = true.
Proof.
  intros H. apply is_file_iff in H. unfold plain, between.
  apply andb_true_iff; split; apply N.leb_le; lia.
Qed.

Lemma rank_plain (c : N) : is_rank c = true -> plain c = true.
Proof.
  intros H. apply is_rank_iff in H. unfold plain, between.
  apply andb_true_iff; split; apply N.leb_le; lia.
Qed.

Lemma san_regex_text (s : str) (g : SanGroups) :
  san_regex s = Some g -> rank_digits s <= 2 /\ forallb plain s = true.
Proof.
  intros H. apply san_regex_shape in H
    as (a & f & r & x & tf & tr & e & k & -> & Ha & Hf & Hr & Hx & Htf & Htr & He & Hk).
  assert (Hne : forall c, is_promo_letter c = true ->
                          is_rank c = false /\ plain c = true).
  { intros c Hc. split.
    - apply negb_true_iff. revert Hc.
      apply (class_forall (fun c => negb (is_rank c))). reflexivity.
    - revert Hc. apply (class_forall plain). reflexivity. }
  split.
  - rewrite !rank_digits_app.
    rewrite (item_digits is_piece_letter a), (item_digits is_file f),
      (item_digits is_separator x), (item_digits is_check_mark k); try assumption.
    + assert (rank_digits r <= 1)
        by (destruct Hr as [->|(c & -> & _)]; [cbv; lia |
            rewrite rank_digits_cons; change (rank_digits []) with 0;
            destruct (is_rank c); lia]).
      assert (rank_digits [tf; tr] = 1)
        by (rewrite !rank_digits_cons, (file_not_rank tf Htf), Htr; reflexivity).
      assert (rank_digits e = 0).
      { destruct He as [->|(c & [-> | ->] & Hc)]; [reflexivity | |];
          rewrite !rank_digits_cons; destruct (Hne c Hc) as [-> _]; reflexivity. }
      lia.
    + intros c Hc. apply negb_true_iff. revert Hc.
      apply (class_forall (fun c => negb (is_rank c))). reflexivity.
    + intros c Hc. apply negb_true_iff. revert Hc.
      apply (class_forall (fun c => negb (is_rank c))). reflexivity.
    + exact file_not_rank.
    + intros c Hc. apply negb_true_iff. revert Hc.
      apply (class_forall (fun c => negb (is_rank c))). reflexivity.
  - rewrite !forallb_app.
    rewrite (item_plain is_piece_letter a), (item_plain is_file f),
      (item_plain is_rank r), (item_plain is_separator x),
      (item_plain is_check_mark k); try assumption;
      try (intros c; apply (class_forall plain); reflexivity);
      try exact file_plain; try exact rank_plain.
    simpl. rewrite (file_plain tf Htf), (rank_plain tr Htr). simpl.
    destruct He as [->|(c & [-> | ->] & Hc)]; [reflexivity | |];
      simpl; destruct (Hne c Hc) as [_ ->]; reflexivity.
Qed.

Lemma names_text (names : list str) (s : str) :
  forallb (fun n => (rank_digits n <=? 2) && forallb plain n) names = true ->
  mem s names = true -> rank_digits s <= 2 /\ forallb plain s = true.
Proof.
  intros Hall Hmem. apply mem_In in Hmem. rewrite forallb_forall in Hall.
  specialize (Hall s Hmem). apply andb_true_iff in Hall as [H1 H2].
  apply Nat.leb_le in H1. now split.
Qed.

(** A text the parser answers with a truthy move holds at most two rank
    digits and only printable ASCII characters other than the space. *)
Lemma parse_san_text (b : Board) (s : str) (m : Move) :
  parse_san b s = Ok m -> move_bool m = true ->
  rank_digits s <= 2 /\ forallb plain s = true.
Proof.
  unfold parse_san. intros H Hm.
  destruct (mem s kingside_names) eqn:Ek; [now apply (names_text kingside_names)|].
  destruct (mem s queenside_names) eqn:Eq; [now apply (names_text queenside_names)|].
  destruct (san_regex s) as [g|] eqn:Eg; [now apply (san_regex_text s g)|].
  destruct (mem s null_names); [|discriminate].
  injection H as <-. discriminate.
Qed.

(* ===================================================================== *)
(** * Square names and the long-algebraic parser *)
(* ===================================================================== *)

Lemma index_nth (x : str) (l : list str) (i : nat) :
  index Py.eqb x l = Ok i -> nth_error l i = Some x.
Proof.
  revert i; induction l as [|y l IH]; intros i; simpl; [discriminate|].
  destruct (Py.eqb x y) eqn:E.
  - intros H. injection H as <-. apply eqb_eq in E. now subst.
  - destruct (index Py.eqb x l) as [j|]; [|discriminate].
    intros H. injection H as <-. now apply IH.
Qed.

Lemma nth_index (l : list str) (i : nat) (x : str) :
  NoDup l -> nth_error l i = Some x -> index Py.eqb x l = Ok i.
Proof.
  intros Hnd. revert i; induction Hnd as [|y l Hy Hnd IH]; intros [|i]; simpl;
    try discriminate.
  - intros H. injection H as ->. now rewrite eqb_refl.
  - intros H. destruct (Py.eqb x y) eqn:E.
    + apply eqb_eq in E. subst. apply nth_error_In in H. contradiction.
    + now rewrite (IH i H).
Qed.

Lemma square_names_shape (n : str) :
  In n SQUARE_NAMES -> exists f r, n = [f; r] /\ is_file f = true /\ is_rank r = true.
Proof.
  assert (H : forallb (fun n => match n with
                                | [f; r] => is_file f && is_rank r
                                | _ => false
                                end) SQUARE_NAMES = true) by reflexivity.
  rewrite forallb_forall in H. intros Hin. specialize (H n Hin).
  destruct n as [|f [|r [|x n]]]; try discriminate.
  apply andb_true_iff in H as [Hf Hr]. now exists f, r.
Qed.

Lemma index_square (x : str) (i : nat) :
  index Py.eqb x SQUARE_NAMES = Ok i ->
  i < 64 /\ exists f r, x = [f; r] /\ is_file f = true /\ is_rank r = true.
Proof.
  intros H. apply index_nth in H. split.
  - change 64 with (length SQUARE_NAMES). apply nth_error_Some. congruence.
  - apply nth_error_In in H. now apply square_names_shape.
Qed.

Lemma piece_symbol_not_rank (c : N) (p : PieceType) :
  piece_symbol_index [c] = Ok p -> is_rank c = false.
Proof.
  unfold piece_symbol_index. intros H.
  destruct (is_rank c) eqn:E; [|reflexivity]. apply is_rank_iff in E.
  assert (Hc : In c [49; 50; 51; 52; 53; 54; 55; 56]%N) by (simpl; lia).
  simpl in Hc. decompose [or] Hc; subst; try discriminate; contradiction.
Qed.

(** A text [from_uci] accepts holds at most two rank digits. *)
Lemma from_uci_digits (s : str) (m : Move) :
  from_uci s = Ok m -> rank_digits s <= 2.
Proof.
  unfold from_uci.
  destruct (Py.eqb s (utf8 "0000")) eqn:E0;
    [apply eqb_eq in E0; subst; intros _; cbv; lia|].
  remember (index Py.eqb) as idx eqn:Hidx.
  remember piece_symbol_index as psi eqn:Hpsi. unfold slice.
  destruct s as [|c0 [|c1 [|c2 [|c3 [|c4 [|c5 s]]]]]]; simpl; try discriminate.
  - (* four characters *)
    destruct (N.eqb_spec c1 64) as [->|_]; simpl.
    + destruct (psi [lower_cp c0]); try discriminate.
      destruct (idx [c2; c3] SQUARE_NAMES) as [i|] eqn:Ei; try discriminate.
      subst idx. apply index_square in Ei as (_ & f & r & E & Hf & _).
      injection E as -> ->. intros _.
      rewrite !rank_digits_cons, (file_not_rank f Hf).
      change (is_rank 64) with false.
      destruct (is_rank c0), (is_rank r); cbv; lia.
    + destruct (idx [c0; c1] SQUARE_NAMES) as [i|] eqn:Ei; try discriminate.
      destruct (idx [c2; c3] SQUARE_NAMES) as [j|] eqn:Ej; try discriminate.
      subst idx.
      apply index_square in Ei as (_ & f & r & E & Hf & _). injection E as -> ->.
      apply index_square in Ej as (_ & f' & r' & E & Hf' & _). injection E as -> ->.
      intros _. rewrite !rank_digits_cons, (file_not_rank f Hf), (file_not_rank f' Hf').
      destruct (is_rank r), (is_rank r'); cbv; lia.
  - (* five characters *)
    destruct (idx [c0; c1] SQUARE_NAMES) as [i|] eqn:Ei; try discriminate.
    destruct (idx [c2; c3] SQUARE_NAMES) as [j|] eqn:Ej; try discriminate.
    destruct (psi [c4]) as [p|] eqn:Ep; try discriminate.
    subst idx psi.
    apply index_square in Ei as (_ & f & r & E & Hf & _). injection E as -> ->.
    apply index_square in Ej as (_ & f' & r' & E & Hf' & _). injection E as -> ->.
    intros _. rewrite !rank_digits_cons, (file_not_rank f Hf), (file_not_rank f' Hf'),
      (piece_symbol_not_rank c4 p Ep).
    destruct (is_rank r), (is_rank r'); cbv; lia.
Qed.

(* ===================================================================== *)
(** * Runs of the single strategies *)
(* ===================================================================== *)

Lemma legal_from_uci_run (text : str) (b : Board) :
  legal_from_uci text b
  = ret match from_uci text with
        | Ok m => if is_legal b m then Some m else None
        | Raise _ => None
        end b.
Proof.
  unfold legal_from_uci, try_except, bind, lift, query, ret. simpl.
  destruct (from_uci text) as [m|e]; simpl; [|reflexivity].
  destruct (is_legal b m); reflexivity.
Qed.

Lemma standard_loop_none (variants : list str) (b : Board) :
  (forall v m, In v variants -> parse_san b v = Ok m -> move_bool m = false) ->
  standard_loop variants b = ret None b.
Proof.
  induction variants as [|v variants IH]; intros H; simpl; [reflexivity|].
  rewrite (bind_ret_run _ _ b None).
  - apply IH. intros v' m Hin. apply H. now right.
  - unfold try_except, bind, query, ret. simpl.
    destruct (parse_san b v) as [m|e] eqn:E; simpl; [|reflexivity].
    now rewrite (H v m (or_introl eq_refl) E).
Qed.

Lemma standard_loop_first (v : str) (variants : list str) (b : Board) (m : Move) :
  parse_san b v = Ok m -> move_bool m = true ->
  standard_loop (v :: variants) b = ret (Some m) b.
Proof.
  intros E Hm. simpl. rewrite (bind_ret_run _ _ b (Some m)); [reflexivity|].
  unfold try_except, bind, query, ret. simpl. rewrite E. simpl. now rewrite Hm.
Qed.

(** The driver moves on after a strategy that found nothing. *)
Lemma driver_next (c rest : M (option Move)) (b : Board) :
  c b = ret None b ->
  (move <- c ;; if truthy move then ret move else rest) b = rest b.
Proof. intros H. now rewrite (bind_ret_run _ _ b None H). Qed.

Lemma driver_done (c rest : M (option Move)) (b : Board) (m : Move) :
  c b = ret (Some m) b -> move_bool m = true ->
  (move <- c ;; if truthy move then ret move else rest) b = ret (Some m) b.
Proof. intros H Hm. rewrite (bind_ret_run _ _ b (Some m) H). simpl. now rewrite Hm. Qed.

Lemma outcome_unrecognized (b : Board) : outcome (ret None b) = Some Unrecognized.
Proof. reflexivity. Qed.

Lemma outcome_resolved (b : Board) (m : Move) : outcome (ret (Some m) b) = Some (Resolved m).
Proof. reflexivity. Qed.

(* ===================================================================== *)
(** * C7: three or more squares *)
(* ===================================================================== *)

Lemma legal_from_uci_digits (text : str) (b : Board) :
  2 < rank_digits text -> legal_from_uci text b = ret None b.
Proof.
  intros H. rewrite legal_from_uci_run.
  destruct (from_uci text) as [m|e] eqn:E; [|reflexivity].
  apply from_uci_digits in E. lia.
Qed.

Lemma dash_digits (text : str) (b : Board) :
  2 < rank_digits text -> _try_dash_notation text b = ret None b.
Proof.
  intros H. unfold _try_dash_notation.
  destruct (contains (utf8 "-") text); [|reflexivity].
  destruct (split 45 text) as [|p0 [|p1 [|p2 rest]]] eqn:E; try reflexivity.
  apply legal_from_uci_digits.
  rewrite rank_digits_app, !rank_digits_strip.
  rewrite <- (rank_digits_split 45 text) in H by reflexivity.
  rewrite E in H. simpl in H. now rewrite app_nil_r, rank_digits_app in H.
Qed.

Lemma standard_digits (text : str) (b : Board) :
  2 < rank_digits text -> _try_standard_notation text b = ret None b.
Proof.
  intros H. unfold _try_standard_notation. apply standard_loop_none.
  intros v m Hv E. destruct (move_bool m) eqn:Em; [exfalso | reflexivity].
  apply (parse_san_text b v m E) in Em as [Hd _].
  simpl in Hv. decompose [or] Hv; subst; try contradiction;
    rewrite ?rank_digits_capitalize, ?rank_digits_upper in Hd; lia.
Qed.

(** A token in which the natural-language strategy finds three or more
    squares matches no strategy, whether or not it names a piece. *)
Lemma many_squares_unrecognized (names : list (str * str)) (token : str) (b : Board) :
  let text := lower (_convert_cyrillic_to_latin (strip token)) in
  3 <= length (findall_squares (remove_fillers (snd (find_piece_name names text)))) ->
  parse_move names token b = ret None b.
Proof.
  intros text H.
  assert (Hd : 2 < rank_digits text).
  { pose proof (findall_squares_digits (remove_fillers (snd (find_piece_name names text)))).
    pose proof (rank_digits_remove_fillers (snd (find_piece_name names text))).
    pose proof (rank_digits_find_piece_name names text). lia. }
  unfold parse_move.
  rewrite driver_next by apply castling_never_matches.
  rewrite driver_next
    by (apply standard_digits; unfold text in Hd; now rewrite rank_digits_lower in Hd).
  fold text.
  rewrite driver_next by (now apply legal_from_uci_digits).
  rewrite driver_next.
  - rewrite driver_next by (now apply dash_digits). reflexivity.
  - unfold _try_human_language.
    destruct (find_piece_name names text) as [found rest]. simpl in H.
    destruct (findall_squares (remove_fillers rest)) as [|s0 [|s1 [|s2 more]]];
      simpl in H; try lia. reflexivity.
Qed.

(** C7.  When the natural-language strategy recognizes no piece name in
    the token and extracts three or more board squares from it, the
    resolution is Unrecognized: no two of the squares are taken as origin
    and destination. *)
Theorem three_squares_unrecognized (names : list (str * str)) (token : str) (b : Board) :
  let text := lower (_convert_cyrillic_to_latin (strip token)) in
  fst (find_piece_name names text) = None ->
  3 <= length (findall_squares (remove_fillers (snd (find_piece_name names text)))) ->
  outcome (parse_move names token b) = Some Unrecognized.
Proof.
  intros text _ H. unfold text in H.
  now rewrite (many_squares_unrecognized names token b H).
Qed.

(* ===================================================================== *)
(** * C3: standard algebraic notation *)
(* ===================================================================== *)

Lemma opt_piece_type_eqb_eq (p q : option PieceType) :
  opt_piece_type_eqb p q = true <-> p = q.
Proof.
  destruct p as [p|], q as [q|]; simpl; try (split; congruence).
  rewrite piece_type_eqb_eq. split; congruence.
Qed.

Lemma move_eqb_eq (m n : Move) : move_eqb m n = true <-> m = n.
Proof.
  unfold move_eqb. rewrite !andb_true_iff, !Nat.eqb_eq, !opt_piece_type_eqb_eq.
  destruct m, n; simpl. split.
  - intros [[[-> ->] ->] ->]. reflexivity.
  - intros E. injection E as -> -> -> ->. now repeat split.
Qed.

Lemma legal_proper_In (b : Board) (m : Move) :
  legal_proper b -> In m (legal_moves b) ->
  from_square m <> to_square m /\ drop m = None.
Proof.
  intros H Hin. unfold legal_proper in H. rewrite forallb_forall in H.
  specialize (H m Hin). apply andb_true_iff in H as [H1 H2].
  apply negb_true_iff, Nat.eqb_neq in H1. apply negb_true_iff in H2.
  split; [exact H1|]. now destruct (drop m).
Qed.

Lemma legal_truthy (b : Board) (m : Move) :
  legal_proper b -> In m (legal_moves b) -> move_bool m = true.
Proof.
  intros H Hin. destruct (legal_proper_In b m H Hin) as [Hne _].
  unfold move_bool. destruct (from_square m) as [|f]; simpl; [|reflexivity].
  destruct (to_square m) as [|t]; simpl; [contradiction | reflexivity].
Qed.

Lemma plain_not_space (c : N) : plain c = true -> isspace c = false.
Proof.
  intros H. apply between_true in H.
  unfold isspace. between_cases; (reflexivity || lia).
Qed.

Lemma lstrip_plain (s : str) : forallb plain s = true -> lstrip s = s.
Proof.
  destruct s as [|c s]; simpl; [reflexivity|]. intros H.
  apply andb_true_iff in H as [H _]. now rewrite (plain_not_space c H).
Qed.

Lemma forallb_rev {A : Type} (p : A -> bool) (l : list A) :
  forallb p l = true -> forallb p (rev l) = true.
Proof.
  rewrite !forallb_forall. intros H x Hx. apply H. now apply in_rev.
Qed.

Lemma strip_plain (s : str) : forallb plain s = true -> strip s = s.
Proof.
  intros H. unfold strip, rstrip. rewrite (lstrip_plain s H).
  rewrite (lstrip_plain (rev s)) by now apply forallb_rev.
  apply rev_involutive.
Qed.

Lemma translit_plain (c : N) : plain c = true -> translit_cp c = c.
Proof.
  apply (translit_cases c (fun k v => plain k = true -> v = k)).
  - reflexivity.
  - repeat constructor; intros H; vm_compute in H; discriminate.
Qed.

Lemma convert_plain (s : str) :
  forallb plain s = true -> _convert_cyrillic_to_latin s = s.
Proof.
  intros H. rewrite convert_is_transliterate. unfold transliterate.
  rewrite forallb_forall in H. rewrite <- (map_id s) at 2.
  apply map_ext_in. intros c Hc. now apply translit_plain, H.
Qed.

(** The token the strategies see when the text is plain. *)
Lemma prepared_plain (s : str) :
  forallb plain s = true -> _convert_cyrillic_to_latin (strip s) = s.
Proof. intros H. now rewrite (strip_plain s H), (convert_plain s H). Qed.

(** The loop of the standard strategy returns the reading of the first
    variant the parser reads as a truthy move. *)
Lemma standard_loop_reaches (b : Board) (M : Move) (pre : list str) (s : str)
    (post : list str) :
  parse_san b s = Ok M -> move_bool M = true ->
  forallb (unread b M) pre = true ->
  standard_loop (pre ++ s :: post) b = ret (Some M) b.
Proof.
  intros E Hm. induction pre as [|w pre IH]; intros H.
  - now apply standard_loop_first.
  - cbn [forallb] in H. apply andb_true_iff in H as [Hw Hpre].
    unfold unread in Hw. cbn [app standard_loop].
    destruct (parse_san b w) as [m|e] eqn:Ew.
    + destruct (move_bool m) eqn:Em.
      * simpl in Hw. apply move_eqb_eq in Hw. subst m.
        rewrite (bind_ret_run _ _ b (Some M)); [reflexivity|].
        unfold try_except, bind, query, ret. simpl. rewrite Ew. simpl. now rewrite Hm.
      * rewrite (bind_ret_run _ _ b None); [now apply IH|].
        unfold try_except, bind, query, ret. simpl. rewrite Ew. simpl. now rewrite Em.
    + rewrite (bind_ret_run _ _ b None); [now apply IH|].
      unfold try_except, bind, query, ret. simpl. now rewrite Ew.
Qed.

Lemma variants_round_trip (names : list (str * str)) (b : Board) (M : Move) (s : str)
    (token : str) (pre post : list str) :
  parse_san b s = Ok M -> move_bool M = true ->
  [prepared token; capitalize (prepared token); upper (prepared token)] = pre ++ s :: post ->
  forallb (unread b M) pre = true ->
  outcome (parse_move names token b) = Some (Resolved M).
Proof.
  intros E Hm Hv Hpre. unfold parse_move. unfold prepared in Hv.
  rewrite driver_next by apply castling_never_matches.
  rewrite (driver_done _ _ b M); [reflexivity | | exact Hm].
  unfold _try_standard_notation. rewrite Hv. now apply standard_loop_reaches.
Qed.

(** A text the parser reads as a truthy move is a castling text or matches
    the pattern. *)
Lemma parse_san_truthy_match (b : Board) (s : str) (M : Move) :
  parse_san b s = Ok M -> move_bool M = true ->
  mem s (kingside_names ++ queenside_names) = true \/ exists g, san_regex s = Some g.
Proof.
  intros H Hm. unfold parse_san in H.
  assert (Happ : mem s (kingside_names ++ queenside_names)
                 = mem s kingside_names || mem s queenside_names)
    by apply existsb_app.
  rewrite Happ.
  destruct (mem s kingside_names); [now left|].
  destruct (mem s queenside_names); [now left|].
  destruct (san_regex s) as [g|]; [right; now exists g|].
  destruct (mem s null_names); [|discriminate].
  injection H as <-. discriminate.
Qed.

Lemma parse_san_syntax_raise (b : Board) (v : str) :
  raises_on_syntax v = true -> parse_san b v = Raise InvalidMoveError.
Proof.
  unfold raises_on_syntax, parse_san. intros H.
  repeat (apply andb_true_iff in H as [H ?]).
  repeat match goal with
         | H : negb _ = true |- _ => apply negb_true_iff in H; rewrite H
         end.
  destruct (san_regex v); [discriminate | reflexivity].
Qed.

Lemma raises_unread (b : Board) (M : Move) (w : str) :
  raises_on_syntax w = true -> unread b M w = true.
Proof. intros H. unfold unread. now rewrite (parse_san_syntax_raise b w H). Qed.

Lemma read_unread (b : Board) (M : Move) (w : str) :
  parse_san b w = Ok M -> unread b M w = true.
Proof.
  intros H. unfold unread. rewrite H.
  rewrite (proj2 (move_eqb_eq M M) eq_refl). apply orb_true_r.
Qed.

Lemma regex_has_file (s : str) (g : SanGroups) :
  san_regex s = Some g -> exists c, In c s /\ is_file c = true.
Proof.
  intros H. apply san_regex_shape in H
    as (a & f & r & x & tf & tr & e & k & -> & _ & _ & _ & _ & Htf & _).
  exists tf. split; [|exact Htf].
  do 4 (apply in_or_app; right). simpl. now left.
Qed.

Lemma regex_first (s : str) (g : SanGroups) :
  san_regex s = Some g ->
  exists c rest, s = c :: rest
    /\ (is_piece_letter c || is_file c || is_rank c || is_separator c) = true.
Proof.
  intros H. apply san_regex_shape in H
    as (a & f & r & x & tf & tr & e & k & -> & Ha & Hf & Hr & Hx & Htf & _).
  destruct Ha as [->|(c & -> & Hc)];
    [|exists c; eexists; split; [reflexivity | now rewrite Hc]].
  destruct Hf as [->|(c & -> & Hc)];
    [|exists c; eexists; split; [reflexivity | rewrite Hc; now rewrite orb_true_r]].
  destruct Hr as [->|(c & -> & Hc)];
    [|exists c; eexists; split;
      [reflexivity | rewrite Hc; now rewrite orb_true_r, orb_true_l]].
  destruct Hx as [->|(c & -> & Hc)];
    [|exists c; eexists; split; [reflexivity | rewrite Hc; now rewrite orb_true_r]].
  exists tf; eexists. split; [reflexivity|]. rewrite Htf. now rewrite orb_true_r.
Qed.

Lemma upper_cp_not_file (c : N) : is_file (upper_cp c) = false.
Proof.
  unfold is_file. destruct (between 97 104 (upper_cp c)) eqn:E; [|reflexivity].
  apply between_true in E. exfalso. revert E. unfold upper_cp. between_cases; lia.
Qed.

Lemma upper_cp_file (c : N) : is_file c = true -> between 65 72 (upper_cp c) = true.
Proof.
  unfold is_file. intros H. apply between_true in H.
  assert (E : upper_cp c = (c - 32)%N).
  { unfold upper_cp. destruct (between 97 122 c) eqn:E; [reflexivity|].
    apply between_false in E. lia. }
  rewrite E. unfold between. apply andb_true_iff. split; apply N.leb_le; lia.
Qed.

Lemma lower_cp_not_O (c : N) : lower_cp c <> 79%N.
Proof. unfold lower_cp. between_cases; lia. Qed.

(** No castling text and no text of the null move holds a letter from [A]
    to [H]. *)
Lemma names_without_files :
  forallb (forallb (fun ch => negb (between 65 72 ch)))
          (kingside_names ++ queenside_names ++ null_names) = true.
Proof. reflexivity. Qed.

Lemma castling_name_upper (s : str) :
  mem s (kingside_names ++ queenside_names) = true -> upper s = s.
Proof.
  intros H. apply mem_In in H. cbv in H.
  decompose [or] H; try contradiction; subst s; reflexivity.
Qed.

(** The upper case of a text that matches the pattern is refused. *)
Lemma upper_raises (s : str) (g : SanGroups) :
  san_regex s = Some g -> raises_on_syntax (upper s) = true.
Proof.
  intros Hg. destruct (regex_has_file s g Hg) as (c & Hc & Hfile).
  assert (Hin : In (upper_cp c) (upper s)) by (apply in_map; exact Hc).
  pose proof (upper_cp_file c Hfile) as Hup.
  assert (Hnames : mem (upper s) (kingside_names ++ queenside_names ++ null_names) = false).
  { destruct (mem (upper s) (kingside_names ++ queenside_names ++ null_names)) eqn:E;
      [|reflexivity].
    apply mem_In in E. pose proof names_without_files as Hall.
    rewrite forallb_forall in Hall. specialize (Hall _ E).
    rewrite forallb_forall in Hall. specialize (Hall _ Hin).
    rewrite Hup in Hall. discriminate. }
  unfold mem in Hnames. rewrite !existsb_app in Hnames.
  apply orb_false_iff in Hnames as [Hk Hnames].
  apply orb_false_iff in Hnames as [Hq Hn].
  unfold raises_on_syntax, mem. rewrite Hk, Hq, Hn.
  destruct (san_regex (upper s)) as [g'|] eqn:Eg; [|reflexivity].
  destruct (regex_has_file _ _ Eg) as (d & Hd & Hfd).
  apply in_map_iff in Hd as (x & <- & _). now rewrite upper_cp_not_file in Hfd.
Qed.

(** The upper case of a text the parser reads as a truthy move is that text
    itself or is refused. *)
Lemma upper_unread (b : Board) (M : Move) (s : str) :
  parse_san b s = Ok M -> move_bool M = true -> unread b M (upper s) = true.
Proof.
  intros E Hm. destruct (parse_san_truthy_match b s M E Hm) as [Hc|[g Hg]].
  - rewrite (castling_name_upper s Hc). now apply read_unread.
  - apply raises_unread. now apply (upper_raises s g).
Qed.

(** A text that starts with a lower-case [n], [r], [q], [k] or [o] is
    refused. *)
Lemma raises_by_first (c : N) (rest : str) :
  existsb (N.eqb c) (utf8 "nrqko") = true -> raises_on_syntax (c :: rest) = true.
Proof.
  intros H. apply existsb_exists in H as (k & Hk & Hc). apply N.eqb_eq in Hc. subst k.
  assert (Hfirst : (is_piece_letter c || is_file c || is_rank c || is_separator c) = false)
    by (cbv in Hk; decompose [or] Hk; try contradiction; subst c; reflexivity).
  assert (Hnames : mem (c :: rest) kingside_names = false
                   /\ mem (c :: rest) queenside_names = false
                   /\ mem (c :: rest) null_names = false)
    by (cbv in Hk; decompose [or] Hk; try contradiction; subst c; repeat split; reflexivity).
  destruct Hnames as (Hk1 & Hk2 & Hk3).
  unfold raises_on_syntax. rewrite Hk1, Hk2, Hk3.
  destruct (san_regex (c :: rest)) as [g|] eqn:Eg; [|reflexivity].
  apply regex_first in Eg as (d & rest' & Hd & Hok).
  injection Hd as <- _. congruence.
Qed.

(** A castling text or a text of the null move that starts with [O] holds
    a second [O]. *)
Lemma name_with_O (w : str) :
  In (79%N :: w) (kingside_names ++ queenside_names ++ null_names) -> In 79%N w.
Proof.
  intros E. cbv in E.
  decompose [or] E; try contradiction;
    match goal with
    | H : _ = 79%N :: w |- _ => try discriminate H; injection H as <-
    end; simpl; tauto.
Qed.

(** A text that starts with [O] and goes on in lower case is refused. *)
Lemma raises_capital_O (rest : str) : raises_on_syntax (79%N :: lower rest) = true.
Proof.
  assert (Hno : ~ In 79%N (lower rest)).
  { intros H. apply in_map_iff in H as (x & Hx & _). now apply lower_cp_not_O in Hx. }
  assert (Hnames : mem (79%N :: lower rest)
                       (kingside_names ++ queenside_names ++ null_names) = false).
  { destruct (mem (79%N :: lower rest) (kingside_names ++ queenside_names ++ null_names))
      eqn:E; [|reflexivity].
    apply mem_In in E. exfalso. apply Hno. now apply name_with_O. }
  unfold mem in Hnames. rewrite !existsb_app in Hnames.
  apply orb_false_iff in Hnames as [Hk Hnames].
  apply orb_false_iff in Hnames as [Hq Hn].
  unfold raises_on_syntax, mem. rewrite Hk, Hq, Hn.
  destruct (san_regex (79%N :: lower rest)) as [g|] eqn:Eg; [|reflexivity].
  apply regex_first in Eg as (d & rest' & Hd & Hok).
  injection Hd as <- _. discriminate Hok.
Qed.

Lemma plain_upper (s : str) : forallb plain s = true -> forallb plain (upper s) = true.
Proof.
  intros H. rewrite forallb_forall in H. apply forallb_forall.
  intros c Hc. apply in_map_iff in Hc as (x & <- & Hx). specialize (H x Hx).
  unfold plain in *. apply between_true in H.
  assert (E : upper_cp x = x \/ (upper_cp x = (x - 32)%N /\ (97 <= x)%N)).
  { unfold upper_cp. destruct (between 97 122 x) eqn:E.
    - right. apply between_true in E. split; [reflexivity | lia].
    - left. apply between_false in E. between_cases; lia. }
  unfold between. apply andb_true_iff. split; apply N.leb_le; lia.
Qed.

(** C3, as amended.  On a board whose parser reads back the SAN text [s]
    of its legal moves, resolving [s] written as the board formats it
    returns the move.  So does every token whose stripped and
    transliterated text the strategy's own capitalising or upper-casing
    turns into [s], as long as the parser reads no variant tried before
    [s] as another truthy move.  That condition always holds for the upper
    case of a text that is its own capitalisation ([NFD2], [BXC3]), for a
    text that starts with a lower-case [n], [r], [q] or [k] and
    capitalises to [s] ([nfd2], [nFD2]), and for a text that starts with a
    lower-case [o] and has the upper case [s] ([o-o]). *)
Theorem san_round_trip (names : list (str * str)) (b : Board) (M : Move) (s : str) :
  san_faithful b -> legal_proper b ->
  In M (legal_moves b) -> san b M = Ok s ->
  outcome (parse_move names s b) = Some (Resolved M)
  /\ (forall token pre post,
        [prepared token; capitalize (prepared token); upper (prepared token)]
        = pre ++ s :: post ->
        forallb (unread b M) pre = true ->
        outcome (parse_move names token b) = Some (Resolved M))
  /\ (capitalize (upper s) = s ->
      outcome (parse_move names (upper s) b) = Some (Resolved M))
  /\ (forall token,
        starts_with (utf8 "nrqk") (prepared token) = true ->
        capitalize (prepared token) = s ->
        outcome (parse_move names token b) = Some (Resolved M))
  /\ (forall token,
        starts_with (utf8 "o") (prepared token) = true ->
        upper (prepared token) = s ->
        outcome (parse_move names token b) = Some (Resolved M)).
Proof.
  intros Hf Hp Hin Hsan.
  assert (Hparse : parse_san b s = Ok M).
  { unfold san_faithful in Hf. rewrite forallb_forall in Hf. specialize (Hf M Hin).
    rewrite Hsan in Hf. destruct (parse_san b s) as [n|]; [|discriminate].
    apply move_eqb_eq in Hf. now subst. }
  pose proof (legal_truthy b M Hp Hin) as Hm.
  destruct (parse_san_text b s M Hparse Hm) as [_ Hplain].
  pose proof (fun token pre post =>
                variants_round_trip names b M s token pre post Hparse Hm) as Hgen.
  split; [|split; [|split; [|split]]].
  - apply (Hgen s [] [capitalize s; upper s]); [|reflexivity].
    unfold prepared. now rewrite (prepared_plain s Hplain).
  - exact Hgen.
  - intros Hcap. apply (Hgen (upper s) [upper s] [upper (upper s)]).
    + unfold prepared. rewrite (prepared_plain (upper s) (plain_upper s Hplain)).
      cbn [app]. now rewrite Hcap.
    + cbn [forallb]. now rewrite (upper_unread b M s Hparse Hm).
  - intros token Hstart Hcap.
    apply (Hgen token [prepared token] [upper (prepared token)]).
    + cbn [app]. now rewrite Hcap.
    + cbn [forallb]. rewrite andb_true_r. apply raises_unread.
      destruct (prepared token) as [|c rest]; [discriminate|].
      apply raises_by_first. cbn [starts_with] in Hstart.
      apply existsb_exists in Hstart as (k & Hk & Hc). apply existsb_exists.
      exists k. split; [|exact Hc]. cbv in Hk. cbv. tauto.
  - intros token Hstart Hup.
    apply (Hgen token [prepared token; capitalize (prepared token)] []).
    + cbn [app]. now rewrite Hup.
    + destruct (prepared token) as [|c rest]; [discriminate|].
      change (utf8 "o") with [111%N] in Hstart.
      cbn [starts_with existsb] in Hstart. rewrite orb_false_r in Hstart.
      apply N.eqb_eq in Hstart. subst c.
      cbn [forallb]. rewrite andb_true_r. apply andb_true_iff. split; apply raises_unread.
      * now apply raises_by_first.
      * apply raises_capital_O.
Qed.

(** C3, the claim as stated fails.  In
    [k7/8/8/8/8/2n5/1P1B4/7K w - - 0 1] the bishop's capture d2c3 is legal
    and its SAN text is [Bxc3]; the all-lower-case variant of that text
    resolves to the pawn's capture b2c3. *)
Lemma san_lower_case_resolves_other_move :
  In (Positions.mv "d2" "c3") (legal_moves Positions.bishop_or_pawn)
  /\ san Positions.bishop_or_pawn (Positions.mv "d2" "c3") = Ok (utf8 "Bxc3")
  /\ outcome (parse_move Positions.example_piece_names (lower (utf8 "Bxc3"))
                         Positions.bishop_or_pawn)
     = Some (Resolved (Positions.mv "b2" "c3"))
  /\ Positions.mv "b2" "c3" <> Positions.mv "d2" "c3".
Proof.
  repeat split; try reflexivity.
  - vm_compute. tauto.
  - discriminate.
Qed.

(* ===================================================================== *)
(** * C4: long-algebraic notation *)
(* ===================================================================== *)

Lemma coord_check_all :
  forallb (fun f => forallb (fun t => forallb (coord_check f t) promotions) (seq 0 64))
          (seq 0 64) = true.
Proof. vm_compute. reflexivity. Qed.

Lemma coord_checked (f t : Square) (p : option PieceType) :
  f < 64 -> t < 64 -> coord_check f t p = true.
Proof.
  intros Hf Ht. pose proof coord_check_all as H.
  rewrite forallb_forall in H. specialize (H f). rewrite forallb_forall in H.
  specialize (H (proj2 (in_seq 64 0 f) (conj (Nat.le_0_l f) Hf)) t).
  rewrite forallb_forall in H.
  apply (H (proj2 (in_seq 64 0 t) (conj (Nat.le_0_l t) Ht)) p).
  unfold promotions. destruct p as [[]|]; simpl; tauto.
Qed.

Lemma parse_san_coordinates (b : Board) (f t : Square) (p : option PieceType) (v : str) :
  reads_as_coordinates f t p v = true ->
  parse_san b v = match find_move b f t p with
                  | Raise e => Raise e
                  | Ok move => if opt_piece_type_eqb (promotion move) p then Ok move
                               else Raise IllegalMoveError
                  end.
Proof.
  unfold reads_as_coordinates, parse_san. intros H.
  apply andb_true_iff in H as [H Hg]. apply andb_true_iff in H as [Hk Hq].
  apply negb_true_iff in Hk, Hq. rewrite Hk, Hq.
  destruct (san_regex v) as [g|]; [|discriminate].
  repeat (apply andb_true_iff in Hg as [Hg ?]).
  destruct (g_piece g); [discriminate|].
  destruct (g_file g) as [fl|]; [|discriminate].
  destruct (g_rank g) as [rk|]; [|discriminate].
  destruct (index Py.eqb (g_target g) SQUARE_NAMES) as [i|]; [|discriminate].
  destruct (san_promotion g) as [q|]; [|discriminate].
  repeat match goal with
         | H : (_ =? _) = true |- _ => apply Nat.eqb_eq in H
         | H : opt_piece_type_eqb _ _ = true |- _ => apply opt_piece_type_eqb_eq in H
         end.
  subst. reflexivity.
Qed.

Lemma square_name_nth (sq : Square) (name : str) :
  square_name sq = Ok name -> sq < 64 /\ nth sq SQUARE_NAMES [] = name.
Proof.
  unfold square_name. destruct (nth_error SQUARE_NAMES sq) as [n|] eqn:E; [|discriminate].
  intros H. injection H as <-. split.
  - change 64 with (length SQUARE_NAMES). apply nth_error_Some. congruence.
  - now apply nth_error_nth.
Qed.

(** The long-algebraic text of a proper move. *)
Lemma uci_coord (m : Move) (text : str) :
  from_square m <> to_square m -> drop m = None -> uci m = Ok text ->
  from_square m < 64 /\ to_square m < 64
  /\ text = coord (from_square m) (to_square m) (promotion m).
Proof.
  intros Hne Hd. unfold uci, coord. rewrite Hd.
  assert (Hb : move_bool m = true).
  { unfold move_bool. destruct (from_square m); simpl; [|reflexivity].
    destruct (to_square m); simpl; [contradiction | reflexivity]. }
  rewrite Hb.
  destruct (square_name (from_square m)) as [nf|] eqn:Ef;
    [|destruct (promotion m); discriminate].
  destruct (square_name (to_square m)) as [nt|] eqn:Et;
    [|destruct (promotion m); discriminate].
  apply square_name_nth in Ef as [Hf <-]. apply square_name_nth in Et as [Ht <-].
  destruct (promotion m); intros H; injection H as <-; repeat split; try assumption.
  now rewrite app_nil_r.
Qed.

Lemma move_eta (m : Move) :
  drop m = None ->
  {| from_square := from_square m; to_square := to_square m;
     promotion := promotion m; drop := None |} = m.
Proof. destruct m; simpl. now intros ->. Qed.

(** On a consistent board the parser reads the fully specified text of a
    legal move as that move. *)
Lemma find_move_legal (b : Board) (m : Move) :
  legal_sound b -> legal_standard b -> legal_promoting b ->
  In m (legal_moves b) ->
  find_move b (from_square m) (to_square m) (promotion m) = Ok m.
Proof.
  intros Hs Hst Hpr Hin. unfold find_move.
  assert (Hq : match promotion m with
               | None => if pieces_any b Pawn (from_square m) && on_backrank (to_square m)
                         then Some Queen else None
               | Some _ => promotion m
               end = promotion m).
  { unfold legal_promoting in Hpr. rewrite forallb_forall in Hpr. specialize (Hpr m Hin).
    destruct (promotion m); [reflexivity|].
    rewrite orb_false_r in Hpr. apply negb_true_iff in Hpr. now rewrite Hpr. }
  rewrite Hq.
  unfold legal_standard in Hst. rewrite forallb_forall in Hst. specialize (Hst m Hin).
  apply move_eqb_eq in Hst. rewrite Hst.
  now rewrite (legal_sound_In b m Hs Hin).
Qed.

Lemma opt_piece_type_eqb_refl (p : option PieceType) : opt_piece_type_eqb p p = true.
Proof. now apply opt_piece_type_eqb_eq. Qed.

(** C4.  On a consistent board, resolving the long-algebraic text of a
    legal move (origin square, destination square, promotion letter when
    the move promotes) returns that move. *)
Theorem uci_round_trip (names : list (str * str)) (b : Board) (M : Move) (text : str) :
  legal_sound b -> legal_proper b -> legal_standard b -> legal_promoting b ->
  In M (legal_moves b) -> uci M = Ok text ->
  outcome (parse_move names text b) = Some (Resolved M).
Proof.
  intros Hs Hp Hst Hpr Hin Huci.
  destruct (legal_proper_In b M Hp Hin) as [Hne Hd].
  pose proof (legal_truthy b M Hp Hin) as Hm.
  destruct (uci_coord M text Hne Hd Huci) as (Hf & Ht & ->).
  pose proof (coord_checked _ _ (promotion M) Hf Ht) as Hc.
  unfold coord_check in Hc.
  set (c := coord (from_square M) (to_square M) (promotion M)) in *.
  repeat (apply andb_true_iff in Hc as [Hc ?]).
  match goal with H : Py.eqb (lower c) c = true |- _ => apply eqb_eq in H; rename H into Hl end.
  unfold parse_move. rewrite (prepared_plain c Hc).
  rewrite <- (prepared_plain c Hc) at 1.
  rewrite driver_next by apply castling_never_matches.
  destruct (is_pawn_promotion (promotion M)) eqn:Epawn.
  - (* the promotion letter is outside the pattern of the algebraic parser *)
    match goal with H : _ && _ = true |- _ =>
      apply andb_true_iff in H as [H Hu]; apply andb_true_iff in H as [Hc1 Hc2] end.
    rewrite driver_next.
    2:{ unfold _try_standard_notation. apply standard_loop_none.
        intros v m Hv E. simpl in Hv. decompose [or] Hv; subst; try contradiction;
          rewrite parse_san_syntax_raise in E by assumption; discriminate. }
    rewrite Hl. rewrite (driver_done _ _ b M); [reflexivity | | exact Hm].
    unfold _try_uci_notation. rewrite legal_from_uci_run.
    match goal with H : _ || _ = true |- _ =>
      apply orb_true_iff in H as [H|H]; [apply Nat.eqb_eq in H; contradiction|];
      rename H into Hu' end.
    destruct (from_uci c) as [m|]; [|discriminate].
    apply move_eqb_eq in Hu'. rewrite Hu', (move_eta M Hd).
    now rewrite (legal_sound_In b M Hs Hin).
  - (* the algebraic parser reads the text as fully specified *)
    rewrite (driver_done _ _ b M); [reflexivity | | exact Hm].
    unfold _try_standard_notation. apply standard_loop_first; [|exact Hm].
    match goal with H : reads_as_coordinates _ _ _ _ = true |- _ =>
      rewrite (parse_san_coordinates b _ _ _ _ H) end.
    rewrite (find_move_legal b M Hs Hst Hpr Hin).
    now rewrite opt_piece_type_eqb_refl.
Qed.

(* ===================================================================== *)
(** * C8: a square name alone *)
(* ===================================================================== *)

Lemma square_check_all :
  forallb (fun target => square_check target (nth target SQUARE_NAMES [])) (seq 0 64) = true.
Proof. vm_compute. reflexivity. Qed.

Lemma square_checked (target : Square) (name : str) :
  parse_square name = Ok target -> square_check target name = true.
Proof.
  intros H. apply index_nth in H.
  assert (Ht : target < 64)
    by (change 64 with (length SQUARE_NAMES); apply nth_error_Some; congruence).
  apply (nth_error_nth _ _ []) in H. subst name.
  pose proof square_check_all as Hall. rewrite forallb_forall in Hall.
  apply (Hall target), in_seq. lia.
Qed.

Lemma parse_san_target (b : Board) (target : Square) (v : str) (m : Move) :
  reads_as_target target v = true -> parse_san b v = Ok m ->
  In m (legal_moves b) /\ pieces_any b Pawn (from_square m) = true
  /\ to_square m = target.
Proof.
  unfold reads_as_target, parse_san. intros H.
  apply andb_true_iff in H as [H Hg]. apply andb_true_iff in H as [Hk Hq].
  apply negb_true_iff in Hk, Hq. rewrite Hk, Hq.
  destruct (san_regex v) as [g|]; [|discriminate].
  repeat (apply andb_true_iff in Hg as [Hg ?]).
  destruct (g_piece g); [discriminate|].
  destruct (g_file g); [discriminate|].
  destruct (g_rank g); [discriminate|].
  destruct (index Py.eqb (g_target g) SQUARE_NAMES) as [i|]; [|discriminate].
  destruct (san_promotion g) as [[q|]|]; try discriminate.
  match goal with H : (i =? target) = true |- _ => apply Nat.eqb_eq in H; subst i end.
  intros E. apply match_legal_In in E as [E|E]; [|discriminate].
  apply generate_legal_moves_In in E as (Hin & Hmask & Hto).
  repeat split; try assumption.
  simpl in Hmask. now apply andb_true_iff in Hmask as [Hmask _].
Qed.

Lemma find_piece_name_none (names : list (str * str)) (s : str) :
  fst (find_piece_name names s) = None -> find_piece_name names s = (None, s).
Proof.
  induction names as [|[name symbol] names IH]; simpl; [reflexivity|].
  destruct (contains name s); [discriminate | exact IH].
Qed.

Lemma find_move_run_unique (b : Board) (symbol name : str) (pt : PieceType)
    (target : Square) (M : Move) :
  piece_map_get (upper symbol) = Some pt ->
  parse_square name = Ok target ->
  filter (qualifies b pt target) (legal_moves b) = [M] ->
  _find_move_by_piece_and_target symbol name b = ret (Some M) b.
Proof.
  intros Hsym Hname Hq. unfold _find_move_by_piece_and_target. rewrite Hsym.
  rewrite (bind_ret_run _ _ b (Some target))
    by (apply try_ret_run; unfold lift, query; rewrite (bind_ret_run _ _ b target);
        [reflexivity | unfold ret; now rewrite Hname]).
  rewrite (bind_ret_run _ _ b (legal_moves b)) by reflexivity.
  rewrite (bind_ret_run _ _ b [M]) by (rewrite <- Hq; apply collect_moves_run).
  reflexivity.
Qed.

Lemma own_pawn_qualifies (b : Board) (target : Square) (m : Move) :
  legal_own b -> In m (legal_moves b) ->
  pieces_any b Pawn (from_square m) = true -> to_square m = target ->
  qualifies b Pawn target m = true.
Proof.
  intros Hown Hin Hpawn Hto. unfold legal_own in Hown. rewrite forallb_forall in Hown.
  specialize (Hown m Hin). unfold occupied_own, pieces_any, has_piece in *.
  unfold qualifies. rewrite Hto, Nat.eqb_refl.
  destruct (piece_at b (from_square m)) as [p|]; [|discriminate].
  now rewrite Hpawn, Hown.
Qed.

(** C8, as amended.  When exactly one legal move of a pawn of the side to
    move ends on a square, and the table names no piece in the name of that
    square, resolving the name alone returns that move. *)
Theorem lone_pawn_move_resolved (names : list (str * str)) (b : Board)
    (name : str) (target : Square) (M : Move) :
  legal_proper b -> legal_own b ->
  parse_square name = Ok target ->
  fst (find_piece_name names name) = None ->
  filter (qualifies b Pawn target) (legal_moves b) = [M] ->
  outcome (parse_move names name b) = Some (Resolved M).
Proof.
  intros Hp Hown Hname Hnone Hq.
  pose proof (square_checked target name Hname) as Hc. unfold square_check in Hc.
  repeat (apply andb_true_iff in Hc as [Hc ?]).
  repeat match goal with H : Py.eqb _ _ = true |- _ => apply eqb_eq in H end.
  assert (HM : In M (legal_moves b) /\ move_bool M = true).
  { assert (Hin : In M (filter (qualifies b Pawn target) (legal_moves b)))
      by (rewrite Hq; now left).
    apply filter_In in Hin as [Hin _]. split; [exact Hin | now apply (legal_truthy b)]. }
  destruct HM as [HinM Hm].
  unfold parse_move. rewrite (prepared_plain name Hc).
  rewrite <- (prepared_plain name Hc) at 1.
  rewrite driver_next by apply castling_never_matches.
  destruct (parse_san b name) as [m|e] eqn:Eparse.
  - (* the algebraic parser finds the pawn's move *)
    match goal with H : reads_as_target _ _ = true |- _ =>
      destruct (parse_san_target b target name m H Eparse) as (Hin & Hpawn & Hto) end.
    assert (m = M).
    { pose proof (own_pawn_qualifies b target m Hown Hin Hpawn Hto) as Hqm.
      assert (Hf : In m (filter (qualifies b Pawn target) (legal_moves b)))
        by (apply filter_In; now split).
      rewrite Hq in Hf. destruct Hf as [<-|[]]. reflexivity. }
    subst m. rewrite (driver_done _ _ b M); [reflexivity | | exact Hm].
    unfold _try_standard_notation. now apply standard_loop_first.
  - (* the natural-language strategy finds it *)
    rewrite driver_next.
    2:{ unfold _try_standard_notation. apply standard_loop_none.
        intros v m Hv E. simpl in Hv. decompose [or] Hv; subst; try contradiction;
          [congruence | |]; rewrite parse_san_syntax_raise in E by assumption;
          discriminate. }
    match goal with H : lower name = name |- _ => rewrite H end.
    rewrite driver_next.
    2:{ unfold _try_uci_notation. rewrite legal_from_uci_run.
        now destruct (from_uci name). }
    rewrite (driver_done _ _ b M); [reflexivity | | exact Hm].
    unfold _try_human_language. rewrite (find_piece_name_none names name Hnone).
    match goal with H : remove_fillers name = name |- _ => rewrite H end.
    destruct (findall_squares name) as [|found [|? ?]]; try discriminate.
    match goal with H : Py.eqb found name = true |- _ => apply eqb_eq in H; rewrite H end.
    now apply (find_move_run_unique b (utf8 "P") name Pawn target M).
Qed.

(** C8, the claim as stated fails.  In [7k/4P3/8/8/8/8/8/K7 w - - 0 1] one
    pawn, the pawn on e7, can reach e8, and the token [e8] names no piece;
    its four promotions are four qualifying moves, and the resolution is
    Ambiguous. *)
Lemma lone_pawn_promotion_ambiguous :
  nodup Nat.eq_dec
        (map from_square
             (filter (qualifies Positions.promotion_ready Pawn (Positions.sq "e8"))
                     (legal_moves Positions.promotion_ready)))
  = [Positions.sq "e7"]
  /\ fst (find_piece_name Positions.example_piece_names (utf8 "e8")) = None
  /\ outcome (parse_move Positions.example_piece_names (utf8 "e8")
                         Positions.promotion_ready)
     = Some (Ambiguous [(utf8 "e8=Q+", utf8 "e7"); (utf8 "e8=R+", utf8 "e7");
                        (utf8 "e8=B", utf8 "e7"); (utf8 "e8=N", utf8 "e7")]).
Proof. repeat split; reflexivity. Qed.

(* ===================================================================== *)
(** * The theorems at the example positions *)
(* ===================================================================== *)

Import Positions.

(** The invariants hold on the example positions. *)
Lemma castle_ready_consistent :
  legal_sound castle_ready /\ legal_proper castle_ready /\ legal_on_board castle_ready
  /\ legal_own castle_ready /\ legal_standard castle_ready /\ legal_promoting castle_ready
  /\ san_defined castle_ready /\ san_faithful castle_ready.
Proof. repeat split; reflexivity. Qed.

Lemma two_knights_consistent :
  legal_sound two_knights /\ legal_proper two_knights /\ legal_on_board two_knights
  /\ legal_own two_knights /\ legal_standard two_knights /\ legal_promoting two_knights
  /\ san_defined two_knights /\ san_faithful two_knights.
Proof. repeat split; reflexivity. Qed.

Lemma bishop_or_pawn_consistent :
  legal_sound bishop_or_pawn /\ legal_proper bishop_or_pawn /\ legal_on_board bishop_or_pawn
  /\ legal_own bishop_or_pawn /\ legal_standard bishop_or_pawn
  /\ legal_promoting bishop_or_pawn
  /\ san_defined bishop_or_pawn /\ san_faithful bishop_or_pawn.
Proof. repeat split; reflexivity. Qed.

Lemma promotion_ready_consistent :
  legal_sound promotion_ready /\ legal_proper promotion_ready
  /\ legal_on_board promotion_ready /\ legal_own promotion_ready
  /\ legal_standard promotion_ready /\ legal_promoting promotion_ready
  /\ san_defined promotion_ready /\ san_faithful promotion_ready.
Proof. repeat split; reflexivity. Qed.

(** C2 at the two knights: the knights on f1 and b1 both reach d2. *)
Lemma find_move_by_piece_and_target_spec_witness :
  san_defined two_knights /\ legal_on_board two_knights
  /\ piece_map_get (upper (utf8 "N")) = Some Knight
  /\ parse_square (utf8 "d2") = Ok (sq "d2")
  /\ exists cands,
       Forall2 (fun m c => san two_knights m = Ok (fst c)
                           /\ square_name (from_square m) = Ok (snd c))
               [mv "f1" "d2"; mv "b1" "d2"] cands
       /\ outcome (_find_move_by_piece_and_target (utf8 "N") (utf8 "d2") two_knights)
          = Some (Ambiguous cands).
Proof.
  do 4 (split; [reflexivity|]).
  exact (proj2 (find_move_by_piece_and_target_spec two_knights (utf8 "N") (utf8 "d2")
                  Knight (sq "d2") eq_refl eq_refl eq_refl eq_refl)).
Defined.

(** The sentence of the specification: [knight to d2] with two knights. *)
Example knight_to_d2_ambiguous :
  outcome (parse_move example_piece_names (utf8 "кінь на d2") two_knights)
  = Some (Ambiguous [(utf8 "Nfd2", utf8 "f1"); (utf8 "Nbd2", utf8 "b1")]).
Proof. reflexivity. Qed.

(** C3 as amended, at the knight's move [Nfd2] and its variants [NFD2],
    [nfd2] and, with blanks around it, [NFd2]. *)
Lemma san_round_trip_witness :
  san_faithful two_knights /\ legal_proper two_knights
  /\ In (mv "f1" "d2") (legal_moves two_knights)
  /\ san two_knights (mv "f1" "d2") = Ok (utf8 "Nfd2")
  /\ outcome (parse_move example_piece_names (utf8 "Nfd2") two_knights)
     = Some (Resolved (mv "f1" "d2"))
  /\ outcome (parse_move example_piece_names (utf8 "NFD2") two_knights)
     = Some (Resolved (mv "f1" "d2"))
  /\ outcome (parse_move example_piece_names (utf8 "nfd2") two_knights)
     = Some (Resolved (mv "f1" "d2"))
  /\ outcome (parse_move example_piece_names (utf8 " NFd2 ") two_knights)
     = Some (Resolved (mv "f1" "d2")).
Proof.
  assert (Hin : In (mv "f1" "d2") (legal_moves two_knights)) by (simpl; tauto).
  do 2 (split; [reflexivity|]). split; [exact Hin|]. split; [reflexivity|].
  destruct (san_round_trip example_piece_names two_knights (mv "f1" "d2") (utf8 "Nfd2")
              eq_refl eq_refl Hin eq_refl) as (Hs & Hgen & Hupper & Hlower & _).
  split; [exact Hs|]. split; [exact (Hupper eq_refl)|].
  split; [exact (Hlower (utf8 "nfd2") eq_refl eq_refl)|].
  exact (Hgen (utf8 " NFd2 ") [utf8 "NFd2"] [utf8 "NFD2"] eq_refl eq_refl).
Defined.

(** The variants of the bishop's capture [Bxc3] and of short castling
    [O-O] that the capitalising and the upper-casing restore. *)
Example upper_case_capture_resolves :
  outcome (parse_move example_piece_names (utf8 "BXC3") bishop_or_pawn)
  = Some (Resolved (mv "d2" "c3")).
Proof. reflexivity. Qed.

Example lower_case_castling_resolves :
  san castle_ready (mv "e1" "g1") = Ok (utf8 "O-O")
  /\ outcome (parse_move example_piece_names (utf8 "o-o") castle_ready)
     = Some (Resolved (mv "e1" "g1")).
Proof. split; reflexivity. Qed.

(** C4 at the promotion [e7e8q]. *)
Lemma uci_round_trip_witness :
  legal_sound promotion_ready /\ legal_proper promotion_ready
  /\ legal_standard promotion_ready /\ legal_promoting promotion_ready
  /\ In (promo "e7" "e8" Queen) (legal_moves promotion_ready)
  /\ uci (promo "e7" "e8" Queen) = Ok (utf8 "e7e8q")
  /\ outcome (parse_move example_piece_names (utf8 "e7e8q") promotion_ready)
     = Some (Resolved (promo "e7" "e8" Queen)).
Proof.
  assert (Hin : In (promo "e7" "e8" Queen) (legal_moves promotion_ready))
    by (simpl; tauto).
  do 4 (split; [reflexivity|]). split; [exact Hin|]. split; [reflexivity|].
  exact (uci_round_trip example_piece_names promotion_ready (promo "e7" "e8" Queen)
           (utf8 "e7e8q") eq_refl eq_refl eq_refl eq_refl Hin eq_refl).
Defined.

(** C6 at the ambiguous knight move, where the report is printed. *)
Lemma parse_move_never_raises_witness :
  san_defined two_knights /\ legal_on_board two_knights
  /\ exists o, outcome (parse_move example_piece_names (utf8 "кінь на d2") two_knights)
               = Some o.
Proof.
  do 2 (split; [reflexivity|]).
  exact (parse_move_never_raises example_piece_names (utf8 "кінь на d2") two_knights
           eq_refl eq_refl).
Defined.

(** C7 at a token with three squares. *)
Lemma three_squares_unrecognized_witness :
  fst (find_piece_name example_piece_names
         (lower (_convert_cyrillic_to_latin (strip (utf8 "b2 b3 b4"))))) = None
  /\ 3 <= length (findall_squares (remove_fillers (snd (find_piece_name example_piece_names
            (lower (_convert_cyrillic_to_latin (strip (utf8 "b2 b3 b4"))))))))
  /\ outcome (parse_move example_piece_names (utf8 "b2 b3 b4") bishop_or_pawn)
     = Some Unrecognized.
Proof.
  assert (H3 : 3 <= length (findall_squares (remove_fillers
            (snd (find_piece_name example_piece_names
               (lower (_convert_cyrillic_to_latin (strip (utf8 "b2 b3 b4")))))))))
    by (vm_compute; apply le_n).
  split; [reflexivity|]. split; [exact H3|].
  exact (three_squares_unrecognized example_piece_names (utf8 "b2 b3 b4") bishop_or_pawn
           eq_refl H3).
Defined.

(** C8 as amended, at the pawn's capture on c3, named [c3]. *)
Lemma lone_pawn_move_resolved_witness :
  legal_proper bishop_or_pawn /\ legal_own bishop_or_pawn
  /\ parse_square (utf8 "c3") = Ok (sq "c3")
  /\ fst (find_piece_name example_piece_names (utf8 "c3")) = None
  /\ filter (qualifies bishop_or_pawn Pawn (sq "c3")) (legal_moves bishop_or_pawn)
     = [mv "b2" "c3"]
  /\ outcome (parse_move example_piece_names (utf8 "c3") bishop_or_pawn)
     = Some (Resolved (mv "b2" "c3")).
Proof.
  do 5 (split; [reflexivity|]).
  exact (lone_pawn_move_resolved example_piece_names bishop_or_pawn (utf8 "c3") (sq "c3")
           (mv "b2" "c3") eq_refl eq_refl eq_refl eq_refl eq_refl).
Defined.

(** C10 at the dashed text [b2-b4]. *)
Lemma parse_move_returns_legal_witness :
  legal_sound bishop_or_pawn
  /\ outcome (parse_move example_piece_names (utf8 "b2-b4") bishop_or_pawn)
     = Some (Resolved (mv "b2" "b4"))
  /\ is_legal bishop_or_pawn (mv "b2" "b4") = true.
Proof.
  split; [reflexivity|]. split; [reflexivity|].
  exact (parse_move_returns_legal example_piece_names (utf8 "b2-b4") bishop_or_pawn
           (mv "b2" "b4") eq_refl eq_refl).
Defined.

(* ===================================================================== *)
(** * Further properties of the interpreter *)
(* ===================================================================== *)

(** X1.  Whatever the token and the position, the castling strategy finds
    none of its phrases in the transliterated token and returns [None]. *)
Theorem castling_strategy_never_matches (token : str) (b : Board) :
  _try_castling_ukrainian (_convert_cyrillic_to_latin (strip token)) b = ret None b.
Proof. apply castling_never_matches. Qed.

(** A character whose lower case is one of the sixteen letters is one of
    them. *)
Lemma lower_cp_key (c k : N) :
  In k (map fst translit_table) -> lower_cp c = k -> In c (map fst translit_table).
Proof.
  intros Hk. simpl in Hk. decompose [or] Hk; try contradiction; subst k;
    unfold lower_cp; between_cases; intros H; simpl; lia.
Qed.

(** The lower case of a transliterated character is none of the sixteen
    letters. *)
Lemma lower_translit_not_key (c k : N) :
  In k (map fst translit_table) -> lower_cp (translit_cp c) <> k.
Proof.
  intros Hk. apply (translit_cases c (fun _ v => lower_cp v <> k)).
  - intros Hc E. apply (lower_cp_key c k Hk) in E.
    assert (existsb (N.eqb c) (map fst translit_table) = true)
      by (apply existsb_exists; exists c; split; [exact E | apply N.eqb_refl]).
    congruence.
  - assert (Hall : forallb (fun kv => forallb (fun k' => negb (lower_cp (snd kv) =? k')%N)
                                              (map fst translit_table))
                           translit_table = true) by reflexivity.
    rewrite forallb_forall in Hall. apply Forall_forall. intros kv Hkv.
    specialize (Hall kv Hkv). rewrite forallb_forall in Hall. specialize (Hall k Hk).
    apply negb_true_iff in Hall. now apply N.eqb_neq.
Qed.

(** The text the later strategies work on holds none of the sixteen
    letters. *)
Lemma prepared_without_keys (token : str) (name : str) :
  has_translit_letter name = true ->
  contains name (lower (_convert_cyrillic_to_latin (strip token))) = false.
Proof.
  intros H. destruct (contains name _) eqn:E; [exfalso | reflexivity].
  unfold has_translit_letter in H. apply existsb_exists in H as (c & Hc & Hk).
  apply existsb_exists in Hk as (k & Hk & Ek). apply N.eqb_eq in Ek. subst k.
  apply (contains_incl _ _ c E) in Hc.
  rewrite convert_is_transliterate in Hc. unfold lower, transliterate in Hc.
  rewrite map_map in Hc. apply in_map_iff in Hc as (x & Hx & _).
  exact (lower_translit_not_key x c Hk Hx).
Qed.

(** X2.  In the natural-language strategy as [parse_move] calls it, an
    entry of the table of piece names whose name holds one of the letters
    [а б с д е ф г х], in either case, is never found: the search gives what
    it gives on the table without these entries. *)
Theorem piece_names_with_translit_letters_ignored (names : list (str * str))
    (token : str) :
  let text := lower (_convert_cyrillic_to_latin (strip token)) in
  find_piece_name names text = find_piece_name (usable_names names) text.
Proof.
  intros text. induction names as [|[name symbol] names IH]; [reflexivity|].
  unfold usable_names. cbn [filter fst find_piece_name].
  destruct (has_translit_letter name) eqn:E; cbn [negb].
  - unfold text at 1. rewrite (prepared_without_keys token name E). exact IH.
  - cbn [find_piece_name]. destruct (contains name text); [reflexivity | exact IH].
Qed.

Lemma replace_absent (old new s : str) :
  old <> [] -> contains old s = false -> replace old new s = s.
Proof.
  intros Hne. destruct old as [|c old]; [contradiction|]. unfold replace.
  induction s as [|d s IH]; [reflexivity|]. intros H.
  cbn [contains] in H. apply orb_false_iff in H as [H1 H2].
  cbn [replace_go]. rewrite H1. f_equal. now apply IH.
Qed.

Lemma lstrip_In (t : str) (x : N) : In x (lstrip t) -> In x t.
Proof.
  induction t as [|y t IH]; simpl; [easy|].
  destruct (isspace y); [|easy]. intros H. right. exact (IH H).
Qed.

Lemma strip_In (t : str) (x : N) : In x (strip t) -> In x t.
Proof.
  unfold strip, rstrip. intros H.
  apply in_rev, lstrip_In, in_rev, lstrip_In in H. exact H.
Qed.

Lemma replace_go_erase_In (old : str) (k : nat) (s : str) (x : N) :
  In x (replace_go old [] k s) -> In x s.
Proof.
  revert k; induction s as [|y s IH]; intros k; cbn [replace_go]; [easy|].
  destruct k as [|k].
  - destruct (startswith old (y :: s)); cbn [app].
    + intros H. right. exact (IH _ H).
    + intros [->|H]; [now left | right; exact (IH _ H)].
  - intros H. right. exact (IH _ H).
Qed.

Lemma replace_erase_In (old s : str) (x : N) : In x (replace old [] s) -> In x s.
Proof.
  unfold replace. destruct old as [|c old]; [|apply replace_go_erase_In].
  induction s as [|y s IH]; simpl; [easy|].
  intros [->|H]; [now left | right; exact (IH H)].
Qed.

(** Taking a piece name out of a text adds no character to it. *)
Lemma find_piece_name_In (names : list (str * str)) (s : str) (x : N) :
  In x (snd (find_piece_name names s)) -> In x s.
Proof.
  induction names as [|[name symbol] names IH]; cbn [find_piece_name]; [easy|].
  destruct (contains name s); [|exact IH]. cbn [snd]. intros H.
  apply strip_In, replace_erase_In in H. exact H.
Qed.

Lemma prepared_without_a (token : str) :
  ~ In 1072%N (lower (_convert_cyrillic_to_latin (strip token))).
Proof.
  intros H. rewrite convert_is_transliterate in H. unfold lower, transliterate in H.
  rewrite map_map in H. apply in_map_iff in H as (x & Hx & _).
  apply (lower_translit_not_key x 1072%N); [simpl; tauto | exact Hx].
Qed.

(** X3.  In the natural-language strategy as [parse_move] calls it, the
    filler word [на] is never removed: its letter [а] has been replaced
    before, and only [з] and [в] are turned into blanks. *)
Theorem filler_na_never_removed (names : list (str * str)) (token : str) :
  let text := snd (find_piece_name names
                     (lower (_convert_cyrillic_to_latin (strip token)))) in
  remove_fillers text
  = strip (replace (utf8 "в") (utf8 " ") (replace (utf8 "з") (utf8 " ") text)).
Proof.
  intros text. unfold remove_fillers.
  rewrite (replace_absent (utf8 "на")); [reflexivity | discriminate |].
  destruct (contains (utf8 "на") text) eqn:E; [exfalso | reflexivity].
  assert (Ha : In 1072%N text) by (apply (contains_incl _ _ _ E); simpl; tauto).
  apply find_piece_name_In in Ha. exact (prepared_without_a token Ha).
Qed.

(** X4.  Standard notation goes first: when the algebraic parser reads the
    stripped and transliterated token, as written, as a truthy move, that
    move is the resolution, whatever the later strategies would make of the
    token. *)
Theorem standard_notation_first (names : list (str * str)) (token : str)
    (b : Board) (m : Move) :
  parse_san b (_convert_cyrillic_to_latin (strip token)) = Ok m ->
  move_bool m = true ->
  outcome (parse_move names token b) = Some (Resolved m).
Proof.
  intros E Hm. unfold parse_move.
  rewrite driver_next by apply castling_never_matches.
  rewrite (driver_done _ _ b m); [reflexivity | | exact Hm].
  unfold _try_standard_notation. now apply standard_loop_first.
Qed.

(* ===================================================================== *)
(** * The dashed notation *)
(* ===================================================================== *)

Lemma split_nonempty (sep : N) (s : str) : split sep s <> [].
Proof.
  destruct s as [|c s]; simpl; [discriminate|].
  destruct (c =? sep)%N; [discriminate|]. destruct (split sep s); discriminate.
Qed.

Lemma split_length (sep : N) (s : str) : length (split sep s) = S (count sep s).
Proof.
  unfold count. induction s as [|c s IH]; [reflexivity|]. cbn [split filter].
  rewrite (N.eqb_sym sep c). destruct (c =? sep)%N; cbn [length].
  - now rewrite IH.
  - destruct (split sep s) as [|p ps] eqn:E; [now destruct (split_nonempty sep s)|].
    cbn [length] in *. exact IH.
Qed.

Lemma split_one (sep : N) (s p : str) : split sep s = [p] -> s = p.
Proof.
  revert p; induction s as [|c s IH]; intros p; cbn [split].
  - intros H. now injection H.
  - destruct (c =? sep)%N.
    + intros H. injection H as _ H. now destruct (split_nonempty sep s).
    + destruct (split sep s) as [|q qs] eqn:E; [now destruct (split_nonempty sep s)|].
      intros H. injection H as <- ->. f_equal. now apply IH.
Qed.

Lemma split_two (sep : N) (s p0 p1 : str) :
  split sep s = [p0; p1] -> s = p0 ++ sep :: p1.
Proof.
  revert p0; induction s as [|c s IH]; intros p0; cbn [split]; [discriminate|].
  destruct (N.eqb_spec c sep) as [->|Hne].
  - intros H. injection H as <- H. apply split_one in H. now subst.
  - destruct (split sep s) as [|q qs]; [discriminate|].
    intros H. injection H as <- ->. cbn [app]. f_equal. now apply IH.
Qed.

(** X7.  The dashed strategy returns a move only for a text with exactly
    one hyphen; the move is then the long-algebraic reading of the two
    stripped parts put together, and it is in [board.legal_moves]. *)
Theorem dash_notation_one_hyphen (text : str) (b : Board) (m : Move) :
  result (_try_dash_notation text b) = Ok (Some m) ->
  count 45%N text = 1
  /\ is_legal b m = true
  /\ exists p0 p1, text = p0 ++ 45%N :: p1
                   /\ from_uci (strip p0 ++ strip p1) = Ok m.
Proof.
  unfold _try_dash_notation. destruct (contains (utf8 "-") text); [|discriminate].
  destruct (split 45 text) as [|p0 [|p1 [|p2 rest]]] eqn:E; try discriminate.
  rewrite legal_from_uci_run. cbn [result ret].
  destruct (from_uci (strip p0 ++ strip p1)) as [n|e] eqn:Eu; [|discriminate].
  destruct (is_legal b n) eqn:El; [|discriminate].
  intros H. injection H as <-. repeat split.
  - pose proof (split_length 45 text) as Hl. rewrite E in Hl. simpl in Hl. lia.
  - exact El.
  - exists p0, p1. split; [now apply split_two | exact Eu].
Qed.

(* ===================================================================== *)
(** * The caller in [main.py] *)
(* ===================================================================== *)

Lemma keeps_parse_move (names : list (str * str)) (token : str) :
  keeps_board (parse_move names token).
Proof. unfold parse_move. frame. Qed.

(** The driver returns truthy moves only. *)
Lemma sat_driver_truthy (b : Board) (c rest : M (option Move)) :
  keeps_board c ->
  sat b rest (fun r => forall m, r = Some m -> move_bool m = true) ->
  sat b (move <- c ;; if truthy move then ret move else rest)
      (fun r => forall m, r = Some m -> move_bool m = true).
Proof.
  intros Hc Hrest. eapply sat_bind; [apply sat_keeps, Hc|].
  intros [m|] _; simpl; [|exact Hrest].
  destruct (move_bool m) eqn:E; [|exact Hrest].
  apply sat_ret. intros n En. now injection En as <-.
Qed.

Lemma parse_move_truthy (names : list (str * str)) (token : str) (b : Board) (m : Move) :
  result (parse_move names token b) = Ok (Some m) -> move_bool m = true.
Proof.
  assert (H : sat b (parse_move names token)
                  (fun r => forall m, r = Some m -> move_bool m = true)).
  { unfold parse_move.
    repeat (apply sat_driver_truthy; [auto with frame|]).
    apply sat_ret. discriminate. }
  intros E. destruct H as [_ H]. now apply (H (Some m)).
Qed.

Lemma strip_idempotent_lstrip (s : str) : lstrip (lstrip s) = lstrip s.
Proof.
  induction s as [|c s IH]; simpl; [reflexivity|].
  destruct (isspace c) eqn:E; [exact IH|]. simpl. now rewrite E.
Qed.

(** X9.  In the loop of [get_player_move], a line that is no command is
    returned as a move exactly when [parse_move] resolves it: on a board
    whose legal moves pass its own legality test, the caller's test
    [move and move in board.legal_moves] rejects nothing the parser
    returned. *)
Theorem player_round_accepts_resolved (names : list (str * str)) (line : str)
    (b : Board) (r : option Move) :
  legal_sound b ->
  command_of commands (lower (strip line)) = None ->
  result (parse_move names (strip line) b) = Ok r ->
  result (get_player_move_round names line b)
  = Ok match r with Some m => Return m | None => InvalidMove end.
Proof.
  intros Hs Hcmd Hr. unfold get_player_move_round. rewrite Hcmd.
  pose proof (keeps_parse_move names (strip line) b) as Hb.
  unfold bind. rewrite Hr, Hb. destruct r as [m|]; [|reflexivity].
  rewrite (parse_move_truthy names (strip line) b m Hr).
  destruct (sat_parse_move b Hs names (strip line)) as [_ Hl].
  cbn [query result board_after]. now rewrite (Hl (Some m) Hr m eq_refl).
Qed.

Lemma dash_check_all :
  forallb (fun f => forallb (fun t => forallb (dash_check f t) promotions) (seq 0 64))
          (seq 0 64) = true.
Proof. vm_compute. reflexivity. Qed.

Lemma dash_checked (f t : Square) (p : option PieceType) :
  f < 64 -> t < 64 -> dash_check f t p = true.
Proof.
  intros Hf Ht. pose proof dash_check_all as H.
  rewrite forallb_forall in H. specialize (H f). rewrite forallb_forall in H.
  specialize (H (proj2 (in_seq 64 0 f) (conj (Nat.le_0_l f) Hf)) t).
  rewrite forallb_forall in H.
  apply (H (proj2 (in_seq 64 0 t) (conj (Nat.le_0_l t) Ht)) p).
  unfold promotions. destruct p as [[]|]; simpl; tauto.
Qed.

Lemma lstrip_spaces (w s : str) :
  forallb isspace w = true -> lstrip (w ++ s) = lstrip s.
Proof.
  induction w as [|c w IH]; simpl; [reflexivity|]. intros H.
  apply andb_true_iff in H as [Hc Hw]. rewrite Hc. now apply IH.
Qed.

(** Blanks around a text without blanks are stripped, and nothing else. *)
Lemma strip_padded (w1 a w2 : str) :
  forallb isspace w1 = true -> forallb isspace w2 = true ->
  forallb plain a = true -> strip (w1 ++ a ++ w2) = a.
Proof.
  intros H1 H2 Ha. unfold strip, rstrip. rewrite (lstrip_spaces w1 _ H1).
  destruct a as [|c a].
  - cbn [app]. rewrite <- (app_nil_r w2), (lstrip_spaces w2 [] H2). reflexivity.
  - assert (Hc : isspace c = false)
      by (simpl in Ha; apply andb_true_iff in Ha as [Hc _]; now apply plain_not_space).
    cbn [app lstrip]. rewrite Hc. change (c :: a ++ w2) with ((c :: a) ++ w2).
    rewrite rev_app_distr, (lstrip_spaces (rev w2) _ (forallb_rev _ _ H2)).
    rewrite (lstrip_plain (rev (c :: a))) by now apply forallb_rev.
    apply rev_involutive.
Qed.

Lemma split_no_sep (sep : N) (s : str) : ~ In sep s -> split sep s = [s].
Proof.
  induction s as [|c s IH]; [reflexivity|]. intros H. cbn [split].
  destruct (N.eqb_spec c sep) as [->|_]; [now destruct H; left|].
  rewrite IH; [reflexivity|]. intros Hin. apply H. now right.
Qed.

Lemma split_at_sep (sep : N) (a t : str) :
  ~ In sep a -> split sep (a ++ sep :: t) = a :: split sep t.
Proof.
  induction a as [|c a IH]; intros H; cbn [app split].
  - now rewrite N.eqb_refl.
  - destruct (N.eqb_spec c sep) as [->|_]; [now destruct H; left|].
    rewrite IH; [reflexivity|]. intros Hin. apply H. now right.
Qed.

Lemma contains_char (c : N) (s : str) : In c s -> contains [c] s = true.
Proof.
  induction s as [|d s IH]; [easy|]. intros [->|H]; cbn [contains startswith].
  - now rewrite N.eqb_refl.
  - rewrite (IH H). apply orb_true_r.
Qed.

Lemma space_not_hyphen (w : str) : forallb isspace w = true -> ~ In 45%N w.
Proof.
  intros H Hin. rewrite forallb_forall in H. specialize (H _ Hin). discriminate.
Qed.

Lemma no_hyphen_part (w1 a w2 : str) :
  forallb isspace w1 = true -> forallb isspace w2 = true -> ~ In 45%N a ->
  ~ In 45%N (w1 ++ a ++ w2).
Proof.
  intros H1 H2 Ha Hin. apply in_app_or in Hin as [H|H];
    [now apply (space_not_hyphen w1)|].
  apply in_app_or in H as [H|H]; [now apply Ha | now apply (space_not_hyphen w2)].
Qed.

Lemma forallb_firstn {A : Type} (p : A -> bool) (n : nat) (l : list A) :
  forallb p l = true -> forallb p (firstn n l) = true.
Proof.
  rewrite !forallb_forall. intros H x Hx. apply H.
  rewrite <- (firstn_skipn n l). apply in_or_app. now left.
Qed.

Lemma forallb_skipn {A : Type} (p : A -> bool) (n : nat) (l : list A) :
  forallb p l = true -> forallb p (skipn n l) = true.
Proof.
  rewrite !forallb_forall. intros H x Hx. apply H.
  rewrite <- (firstn_skipn n l). apply in_or_app. now right.
Qed.

(** X5.  The dashed strategy reads back every legal move: the
    long-algebraic text of the move with a hyphen after the origin square,
    with or without blanks around the two parts, gives the move. *)
Theorem dash_notation_round_trip (b : Board) (M : Move) (u w1 w2 w3 w4 : str) :
  legal_sound b -> legal_proper b ->
  In M (legal_moves b) -> uci M = Ok u ->
  forallb isspace w1 = true -> forallb isspace w2 = true ->
  forallb isspace w3 = true -> forallb isspace w4 = true ->
  _try_dash_notation ((w1 ++ firstn 2 u ++ w2) ++ 45%N :: (w3 ++ skipn 2 u ++ w4)) b
  = ret (Some M) b.
Proof.
  intros Hs Hp Hin Huci H1 H2 H3 H4.
  destruct (legal_proper_In b M Hp Hin) as [Hne Hd].
  destruct (uci_coord M u Hne Hd Huci) as (Hf & Ht & ->).
  pose proof (coord_checked _ _ (promotion M) Hf Ht) as Hc.
  pose proof (dash_checked _ _ (promotion M) Hf Ht) as Hdash.
  unfold coord_check in Hc. unfold dash_check in Hdash.
  set (u := coord (from_square M) (to_square M) (promotion M)) in *.
  apply andb_true_iff in Hc as [Hc Huci']. apply andb_true_iff in Hc as [Hc _].
  apply andb_true_iff in Hc as [Hplain _].
  apply andb_true_iff in Hdash as [Hdash _]. apply andb_true_iff in Hdash as [Hno _].
  assert (Hno' : ~ In 45%N u).
  { intros Hi. apply negb_true_iff in Hno.
    assert (existsb (N.eqb 45) u = true)
      by (apply existsb_exists; exists 45%N; split; [exact Hi | reflexivity]).
    congruence. }
  assert (Hfirst : ~ In 45%N (firstn 2 u))
    by (intros Hi; apply Hno'; rewrite <- (firstn_skipn 2 u); apply in_or_app; now left).
  assert (Hskip : ~ In 45%N (skipn 2 u))
    by (intros Hi; apply Hno'; rewrite <- (firstn_skipn 2 u); apply in_or_app; now right).
  unfold _try_dash_notation.
  rewrite (contains_char 45%N) by (apply in_or_app; right; now left).
  rewrite split_at_sep by now apply no_hyphen_part.
  rewrite split_no_sep by now apply no_hyphen_part.
  rewrite !strip_padded by (assumption || now apply forallb_firstn || now apply forallb_skipn).
  rewrite firstn_skipn, legal_from_uci_run.
  apply orb_true_iff in Huci' as [Heq|Hu]; [apply Nat.eqb_eq in Heq; contradiction|].
  destruct (from_uci u) as [m|]; [|discriminate].
  apply move_eqb_eq in Hu. rewrite Hu, (move_eta M Hd).
  now rewrite (legal_sound_In b M Hs Hin).
Qed.

(** X6.  On a consistent board, resolving the dashed text of a legal move
    that does not promote to a pawn (origin square, hyphen, destination
    square, promotion letter) returns that move. *)
Theorem dashed_round_trip (names : list (str * str)) (b : Board) (M : Move) (u : str) :
  legal_sound b -> legal_proper b -> legal_standard b -> legal_promoting b ->
  In M (legal_moves b) -> promotion M <> Some Pawn -> uci M = Ok u ->
  outcome (parse_move names (dashed u) b) = Some (Resolved M).
Proof.
  intros Hs Hp Hst Hpr Hin Hpawn Huci.
  destruct (legal_proper_In b M Hp Hin) as [Hne Hd].
  pose proof (legal_truthy b M Hp Hin) as Hm.
  destruct (uci_coord M u Hne Hd Huci) as (Hf & Ht & ->).
  pose proof (dash_checked _ _ (promotion M) Hf Ht) as Hdash. unfold dash_check in Hdash.
  apply andb_true_iff in Hdash as [Hdash Hread].
  apply andb_true_iff in Hdash as [_ Hplain].
  assert (Hnp : is_pawn_promotion (promotion M) = false)
    by (destruct (promotion M) as [[]|]; try reflexivity; now destruct Hpawn).
  rewrite Hnp in Hread. cbn [orb] in Hread.
  unfold parse_move. rewrite (prepared_plain _ Hplain).
  rewrite <- (prepared_plain _ Hplain) at 1.
  rewrite driver_next by apply castling_never_matches.
  rewrite (driver_done _ _ b M); [reflexivity | | exact Hm].
  unfold _try_standard_notation. apply standard_loop_first; [|exact Hm].
  rewrite (parse_san_coordinates b _ _ _ _ Hread).
  rewrite (find_move_legal b M Hs Hst Hpr Hin).
  now rewrite opt_piece_type_eqb_refl.
Qed.

(* ===================================================================== *)
(** * The list of suggestions *)
(* ===================================================================== *)

Lemma str_leb_total (s t : str) : str_leb s t = false -> str_leb t s = true.
Proof.
  revert t; induction s as [|c s IH]; intros [|d t]; simpl; try easy.
  destruct (N.ltb_spec c d); [discriminate|].
  destruct (N.ltb_spec d c); [reflexivity|]. apply IH.
Qed.

Lemma insert_permutation (x : str) (l : list str) : Permutation (insert x l) (x :: l).
Proof.
  induction l as [|y l IH]; simpl; [reflexivity|].
  destruct (str_leb x y); [reflexivity|].
  rewrite IH. apply perm_swap.
Qed.

Lemma sorted_permutation (l : list str) : Permutation (sorted l) l.
Proof.
  induction l as [|x l IH]; simpl; [reflexivity|].
  rewrite insert_permutation. now constructor.
Qed.

Lemma insert_sorted (x : str) (l : list str) :
  Sorted (fun s t => str_leb s t = true) l ->
  Sorted (fun s t => str_leb s t = true) (insert x l).
Proof.
  induction 1 as [|y l Hl IH Hy]; simpl; [repeat constructor|].
  destruct (str_leb x y) eqn:E.
  - constructor; [now constructor | now constructor].
  - constructor; [exact IH|].
    destruct l as [|z l]; simpl; [constructor; now apply str_leb_total|].
    destruct (str_leb x z); constructor; [now apply str_leb_total | now inversion Hy].
Qed.

Lemma sorted_sorted (l : list str) : Sorted (fun s t => str_leb s t = true) (sorted l).
Proof.
  induction l as [|x l IH]; simpl; [constructor | now apply insert_sorted].
Qed.

Lemma uci_defined (m : Move) :
  from_square m < 64 -> to_square m < 64 -> exists u, uci m = Ok u.
Proof.
  intros Hf Ht. unfold uci.
  destruct (square_name_defined _ Hf) as [nf ->].
  destruct (square_name_defined _ Ht) as [nt ->].
  destruct (drop m); [now eexists|]. destruct (promotion m); [now eexists|].
  destruct (move_bool m); now eexists.
Qed.

Lemma suggestion_entries_run (b : Board) (moves : list Move) :
  san_defined b -> legal_on_board b -> incl moves (legal_moves b) ->
  exists entries,
    Forall2 (fun m e => exists s u, san b m = Ok s /\ uci m = Ok u
                                    /\ e = s ++ utf8 " (" ++ u ++ utf8 ")")
            moves entries
    /\ suggestion_entries moves b = ret entries b.
Proof.
  intros Hs Hb. induction moves as [|m moves IH]; intros Hincl.
  - exists []. split; [constructor | reflexivity].
  - destruct IH as (entries & Hall & Hrun); [intros x Hx; apply Hincl; now right|].
    assert (Hin : In m (legal_moves b)) by (apply Hincl; now left).
    destruct (san_of_legal b Hs m Hin) as [text Et].
    assert (Hu : exists u, uci m = Ok u).
    { unfold legal_on_board in Hb. rewrite forallb_forall in Hb. specialize (Hb m Hin).
      apply andb_true_iff in Hb as [Hf Ht]. apply Nat.ltb_lt in Hf, Ht.
      now apply uci_defined. }
    destruct Hu as [u Eu].
    exists ((text ++ utf8 " (" ++ u ++ utf8 ")") :: entries). split.
    + constructor; [now exists text, u | exact Hall].
    + cbn [suggestion_entries].
      rewrite (bind_ret_run _ _ b text) by (now apply algebraic_ret).
      rewrite (bind_ret_run _ _ b u) by (unfold lift, query; now rewrite Eu).
      now rewrite (bind_ret_run _ _ b entries Hrun).
Qed.

(** X8.  On a board that formats its legal moves and keeps them on the 64
    squares, [get_move_suggestions] returns, whatever text was typed, the
    entries [san (uci)] of the legal moves, one for each move, arranged in
    ascending order of their code points. *)
Theorem move_suggestions_sorted (partial_text : str) (b : Board) :
  san_defined b -> legal_on_board b ->
  exists entries out,
    Forall2 (fun m e => exists s u, san b m = Ok s /\ uci m = Ok u
                                    /\ e = s ++ utf8 " (" ++ u ++ utf8 ")")
            (legal_moves b) entries
    /\ get_move_suggestions partial_text b = ret out b
    /\ Permutation out entries
    /\ Sorted (fun s t => str_leb s t = true) out.
Proof.
  intros Hs Hb.
  destruct (suggestion_entries_run b (legal_moves b) Hs Hb (incl_refl _))
    as (entries & Hall & Hrun).
  exists entries, (sorted entries). split; [exact Hall|]. split; [|split].
  - unfold get_move_suggestions.
    rewrite (bind_ret_run _ _ b (legal_moves b)) by reflexivity.
    now rewrite (bind_ret_run _ _ b entries Hrun).
  - apply sorted_permutation.
  - apply sorted_sorted.
Qed.

(* ===================================================================== *)
(** * The end of the game *)
(* ===================================================================== *)

(** X10.  [check_game_over] ends the game exactly when [save_game] writes
    a decided result: it returns [True] if and only if the [Result] header
    is not the star of an unfinished game. *)
Theorem game_over_iff_result_decided (player_color : Color) (difficulty_name : str)
    (board : Game.Status) :
  fst (Game.check_game_over player_color board) = true
  <-> Game.Result (Game.save_game_headers player_color difficulty_name board) <> utf8 "*".
Proof.
  unfold Game.check_game_over, Game.save_game_headers. cbn [Game.Result].
  destruct (Game.is_checkmate board), (Game.is_stalemate board),
    (Game.is_insufficient_material board), (Game.can_claim_fifty_moves board),
    (Game.can_claim_threefold_repetition board), (Game.side_to_move board);
    cbn; split; intros H; try reflexivity; try discriminate; try (intros K; discriminate K);
    now destruct H.
Qed.

(** X11.  At a checkmate the announcement and the saved game agree: the
    player is announced as the winner exactly when the [Result] header
    gives the point to the colour whose header names the player. *)
Theorem mate_winner_matches_result (player_color : Color) (difficulty_name : str)
    (board : Game.Status) :
  Game.is_checkmate board = true ->
  let headers := Game.save_game_headers player_color difficulty_name board in
  exists winner,
    snd (Game.check_game_over player_color board) = Some (Game.Mate winner)
    /\ (winner = utf8 "Ви"
        <-> (Game.Result headers = utf8 "1-0" /\ Game.White headers = utf8 "Гравець")
            \/ (Game.Result headers = utf8 "0-1" /\ Game.Black headers = utf8 "Гравець")).
Proof.
  intros Hm. unfold Game.check_game_over, Game.save_game_headers.
  cbn [Game.Result Game.White Game.Black]. rewrite Hm.
  eexists. split; [reflexivity|].
  destruct (Game.side_to_move board), player_color; vm_compute; split;
    try (intros _; solve [reflexivity | left; split; reflexivity
                         | right; split; reflexivity]);
    try (intros H; discriminate H);
    intros [[H1 H2]|[H1 H2]]; first [discriminate H1 | discriminate H2].
Qed.

(* ===================================================================== *)
(** * The table of the board *)
(* ===================================================================== *)

Import Visualizer.

Lemma rev_framed {A : Type} (x : A) (l : list A) :
  rev (x :: l ++ [x]) = x :: rev l ++ [x].
Proof. simpl. now rewrite rev_app_distr. Qed.

Lemma rev_map_rev_table {A B : Type} (top : list A) (row : B -> list A) (ranks : list B) :
  rev (map (@rev A) (top :: map row ranks ++ [top]))
  = rev top :: map (fun r => rev (row r)) (rev ranks) ++ [rev top].
Proof.
  cbn [map]. rewrite map_app, map_map. cbn [map rev].
  rewrite rev_app_distr. cbn [rev app]. now rewrite <- map_rev.
Qed.

(** X12.  The table drawn for Black is the table drawn for White turned by
    180 degrees: the same rows from the last to the first, each read from
    right to left, labels, pieces, colours and highlights included. *)
Theorem display_black_is_white_rotated (PIECE_SYMBOLS : list (str * str))
    (board : Board) (last_move : option Move) :
  display PIECE_SYMBOLS board last_move Black
  = rev (map (@rev Renderable) (display PIECE_SYMBOLS board last_move White)).
Proof.
  unfold display. cbv beta iota zeta. rewrite rev_map_rev_table.
  rewrite rev_framed, <- map_rev.
  set (cells := cell PIECE_SYMBOLS board last_move).
  change (rev (words (utf8 "a b c d e f g h"))) with (words (utf8 "h g f e d c b a")).
  change (rev [7; 6; 5; 4; 3; 2; 1; 0]) with (seq 0 8).
  reflexivity.
Qed.

(* ===================================================================== *)
(** * The explanation of an evaluation *)
(* ===================================================================== *)

(** X13.  When a mate is announced, [_explain_score] does not look at the
    evaluation nor at the sign of the mate: a mate in [n] for the side and
    a mate in [n] against it get the same number, text and colour. *)
Theorem explain_score_ignores_mate_sign (Float : Type) (ge_tenths : Float -> Z -> bool)
    (format_signed : Float -> str) (score score' : option Float) (mate : Z) :
  _explain_score Float ge_tenths format_signed score (Some (- mate)%Z)
  = _explain_score Float ge_tenths format_signed score' (Some mate).
Proof.
  unfold _explain_score. rewrite Z.abs_opp.
  destruct (Z.ltb_spec 0 mate) as [H|H], (Z.ltb_spec 0 (- mate)) as [K|K]; try lia.
  - now rewrite (Z.abs_eq mate) by lia.
  - now replace (Z.abs mate) with (- mate)%Z by lia.
  - reflexivity.
Qed.

(* ===================================================================== *)
(** * The descriptions of a move *)
(* ===================================================================== *)

Section DescriptionFacts.

Variable is_capture : Board -> Move -> bool.

Lemma square_names_lower :
  forallb (fun name => Py.eqb (lower name) name) SQUARE_NAMES = true.
Proof. vm_compute. reflexivity. Qed.

Lemma square_name_lower (sq : Square) (name : str) :
  square_name sq = Ok name -> lower name = name.
Proof.
  intros H. apply square_name_nth in H as [Hlt <-].
  pose proof square_names_lower as Hall. rewrite forallb_forall in Hall.
  apply eqb_eq, Hall, nth_In. exact Hlt.
Qed.

(** X14.  [_format_move_with_description] never loses the text it was
    given: its result starts with it, and is the text alone when the
    algebraic parser refuses it. *)
Theorem format_move_keeps_san (b : Board) (move_san : str) :
  (exists rest, _format_move_with_description is_capture b move_san = move_san ++ rest)
  /\ (forall e, parse_san b move_san = Raise e ->
                _format_move_with_description is_capture b move_san = move_san).
Proof.
  unfold _format_move_with_description, format_move_body. split.
  - destruct (parse_san b move_san) as [move|]; [|exists []; now rewrite app_nil_r].
    destruct (square_name (from_square move)); [|exists []; now rewrite app_nil_r].
    destruct (square_name (to_square move)); [|exists []; now rewrite app_nil_r].
    destruct (piece_at b (from_square move)); [|exists []; now rewrite app_nil_r].
    destruct (Py.eqb move_san (utf8 "O-O")); [eexists; reflexivity|].
    destruct (Py.eqb move_san (utf8 "O-O-O")); [eexists; reflexivity|].
    destruct (is_capture b move); [|eexists; reflexivity].
    destruct (piece_at b (to_square move)); eexists; reflexivity.
  - intros e E. now rewrite E.
Qed.

(** X16.  For a legal move of a consistent board, the hint that
    [_format_move_with_description] makes of the move's SAN text is that
    text followed, in brackets, by the description
    [get_move_ukrainian_description] gives of the move, in lower case and
    without its check or mate mark. *)
Theorem hint_is_lowered_description (b : Board) (M : Move) (move_san : str) :
  san_faithful b -> legal_on_board b -> legal_own b ->
  In M (legal_moves b) -> san b M = Ok move_san ->
  exists description body,
    get_move_ukrainian_description is_capture b M = Returned description
    /\ lower description = body ++ check_mark move_san
    /\ _format_move_with_description is_capture b move_san
       = move_san ++ utf8 " (" ++ body ++ utf8 ")".
Proof.
  intros Hf Hb Ho Hin Hsan.
  unfold san_faithful in Hf. rewrite forallb_forall in Hf. specialize (Hf M Hin).
  rewrite Hsan in Hf. destruct (parse_san b move_san) as [n|] eqn:Ep; [|discriminate].
  apply move_eqb_eq in Hf. subst n.
  unfold legal_on_board in Hb. rewrite forallb_forall in Hb. specialize (Hb M Hin).
  apply andb_true_iff in Hb as [Hfrom Hto]. apply Nat.ltb_lt in Hfrom, Hto.
  destruct (square_name_defined _ Hfrom) as [fname Efrom].
  destruct (square_name_defined _ Hto) as [tname Eto].
  pose proof (square_name_lower _ _ Eto) as Hlow.
  unfold legal_own in Ho. rewrite forallb_forall in Ho. specialize (Ho M Hin).
  unfold occupied_own, has_piece in Ho.
  destruct (piece_at b (from_square M)) as [piece|] eqn:Epiece; [|discriminate].
  unfold get_move_ukrainian_description, description_body,
    _format_move_with_description, format_move_body, check_mark.
  rewrite Hsan, Ep, Efrom, Eto, Epiece.
  destruct (Py.eqb move_san (utf8 "O-O")) eqn:E1.
  { apply eqb_eq in E1. subst move_san.
    exists (utf8 "Коротка рокіровка"), (utf8 "коротка рокіровка").
    split; [reflexivity|]. split; [vm_compute; reflexivity|]. reflexivity. }
  destruct (Py.eqb move_san (utf8 "O-O-O")) eqn:E2.
  { apply eqb_eq in E2. subst move_san.
    exists (utf8 "Довга рокіровка"), (utf8 "довга рокіровка").
    split; [reflexivity|]. split; [vm_compute; reflexivity|]. reflexivity. }
  set (mark := if contains (utf8 "#") move_san then utf8 ", мат!"
               else if contains (utf8 "+") move_san then utf8 ", шах!" else []).
  assert (Hmark : lower mark = mark)
    by (unfold mark; destruct (contains (utf8 "#") move_san),
          (contains (utf8 "+") move_san); reflexivity).
  set (name := _get_piece_type_name (piece_type piece) (utf8 "nominative")).
  set (description :=
         if is_capture b M
         then match piece_at b (to_square M) with
              | Some captured_piece =>
                  name ++ utf8 " б'є "
                  ++ _get_piece_type_name (piece_type captured_piece) (utf8 "genitive")
                  ++ utf8 " на " ++ tname
              | None => name ++ utf8 " б'є на " ++ tname
              end
         else name ++ utf8 " на " ++ tname).
  exists (description ++ mark), (lower description).
  split; [|split].
  - unfold mark. destruct (contains (utf8 "#") move_san); [reflexivity|].
    destruct (contains (utf8 "+") move_san); [reflexivity|]. now rewrite app_nil_r.
  - unfold lower. rewrite map_app. fold (lower mark). now rewrite Hmark.
  - assert (Happ : forall x y, lower (x ++ y) = lower x ++ lower y)
      by (intros x y; apply map_app).
    unfold description.
    destruct (is_capture b M); [destruct (piece_at b (to_square M)) as [captured|]|];
      rewrite !Happ, Hlow.
    + change (lower (utf8 " б'є ")) with (utf8 " б'є ").
      change (lower (utf8 " на ")) with (utf8 " на ").
      now rewrite <- !app_assoc.
    + change (lower (utf8 " б'є на ")) with (utf8 " б'є на ").
      now rewrite <- !app_assoc.
    + change (lower (utf8 " на ")) with (utf8 " на ").
      now rewrite <- !app_assoc.
Qed.
End DescriptionFacts.

(* ===================================================================== *)
(** * The further theorems at the example positions *)
(* ===================================================================== *)

Import MorePositions.

(** X4 at the king's move [Kg2]. *)
Lemma standard_notation_first_witness :
  parse_san bishop_or_pawn (_convert_cyrillic_to_latin (strip (utf8 "Kg2")))
  = Ok (mv "h1" "g2")
  /\ move_bool (mv "h1" "g2") = true
  /\ outcome (parse_move example_piece_names (utf8 "Kg2") bishop_or_pawn)
     = Some (Resolved (mv "h1" "g2")).
Proof.
  do 2 (split; [reflexivity|]).
  exact (standard_notation_first example_piece_names (utf8 "Kg2") bishop_or_pawn
           (mv "h1" "g2") eq_refl eq_refl).
Defined.

(** X5 at the pawn's double step, typed with blanks: [ b2 - b4]. *)
Lemma dash_notation_round_trip_witness :
  legal_sound bishop_or_pawn /\ legal_proper bishop_or_pawn
  /\ In (mv "b2" "b4") (legal_moves bishop_or_pawn)
  /\ uci (mv "b2" "b4") = Ok (utf8 "b2b4")
  /\ forallb isspace (utf8 " ") = true /\ forallb isspace [] = true
  /\ _try_dash_notation (utf8 " b2 - b4") bishop_or_pawn
     = ret (Some (mv "b2" "b4")) bishop_or_pawn.
Proof.
  assert (Hin : In (mv "b2" "b4") (legal_moves bishop_or_pawn)) by (simpl; tauto).
  do 2 (split; [reflexivity|]). split; [exact Hin|]. do 3 (split; [reflexivity|]).
  exact (dash_notation_round_trip bishop_or_pawn (mv "b2" "b4") (utf8 "b2b4")
           (utf8 " ") (utf8 " ") (utf8 " ") [] eq_refl eq_refl Hin eq_refl
           eq_refl eq_refl eq_refl eq_refl).
Defined.

(** X6 at the promotion, typed [e7-e8q]. *)
Lemma dashed_round_trip_witness :
  legal_sound promotion_ready /\ legal_proper promotion_ready
  /\ legal_standard promotion_ready /\ legal_promoting promotion_ready
  /\ In (promo "e7" "e8" Queen) (legal_moves promotion_ready)
  /\ promotion (promo "e7" "e8" Queen) <> Some Pawn
  /\ uci (promo "e7" "e8" Queen) = Ok (utf8 "e7e8q")
  /\ outcome (parse_move example_piece_names (utf8 "e7-e8q") promotion_ready)
     = Some (Resolved (promo "e7" "e8" Queen)).
Proof.
  assert (Hin : In (promo "e7" "e8" Queen) (legal_moves promotion_ready))
    by (simpl; tauto).
  assert (Hq : promotion (promo "e7" "e8" Queen) <> Some Pawn) by discriminate.
  do 4 (split; [reflexivity|]). split; [exact Hin|]. split; [exact Hq|].
  split; [reflexivity|].
  exact (dashed_round_trip example_piece_names promotion_ready (promo "e7" "e8" Queen)
           (utf8 "e7e8q") eq_refl eq_refl eq_refl eq_refl Hin Hq eq_refl).
Defined.

(** X7 at the text [b2-b4]. *)
Lemma dash_notation_one_hyphen_witness :
  result (_try_dash_notation (utf8 "b2-b4") bishop_or_pawn) = Ok (Some (mv "b2" "b4"))
  /\ count 45%N (utf8 "b2-b4") = 1
  /\ is_legal bishop_or_pawn (mv "b2" "b4") = true
  /\ exists p0 p1, utf8 "b2-b4" = p0 ++ 45%N :: p1
                   /\ from_uci (strip p0 ++ strip p1) = Ok (mv "b2" "b4").
Proof.
  split; [reflexivity|].
  exact (dash_notation_one_hyphen (utf8 "b2-b4") bishop_or_pawn (mv "b2" "b4") eq_refl).
Defined.

(** X8 at the two knights. *)
Lemma move_suggestions_sorted_witness :
  san_defined two_knights /\ legal_on_board two_knights
  /\ exists entries out,
       Forall2 (fun m e => exists s u, san two_knights m = Ok s /\ uci m = Ok u
                                       /\ e = s ++ utf8 " (" ++ u ++ utf8 ")")
               (legal_moves two_knights) entries
       /\ get_move_suggestions [] two_knights = ret out two_knights
       /\ Permutation out entries
       /\ Sorted (fun s t => str_leb s t = true) out.
Proof.
  do 2 (split; [reflexivity|]).
  exact (move_suggestions_sorted [] two_knights eq_refl eq_refl).
Defined.

(** X9 at the line [ b2-b4 ], which is no command. *)
Lemma player_round_accepts_resolved_witness :
  legal_sound bishop_or_pawn
  /\ command_of commands (lower (strip (utf8 " b2-b4 "))) = None
  /\ result (parse_move example_piece_names (strip (utf8 " b2-b4 ")) bishop_or_pawn)
     = Ok (Some (mv "b2" "b4"))
  /\ result (get_player_move_round example_piece_names (utf8 " b2-b4 ") bishop_or_pawn)
     = Ok (Return (mv "b2" "b4")).
Proof.
  do 3 (split; [reflexivity|]).
  exact (player_round_accepts_resolved example_piece_names (utf8 " b2-b4 ") bishop_or_pawn
           (Some (mv "b2" "b4")) eq_refl eq_refl eq_refl).
Defined.

(** X11 when the player has White and Black is mated. *)
Lemma mate_winner_matches_result_witness :
  Game.is_checkmate black_is_mated = true
  /\ exists winner,
       snd (Game.check_game_over White black_is_mated) = Some (Game.Mate winner)
       /\ (winner = utf8 "Ви"
           <-> (Game.Result (Game.save_game_headers White (utf8 "Easy") black_is_mated)
                = utf8 "1-0"
                /\ Game.White (Game.save_game_headers White (utf8 "Easy") black_is_mated)
                   = utf8 "Гравець")
               \/ (Game.Result (Game.save_game_headers White (utf8 "Easy") black_is_mated)
                   = utf8 "0-1"
                   /\ Game.Black (Game.save_game_headers White (utf8 "Easy") black_is_mated)
                      = utf8 "Гравець")).
Proof.
  split; [reflexivity|].
  exact (mate_winner_matches_result White (utf8 "Easy") black_is_mated eq_refl).
Defined.

(** X16 at the bishop's capture [Bxc3]. *)
Lemma hint_is_lowered_description_witness :
  san_faithful bishop_or_pawn /\ legal_on_board bishop_or_pawn /\ legal_own bishop_or_pawn
  /\ In (mv "d2" "c3") (legal_moves bishop_or_pawn)
  /\ san bishop_or_pawn (mv "d2" "c3") = Ok (utf8 "Bxc3")
  /\ exists description body,
       get_move_ukrainian_description touches_opponent bishop_or_pawn (mv "d2" "c3")
       = Returned description
       /\ lower description = body ++ check_mark (utf8 "Bxc3")
       /\ _format_move_with_description touches_opponent bishop_or_pawn (utf8 "Bxc3")
          = utf8 "Bxc3" ++ utf8 " (" ++ body ++ utf8 ")".
Proof.
  assert (Hin : In (mv "d2" "c3") (legal_moves bishop_or_pawn)) by (simpl; tauto).
  do 3 (split; [reflexivity|]). split; [exact Hin|]. split; [reflexivity|].
  exact (hint_is_lowered_description touches_opponent bishop_or_pawn (mv "d2" "c3")
           (utf8 "Bxc3") eq_refl eq_refl eq_refl Hin eq_refl).
Defined.

(** The hint and the description of that capture. *)
Example bishop_takes_knight_described :
  get_move_ukrainian_description touches_opponent bishop_or_pawn (mv "d2" "c3")
  = Returned (utf8 "Слон б'є Коня на c3")
  /\ _format_move_with_description touches_opponent bishop_or_pawn (utf8 "Bxc3")
     = utf8 "Bxc3 (слон б'є коня на c3)".
Proof. split; reflexivity. Qed.

(* ===================================================================== *)
(** * Blank tokens, and squares given in words *)
(* ===================================================================== *)

Lemma lstrip_blank (t : str) : forallb isspace t = true -> lstrip t = [].
Proof.
  induction t as [|c t IH]; [reflexivity|]. cbn [forallb lstrip].
  intros H. apply andb_true_iff in H as [Hc Ht]. rewrite Hc. now apply IH.
Qed.

Lemma strip_blank (t : str) : forallb isspace t = true -> strip t = [].
Proof. intros H. unfold strip. now rewrite (lstrip_blank t H). Qed.

Lemma find_piece_name_empty (names : list (str * str)) :
  snd (find_piece_name names []) = [].
Proof.
  induction names as [|[name symbol] names IH]; [reflexivity|].
  cbn [find_piece_name]. destruct (contains name []); [|exact IH].
  now destruct name.
Qed.

(** X17.  A token that is empty or holds white space only is matched by no
    strategy, whatever the table of piece names and the position: the
    resolution is Unrecognized. *)
Theorem blank_token_unrecognized (names : list (str * str)) (token : str) (b : Board) :
  forallb isspace token = true ->
  outcome (parse_move names token b) = Some Unrecognized.
Proof.
  intros H. unfold parse_move.
  rewrite driver_next by apply castling_never_matches.
  rewrite (strip_blank token H).
  change (_convert_cyrillic_to_latin []) with (@nil N).
  rewrite driver_next.
  2:{ apply standard_loop_none. intros v m Hv E.
      assert (Hv' : v = []) by (simpl in Hv; decompose [or] Hv; subst; tauto).
      subst v. rewrite parse_san_syntax_raise in E by reflexivity. discriminate. }
  rewrite driver_next by (unfold _try_uci_notation; now rewrite legal_from_uci_run).
  rewrite driver_next.
  2:{ unfold _try_human_language. change (lower []) with (@nil N).
      pose proof (find_piece_name_empty names) as Hn.
      destruct (find_piece_name names []) as [found rest]. simpl in Hn. subst rest.
      reflexivity. }
  reflexivity.
Qed.

Lemma in_words_check_all :
  forallb (fun f => forallb (fun t => forallb (fun pre => forallb (in_words_check f t pre)
                                                            target_words)
                                              origin_words)
                            (seq 0 64))
          (seq 0 64) = true.
Proof. vm_compute. reflexivity. Qed.

Lemma in_words_checked (f t : Square) (pre sep : str) :
  f < 64 -> t < 64 -> In pre origin_words -> In sep target_words ->
  in_words_check f t pre sep = true.
Proof.
  intros Hf Ht Hpre Hsep. pose proof in_words_check_all as H.
  rewrite forallb_forall in H. specialize (H f). rewrite forallb_forall in H.
  specialize (H (proj2 (in_seq 64 0 f) (conj (Nat.le_0_l f) Hf)) t).
  rewrite forallb_forall in H.
  specialize (H (proj2 (in_seq 64 0 t) (conj (Nat.le_0_l t) Ht)) pre).
  rewrite forallb_forall in H. exact (H Hpre sep Hsep).
Qed.

(** X18.  Origin and destination in words: for a legal move without
    promotion, the names of its two squares with a blank or the word for
    [to] between them, with or without the word for [from] in front,
    resolve to that move when the table of piece names finds no name in
    the text. *)
Theorem squares_in_words_resolved (names : list (str * str)) (b : Board) (M : Move)
    (pre sep : str) :
  legal_sound b -> legal_proper b -> legal_on_board b ->
  In M (legal_moves b) -> promotion M = None ->
  In pre origin_words -> In sep target_words ->
  fst (find_piece_name names
         (lower (_convert_cyrillic_to_latin
                   (strip (in_words pre (from_square M) sep (to_square M)))))) = None ->
  outcome (parse_move names (in_words pre (from_square M) sep (to_square M)) b)
  = Some (Resolved M).
Proof.
  intros Hs Hp Hb Hin Hpromo Hpre Hsep Hnone.
  destruct (legal_proper_In b M Hp Hin) as [Hne Hd].
  pose proof (legal_truthy b M Hp Hin) as Hm.
  unfold legal_on_board in Hb. rewrite forallb_forall in Hb. specialize (Hb M Hin).
  apply andb_true_iff in Hb as [Hf Ht]. apply Nat.ltb_lt in Hf, Ht.
  pose proof (in_words_checked _ _ pre sep Hf Ht Hpre Hsep) as Hc.
  pose proof (coord_checked _ _ None Hf Ht) as Hu.
  unfold in_words_check in Hc. unfold coord_check in Hu. unfold parse_move.
  remember (_convert_cyrillic_to_latin
              (strip (in_words pre (from_square M) sep (to_square M)))) as text eqn:Etext in *.
  apply andb_true_iff in Hc as [Hc Hfind]. apply andb_true_iff in Hc as [Hc Huci].
  apply andb_true_iff in Hc as [Hc H3]. apply andb_true_iff in Hc as [H1 H2].
  apply andb_true_iff in Hu as [_ Hu].
  apply orb_true_iff in Hu as [Heq|Hu]; [apply Nat.eqb_eq in Heq; contradiction|].
  rewrite driver_next by (rewrite Etext; apply castling_never_matches).
  clear Etext.
  rewrite driver_next.
  2:{ apply standard_loop_none. intros v m Hv E.
      destruct Hv as [<-|[<-|[<-|[]]]];
        rewrite parse_san_syntax_raise in E by assumption; discriminate. }
  rewrite driver_next.
  2:{ unfold _try_uci_notation. rewrite legal_from_uci_run.
      now destruct (from_uci (lower text)). }
  rewrite (driver_done _ _ b M); [reflexivity | | exact Hm].
  unfold _try_human_language. rewrite (find_piece_name_none _ _ Hnone).
  destruct (findall_squares (remove_fillers (lower text))) as [|s0 [|s1 [|s2 more]]];
    try discriminate.
  apply eqb_eq in Hfind. rewrite Hfind, legal_from_uci_run.
  destruct (from_uci (coord (from_square M) (to_square M) None)) as [m|]; [|discriminate].
  apply move_eqb_eq in Hu.
  assert (HM : {| from_square := from_square M; to_square := to_square M;
                  promotion := None; drop := None |} = M)
    by (destruct M; simpl in *; now subst).
  rewrite Hu, HM. now rewrite (legal_sound_In b M Hs Hin).
Qed.

(** X17 at a token of two blanks. *)
Lemma blank_token_unrecognized_witness :
  forallb isspace (utf8 "  ") = true
  /\ outcome (parse_move example_piece_names (utf8 "  ") bishop_or_pawn)
     = Some Unrecognized.
Proof.
  split; [reflexivity|].
  exact (blank_token_unrecognized example_piece_names (utf8 "  ") bishop_or_pawn eq_refl).
Defined.

(** X18 at the bishop's move, typed as from d2 to h6 in words. *)
Lemma squares_in_words_resolved_witness :
  legal_sound bishop_or_pawn /\ legal_proper bishop_or_pawn /\ legal_on_board bishop_or_pawn
  /\ In (mv "d2" "h6") (legal_moves bishop_or_pawn)
  /\ promotion (mv "d2" "h6") = None
  /\ In (utf8 "з ") origin_words /\ In (utf8 " на ") target_words
  /\ fst (find_piece_name example_piece_names
            (lower (_convert_cyrillic_to_latin (strip (utf8 "з d2 на h6"))))) = None
  /\ outcome (parse_move example_piece_names (utf8 "з d2 на h6") bishop_or_pawn)
     = Some (Resolved (mv "d2" "h6")).
Proof.
  assert (Hin : In (mv "d2" "h6") (legal_moves bishop_or_pawn)) by (simpl; tauto).
  assert (Hpre : In (utf8 "з ") origin_words) by (simpl; tauto).
  assert (Hsep : In (utf8 " на ") target_words) by (simpl; tauto).
  do 3 (split; [reflexivity|]). split; [exact Hin|]. split; [reflexivity|].
  split; [exact Hpre|]. split; [exact Hsep|]. split; [reflexivity|].
  exact (squares_in_words_resolved example_piece_names bishop_or_pawn (mv "d2" "h6")
           (utf8 "з ") (utf8 " на ") eq_refl eq_refl eq_refl Hin eq_refl Hpre Hsep eq_refl).
Defined.
